(** * upi-intent: parameter engine and link builder

    A shallow embedding of [src/core/params.ts], [src/data/registry.ts] and
    [src/core/linkers.ts], together with the fragment of the JavaScript
    platform these files call (strings, plain objects, regular expressions,
    [URLSearchParams], [URL], [encodeURIComponent]).

    JavaScript strings are sequences of UTF-16 code units; a code unit is a
    number below 65536.  Objects are lists of own properties in creation
    order; [Object_entries] produces the enumeration order of the language
    (array-index keys first, ascending, then the others in creation order). *)

From Stdlib Require Import List Arith NArith ZArith Bool String Ascii Lia Permutation.
From Stdlib Require Import Btauto.
From Stdlib Require Import DecimalString.
Import ListNotations.


(* ================================================================== *)
(** ** Strings *)
(* ================================================================== *)

Definition code_unit := N.
Definition jsstring := list code_unit.

(** A string literal of the source, as code units. *)
Definition lit (s : string) : jsstring :=
  map N_of_ascii (list_ascii_of_string s).
Arguments lit s%_string.

Fixpoint str_eqb (a b : jsstring) : bool :=
  match a, b with
  | [], [] => true
  | x :: a', y :: b' => N.eqb x y && str_eqb a' b'
  | _, _ => false
  end.

Definition is_empty (s : jsstring) : bool :=
  match s with [] => true | _ => false end.

(** [list.length === 0] *)
Definition is_empty_list {A} (l : list A) : bool :=
  match l with [] => true | _ => false end.

(** [s.length] *)
Definition str_length (s : jsstring) : N := N.of_nat (List.length s).

(** Every code unit fits 16 bits. *)
Definition wf_string (s : jsstring) : Prop := Forall (fun c => (c < 65536)%N) s.
Definition wf_stringb (s : jsstring) : bool := forallb (fun c => (c <? 65536)%N) s.

(** [Array.prototype.join] on strings. *)
Fixpoint join (sep : jsstring) (l : list jsstring) : jsstring :=
  match l with
  | [] => []
  | [x] => x
  | x :: r => x ++ sep ++ join sep r
  end.

(** Decimal rendering of a number inside a template literal. *)
Definition decimal (n : N) : jsstring :=
  lit (NilZero.string_of_uint (N.to_uint n)).

(** *** [String.prototype.trim]

    White space and line terminators of ECMAScript: TAB, LF, VT, FF, CR,
    SP, NBSP, U+1680, U+2000..U+200A, U+2028, U+2029, U+202F, U+205F,
    U+3000 and U+FEFF. *)
Definition is_white_space (c : code_unit) : bool :=
  ((9 <=? c) && (c <=? 13) || (c =? 32) || (c =? 160) || (c =? 0x1680)
   || (0x2000 <=? c) && (c <=? 0x200A) || (c =? 0x2028) || (c =? 0x2029)
   || (c =? 0x202F) || (c =? 0x205F) || (c =? 0x3000) || (c =? 0xFEFF))%N.

Fixpoint trimStart (s : jsstring) : jsstring :=
  match s with
  | [] => []
  | c :: r => if is_white_space c then trimStart r else s
  end.

Definition trimEnd (s : jsstring) : jsstring := rev (trimStart (rev s)).

Definition trim (s : jsstring) : jsstring := trimEnd (trimStart s).

(** *** [String.prototype.toLowerCase]

    Exact on the ASCII range and on the two code points outside it whose
    lower-case form contains an ASCII letter (U+0130, which becomes [i]
    followed by U+0307, and the Kelvin sign U+212A, which becomes [k]).
    The remaining code units are left in place: their lower-case forms
    contain no ASCII character, so every search for an ASCII token gives
    the answer it gives on the platform. *)
Definition lower_unit (c : code_unit) : jsstring :=
  (if (65 <=? c) && (c <=? 90) then [c + 32]
   else if c =? 0x130 then [105; 0x307]
   else if c =? 0x212A then [107]
   else [c])%N.

Definition toLowerCase (s : jsstring) : jsstring := flat_map lower_unit s.

(** [s.startsWith(p)] and [s.includes(p)], used to state what a search
    finds. *)
Fixpoint starts_with (p s : jsstring) : bool :=
  match p, s with
  | [], _ => true
  | x :: p', y :: s' => N.eqb x y && starts_with p' s'
  | _ :: _, [] => false
  end.

Fixpoint includes (p s : jsstring) : bool :=
  starts_with p s ||
  match s with
  | [] => false
  | _ :: s' => includes p s'
  end.

(** Truthiness of [string | undefined]: [undefined] and the empty string
    are falsy. *)
Definition truthy (v : option jsstring) : bool :=
  match v with
  | Some (_ :: _) => true
  | _ => false
  end.

(** [a || b] on [string | undefined]. *)
Definition js_or (a b : option jsstring) : option jsstring :=
  if truthy a then a else b.

(* ================================================================== *)
(** ** Regular expressions (no flags: matching is by code unit) *)
(* ================================================================== *)

Inductive regex : Type :=
| Never
| Eps
| Class (p : code_unit -> bool)
| Seq (r s : regex)
| Alt (r s : regex)
| Star (r : regex).

Fixpoint nullable (r : regex) : bool :=
  match r with
  | Never => false
  | Eps => true
  | Class _ => false
  | Seq r s => nullable r && nullable s
  | Alt r s => nullable r || nullable s
  | Star _ => true
  end.

Fixpoint deriv (c : code_unit) (r : regex) : regex :=
  match r with
  | Never => Never
  | Eps => Never
  | Class p => if p c then Eps else Never
  | Seq r s =>
      if nullable r then Alt (Seq (deriv c r) s) (deriv c s)
      else Seq (deriv c r) s
  | Alt r s => Alt (deriv c r) (deriv c s)
  | Star r => Seq (deriv c r) (Star r)
  end.

(** The whole of [s] matches [r]. *)
Definition full_match (r : regex) (s : jsstring) : bool :=
  nullable (fold_left (fun r c => deriv c r) s r).

Definition Chr (c : code_unit) : regex := Class (N.eqb c).
Arguments Chr c%_N.
Definition Plus (r : regex) : regex := Seq r (Star r).
Definition Opt (r : regex) : regex := Alt r Eps.
Fixpoint Word (w : jsstring) : regex :=
  match w with
  | [] => Eps
  | c :: w' => Seq (Chr c) (Word w')
  end.

(** [.] without the [s] flag: any code unit but a line terminator. *)
Definition Dot : regex :=
  Class (fun c => negb ((c =? 10) || (c =? 13) || (c =? 0x2028) || (c =? 0x2029))%N).
Definition AnyUnit : regex := Class (fun _ => true).

(** The three shapes of pattern in the source: [/^r$/], [/^r/] and [/r/]. *)
Inductive RegExp : Type :=
| Anchored (r : regex)
| Prefix (r : regex)
| Search (r : regex).

(** [pattern.test(s)] *)
Definition test (p : RegExp) (s : jsstring) : bool :=
  match p with
  | Anchored r => full_match r s
  | Prefix r => full_match (Seq r (Star AnyUnit)) s
  | Search r => full_match (Seq (Star AnyUnit) (Seq r (Star AnyUnit))) s
  end.

Definition is_digit (c : code_unit) : bool := ((48 <=? c) && (c <=? 57))%N.
Definition is_upper (c : code_unit) : bool := ((65 <=? c) && (c <=? 90))%N.
Definition is_lower (c : code_unit) : bool := ((97 <=? c) && (c <=? 122))%N.
Definition is_alnum (c : code_unit) : bool := is_digit c || is_upper c || is_lower c.

(* ================================================================== *)
(** ** Plain objects used as maps *)
(* ================================================================== *)

(** [string | undefined] *)
Definition value := option jsstring.

(** Own enumerable properties, in creation order. *)
Definition obj := list (jsstring * value).

Definition keys (o : obj) : list jsstring := map fst o.

(** No two own properties share a key, and every string is made of code
    units. *)
Definition wf_value (v : value) : Prop :=
  match v with Some s => wf_string s | None => True end.
Definition wf_obj (o : obj) : Prop :=
  NoDup (keys o) /\ Forall (fun e => wf_string (fst e) /\ wf_value (snd e)) o.

(** [o[k]] for a key that [Object.prototype] does not define. *)
Fixpoint obj_get (o : obj) (k : jsstring) : value :=
  match o with
  | [] => None
  | (k', v) :: r => if str_eqb k' k then v else obj_get r k
  end.

(** [o[k] = v] on an object whose prototype is [Object.prototype]: an own
    property is overwritten in place; a new one is created at the end,
    except for [__proto__], which reaches the inherited setter, and that
    setter ignores a string. *)
Fixpoint obj_set (o : obj) (k : jsstring) (v : jsstring) : obj :=
  match o with
  | [] => if str_eqb k (lit "__proto__") then [] else [(k, Some v)]
  | (k', v') :: r =>
      if str_eqb k' k then (k', Some v) :: r else (k', v') :: obj_set r k v
  end.

(** A key is an array index when it is the canonical decimal form of an
    integer below 2^32 - 1. *)
Definition digits_value (s : jsstring) : N :=
  fold_left (fun acc c => acc * 10 + (c - 48))%N s 0%N.

Definition array_index (k : jsstring) : option N :=
  match k with
  | [] => None
  | c :: r =>
      if forallb is_digit k && (negb (c =? 48)%N || is_empty r)
         && (List.length k <=? 10)%nat && (digits_value k <? 4294967295)%N
      then Some (digits_value k)
      else None
  end.

Fixpoint insert_index (i : N) (e : jsstring * value)
    (l : list (N * (jsstring * value))) : list (N * (jsstring * value)) :=
  match l with
  | [] => [(i, e)]
  | (j, e') :: r =>
      if (i <? j)%N then (i, e) :: l else (j, e') :: insert_index i e r
  end.

Fixpoint index_entries (o : obj) : list (N * (jsstring * value)) :=
  match o with
  | [] => []
  | e :: r =>
      match array_index (fst e) with
      | Some i => insert_index i e (index_entries r)
      | None => index_entries r
      end
  end.

Definition is_named (e : jsstring * value) : bool :=
  match array_index (fst e) with Some _ => false | None => true end.

(** [Object.entries(o)]: array-index keys in ascending order, then the
    other keys in creation order. *)
Definition Object_entries (o : obj) : list (jsstring * value) :=
  map snd (index_entries o) ++ filter is_named o.

(* ================================================================== *)
(** ** UTF-16, UTF-8 and percent-encoding *)
(* ================================================================== *)

Definition is_high_surrogate (c : code_unit) : bool := ((0xD800 <=? c) && (c <=? 0xDBFF))%N.
Definition is_low_surrogate (c : code_unit) : bool := ((0xDC00 <=? c) && (c <=? 0xDFFF))%N.

(** Conversion to a sequence of scalar values, as the platform does for
    every string handed to [URL] or [URLSearchParams]: a surrogate pair is
    one code point, an unpaired surrogate becomes U+FFFD. *)
Fixpoint code_points (s : jsstring) : list N :=
  match s with
  | [] => []
  | c :: r =>
      if is_high_surrogate c then
        match r with
        | d :: r' =>
            if is_low_surrogate d
            then (0x10000 + (c - 0xD800) * 0x400 + (d - 0xDC00))%N :: code_points r'
            else 0xFFFD%N :: code_points r
        | [] => [0xFFFD%N]
        end
      else if is_low_surrogate c then 0xFFFD%N :: code_points r
      else c :: code_points r
  end.

(** No unpaired surrogate. *)
Fixpoint well_formed (s : jsstring) : bool :=
  match s with
  | [] => true
  | c :: r =>
      if is_high_surrogate c then
        match r with
        | d :: r' => is_low_surrogate d && well_formed r'
        | [] => false
        end
      else negb (is_low_surrogate c) && well_formed r
  end.

Definition utf16_units (cp : N) : list code_unit :=
  (if cp <? 0x10000 then [cp]
   else [0xD800 + (cp - 0x10000) / 0x400; 0xDC00 + (cp - 0x10000) mod 0x400])%N.

Definition utf8_bytes (cp : N) : list N :=
  (if cp <? 0x80 then [cp]
   else if cp <? 0x800 then [0xC0 + cp / 64; 0x80 + cp mod 64]
   else if cp <? 0x10000 then
     [0xE0 + cp / 4096; 0x80 + (cp / 64) mod 64; 0x80 + cp mod 64]
   else
     [0xF0 + cp / 262144; 0x80 + (cp / 4096) mod 64;
      0x80 + (cp / 64) mod 64; 0x80 + cp mod 64])%N.

Definition utf8_encode (s : jsstring) : list N :=
  flat_map utf8_bytes (code_points s).

(** The UTF-8 decoder of the Encoding standard: the code point under
    construction, the continuation bytes still needed, and the bounds of
    the next continuation byte. *)
Record utf8_state : Type := {
  utf8_code_point : N;
  utf8_bytes_needed : N;
  utf8_lower_boundary : N;
  utf8_upper_boundary : N
}.

Definition utf8_lead (b : N) : list N * option utf8_state :=
  (if b <=? 0x7F then ([b], None)
   else if (0xC2 <=? b) && (b <=? 0xDF) then
     ([], Some {| utf8_code_point := b mod 32; utf8_bytes_needed := 1;
                  utf8_lower_boundary := 0x80; utf8_upper_boundary := 0xBF |})
   else if (0xE0 <=? b) && (b <=? 0xEF) then
     ([], Some {| utf8_code_point := b mod 16; utf8_bytes_needed := 2;
                  utf8_lower_boundary := if b =? 0xE0 then 0xA0 else 0x80;
                  utf8_upper_boundary := if b =? 0xED then 0x9F else 0xBF |})
   else if (0xF0 <=? b) && (b <=? 0xF4) then
     ([], Some {| utf8_code_point := b mod 8; utf8_bytes_needed := 3;
                  utf8_lower_boundary := if b =? 0xF0 then 0x90 else 0x80;
                  utf8_upper_boundary := if b =? 0xF4 then 0x8F else 0xBF |})
   else ([0xFFFD], None))%N.

Fixpoint utf8_decode_from (st : option utf8_state) (bs : list N) : list N :=
  match bs with
  | [] => match st with None => [] | Some _ => [0xFFFD%N] end
  | b :: r =>
      match st with
      | None =>
          let (out, st') := utf8_lead b in out ++ utf8_decode_from st' r
      | Some s =>
          if ((utf8_lower_boundary s <=? b) && (b <=? utf8_upper_boundary s))%N then
            let cp := (utf8_code_point s * 64 + b mod 64)%N in
            if (utf8_bytes_needed s =? 1)%N then cp :: utf8_decode_from None r
            else utf8_decode_from
                   (Some {| utf8_code_point := cp;
                            utf8_bytes_needed := utf8_bytes_needed s - 1;
                            utf8_lower_boundary := 0x80;
                            utf8_upper_boundary := 0xBF |}) r
          else
            let (out, st') := utf8_lead b in
            0xFFFD%N :: out ++ utf8_decode_from st' r
      end
  end.

(** UTF-8 decode without BOM, delivered as a JavaScript string. *)
Definition utf8_decode (bs : list N) : jsstring :=
  flat_map utf16_units (utf8_decode_from None bs).

Definition hex_digit (n : N) : code_unit := (if n <? 10 then 48 + n else 55 + n)%N.

Definition hex_value (c : code_unit) : option N :=
  (if is_digit c then Some (c - 48)
   else if (65 <=? c) && (c <=? 70) then Some (c - 55)
   else if (97 <=? c) && (c <=? 102) then Some (c - 87)
   else None)%N.

Definition percent_encode_byte (b : N) : jsstring :=
  [37%N; hex_digit (b / 16); hex_digit (b mod 16)].

Fixpoint percent_decode (bs : list N) : list N :=
  match bs with
  | [] => []
  | b :: r =>
      if (b =? 37)%N then
        match r with
        | h :: l :: r' =>
            match hex_value h, hex_value l with
            | Some x, Some y => (16 * x + y)%N :: percent_decode r'
            | _, _ => b :: percent_decode r
            end
        | _ => b :: percent_decode r
        end
      else b :: percent_decode r
  end.

(** *** [application/x-www-form-urlencoded] *)

(** Bytes left as they are: alphanumerics, [*], [-], [.] and [_]. *)
Definition urlencoded_plain (b : N) : bool :=
  (is_alnum b || (b =? 42) || (b =? 45) || (b =? 46) || (b =? 95))%N.

Definition urlencoded_byte (b : N) : jsstring :=
  if (b =? 32)%N then [43%N]
  else if urlencoded_plain b then [b]
  else percent_encode_byte b.

Definition urlencoded_serialize_string (s : jsstring) : jsstring :=
  flat_map urlencoded_byte (utf8_encode s).

(** [URLSearchParams]: the list of name-value pairs. *)
Definition URLSearchParams := list (jsstring * jsstring).

Definition append (ps : URLSearchParams) (k v : jsstring) : URLSearchParams :=
  ps ++ [(k, v)].

Definition serialize_pair (kv : jsstring * jsstring) : jsstring :=
  urlencoded_serialize_string (fst kv) ++ [61%N] ++ urlencoded_serialize_string (snd kv).

(** [params.toString()] *)
Definition toString (ps : URLSearchParams) : jsstring :=
  join [38%N] (map serialize_pair ps).

Fixpoint split_on (sep : N) (s : list N) : list (list N) :=
  match s with
  | [] => [[]]
  | c :: r =>
      if (c =? sep)%N then [] :: split_on sep r
      else match split_on sep r with
           | h :: t => (c :: h) :: t
           | [] => [[c]]
           end
  end.

(** Split at the first [=]; without one the value is empty. *)
Fixpoint name_value (s : list N) : list N * list N :=
  match s with
  | [] => ([], [])
  | c :: r =>
      if (c =? 61)%N then ([], r)
      else let (n, v) := name_value r in (c :: n, v)
  end.

Definition plus_to_space (s : list N) : list N :=
  map (fun c => if (c =? 43)%N then 32%N else c) s.

Definition urlencoded_decode_string (s : list N) : jsstring :=
  utf8_decode (percent_decode (plus_to_space s)).

(** The [application/x-www-form-urlencoded] parser. *)
Definition urlencoded_parse (q : list N) : URLSearchParams :=
  map (fun piece =>
         let (n, v) := name_value piece in
         (urlencoded_decode_string n, urlencoded_decode_string v))
      (filter (fun piece => negb (is_empty piece)) (split_on 38 q)).

(** *** [encodeURIComponent] *)

(** Left as they are: alphanumerics and [- _ . ! ~ * ' ( )]. *)
Definition uri_unreserved (b : N) : bool :=
  (is_alnum b || (b =? 45) || (b =? 95) || (b =? 46) || (b =? 33) || (b =? 126)
   || (b =? 42) || (b =? 39) || (b =? 40) || (b =? 41))%N.

(** [None] is the [URIError] raised on an unpaired surrogate. *)
Definition encodeURIComponent (s : jsstring) : option jsstring :=
  if well_formed s then
    Some (flat_map (fun b => if uri_unreserved b then [b] else percent_encode_byte b)
                   (utf8_encode s))
  else None.

(* ================================================================== *)
(** ** Exceptions *)
(* ================================================================== *)

Inductive exn : Type :=
| Error (message : jsstring)
| TypeError (message : jsstring)
| URIError (message : jsstring).

(** [error.message] *)
Definition message (e : exn) : jsstring :=
  match e with Error m | TypeError m | URIError m => m end.

Inductive result (A : Type) : Type :=
| Return (a : A)
| Throw (e : exn).
Arguments Return {A} a.
Arguments Throw {A} e.

Definition bind {A B} (r : result A) (f : A -> result B) : result B :=
  match r with
  | Return a => f a
  | Throw e => Throw e
  end.

Notation "x <- r ;; k" := (bind r (fun x => k))
  (at level 61, r at next level, right associativity).

(** [try { body } catch (error) { handler }] *)
Definition try_catch {A} (body : result A) (handler : exn -> result A) : result A :=
  match body with
  | Return a => Return a
  | Throw e => handler e
  end.

(** [l.map(f)] when [f] may throw: the elements are visited in order, and
    the first error ends the call. *)
Fixpoint map_result {A B} (f : A -> result B) (l : list A) : result (list B) :=
  match l with
  | [] => Return []
  | x :: r => y <- f x ;; ys <- map_result f r ;; Return (y :: ys)
  end.

(** What the model takes from the JavaScript engine as it is: the verdict
    of the URL parser where its rules are not traced below (a special
    scheme, with its domain and IPv4 rules, and a host in brackets, with
    its IPv6 rules), and the texts of the errors the engine raises. *)
Record Engine : Type := {
  url_accepted : jsstring -> bool;
  invalid_url_message : jsstring;
  uri_malformed_message : jsstring
}.

(* ================================================================== *)
(** ** [URL], for what [parseUpiUri] reads of it *)
(* ================================================================== *)

Record URL : Type := {
  protocol : jsstring;
  hostname : jsstring;
  search : jsstring   (* the query, without its question mark *)
}.

(** [url.searchParams.entries()] *)
Definition searchParams (u : URL) : URLSearchParams := urlencoded_parse (search u).

Fixpoint take_while (p : code_unit -> bool) (s : jsstring) : jsstring :=
  match s with
  | [] => []
  | c :: r => if p c then c :: take_while p r else []
  end.

Fixpoint drop_while (p : code_unit -> bool) (s : jsstring) : jsstring :=
  match s with
  | [] => []
  | c :: r => if p c then drop_while p r else s
  end.

Definition is_c0_or_space (c : code_unit) : bool := (c <=? 32)%N.
Definition is_tab_or_newline (c : code_unit) : bool :=
  ((c =? 9) || (c =? 10) || (c =? 13))%N.
Definition is_alpha (c : code_unit) : bool := is_upper c || is_lower c.
Definition is_scheme_unit (c : code_unit) : bool :=
  (is_alnum c || (c =? 43) || (c =? 45) || (c =? 46))%N.
Definition ascii_lower (c : code_unit) : code_unit :=
  if is_upper c then (c + 32)%N else c.

(** Leading and trailing C0 controls and spaces go, then every tab and
    newline. *)
Definition url_clean (input : jsstring) : jsstring :=
  filter (fun c => negb (is_tab_or_newline c))
         (rev (drop_while is_c0_or_space (rev (drop_while is_c0_or_space input)))).

(** The scheme, in lower case, and what follows its colon. *)
Definition parse_scheme (s : jsstring) : option (jsstring * jsstring) :=
  match s with
  | [] => None
  | c :: _ =>
      if is_alpha c then
        match drop_while is_scheme_unit s with
        | d :: rest =>
            if (d =? 58)%N
            then Some (map ascii_lower (take_while is_scheme_unit s), rest)
            else None
        | [] => None
        end
      else None
  end.

Definition special_schemes : list jsstring :=
  [lit "ftp"; lit "file"; lit "http"; lit "https"; lit "ws"; lit "wss"].

Definition is_special (scheme : jsstring) : bool :=
  existsb (str_eqb scheme) special_schemes.

(** Percent-encoding after UTF-8 encoding, with a set of bytes to escape. *)
Definition utf8_percent_encode (escape : N -> bool) (s : jsstring) : jsstring :=
  flat_map (fun b => if escape b then percent_encode_byte b else [b]) (utf8_encode s).

Definition c0_control_set (b : N) : bool := ((b <=? 0x1F) || (0x7E <? b))%N.
Definition query_set (b : N) : bool :=
  (c0_control_set b || (b =? 32) || (b =? 34) || (b =? 35) || (b =? 60) || (b =? 62))%N.

Definition is_path_end (c : code_unit) : bool := ((c =? 63) || (c =? 35))%N.
Definition is_authority_end (c : code_unit) : bool := ((c =? 47) || is_path_end c)%N.

(** The query of what follows the authority or the scheme: it starts at
    the first question mark that no number sign precedes and stops at the
    next number sign. *)
Definition query_of (rest : jsstring) : jsstring :=
  match drop_while (fun c => negb (is_path_end c)) rest with
  | c :: q =>
      if (c =? 63)%N
      then utf8_percent_encode query_set (take_while (fun c => negb (c =? 35)%N) q)
      else []
  | [] => []
  end.

(** What follows the last [@], when there is one. *)
Fixpoint after_last_at (s : jsstring) : option jsstring :=
  match s with
  | [] => None
  | c :: r =>
      match after_last_at r with
      | Some t => Some t
      | None => if (c =? 64)%N then Some r else None
      end
  end.

(** The host, up to the first colon outside brackets, and the port text
    after that colon. *)
Fixpoint host_split (inside : bool) (s : jsstring) : jsstring * option jsstring :=
  match s with
  | [] => ([], None)
  | c :: r =>
      if (c =? 58)%N && negb inside then ([], Some r)
      else
        let inside' := if (c =? 91)%N then true
                       else if (c =? 93)%N then false else inside in
        let (h, p) := host_split inside' r in (c :: h, p)
  end.

Definition forbidden_host_unit (c : code_unit) : bool :=
  ((c =? 0) || (c =? 9) || (c =? 10) || (c =? 13) || (c =? 32)
   || (c =? 35) || (c =? 47) || (c =? 58) || (c =? 60) || (c =? 62) || (c =? 63)
   || (c =? 64) || (c =? 91) || (c =? 92) || (c =? 93) || (c =? 94) || (c =? 124))%N.

Definition port_ok (p : option jsstring) : bool :=
  match p with
  | None => true
  | Some digits =>
      forallb is_digit digits && (is_empty digits || (digits_value digits <=? 65535)%N)
  end.

Section WithEngine.

Variable engine : Engine.

(** [new URL(input)] without a base.  A URL with a special scheme is left
    to the engine and only its scheme is kept; so is a host in brackets,
    whose serialisation keeps the brackets. *)
Definition new_URL (input : jsstring) : result URL :=
  let invalid := Throw (TypeError (invalid_url_message engine)) in
  match parse_scheme (url_clean input) with
  | None => invalid
  | Some (scheme, rest) =>
      if is_special scheme then
        if url_accepted engine input
        then Return {| protocol := scheme ++ [58%N]; hostname := []; search := [] |}
        else invalid
      else if starts_with [47%N; 47%N] rest then
        let rest' := skipn 2 rest in
        let authority := take_while (fun c => negb (is_authority_end c)) rest' in
        let tail := drop_while (fun c => negb (is_authority_end c)) rest' in
        let host_port :=
          match after_last_at authority with Some t => t | None => authority end in
        let (host, port) := host_split false host_port in
        if match after_last_at authority with Some [] => true | _ => false end
        then invalid
        else if match port with Some _ => is_empty host | None => false end
        then invalid
        else if negb (port_ok port) then invalid
        else if starts_with [91%N] host then
          if url_accepted engine input
          then Return {| protocol := scheme ++ [58%N]; hostname := host;
                         search := query_of tail |}
          else invalid
        else if existsb forbidden_host_unit host then invalid
        else Return {| protocol := scheme ++ [58%N];
                       hostname := utf8_percent_encode c0_control_set host;
                       search := query_of tail |}
      else
        Return {| protocol := scheme ++ [58%N]; hostname := [];
                  search := query_of rest |}
  end.

End WithEngine.

(* ================================================================== *)
(** ** [src/core/params.ts] *)
(* ================================================================== *)

Inductive UpiAction : Type := pay | mandate.

Definition action_name (a : UpiAction) : jsstring :=
  match a with
  | pay => lit "pay"
  | mandate => lit "mandate"
  end.

Record ValidationRule : Type := {
  required : option bool;
  maxLength : option N;
  pattern : option RegExp;
  allowedValues : option (list jsstring);
  description : jsstring
}.

Definition Digit : regex := Class is_digit.

(** [/^[a-zA-Z0-9._-]+@[a-zA-Z0-9.-]+$/] *)
Definition pa_pattern : RegExp :=
  Anchored
    (Seq (Plus (Class (fun c => is_alnum c || (c =? 46) || (c =? 95) || (c =? 45))%N))
         (Seq (Chr 64)
              (Plus (Class (fun c => is_alnum c || (c =? 46) || (c =? 45))%N)))).

(** [/^\d+(\.\d{1,2})?$/] *)
Definition am_pattern : RegExp :=
  Anchored (Seq (Plus Digit) (Opt (Seq (Chr 46) (Seq Digit (Opt Digit))))).

(** [/^[a-zA-Z0-9\-]+$/] *)
Definition tr_pattern : RegExp :=
  Anchored (Plus (Class (fun c => is_alnum c || (c =? 45))%N)).

(** [/^https?:\/\/.+/] *)
Definition url_pattern : RegExp :=
  Prefix (Seq (Word (lit "http"))
              (Seq (Opt (Chr 115)) (Seq (Word (lit "://")) (Plus Dot)))).

(** [/^\d{4}$/] *)
Definition mc_pattern : RegExp :=
  Anchored (Seq Digit (Seq Digit (Seq Digit Digit))).

Definition pa_rule : ValidationRule :=
  {| required := Some true; maxLength := Some 255%N; pattern := Some pa_pattern;
     allowedValues := None; description := lit "Valid VPA format (user@psp)" |}.
Definition pn_rule : ValidationRule :=
  {| required := Some true; maxLength := Some 99%N; pattern := None;
     allowedValues := None; description := lit "Payee name" |}.
Definition am_rule : ValidationRule :=
  {| required := Some false; maxLength := Some 18%N; pattern := Some am_pattern;
     allowedValues := None;
     description := lit "Amount in INR (up to 2 decimal places)" |}.
Definition cu_rule : ValidationRule :=
  {| required := Some false; maxLength := None; pattern := None;
     allowedValues := Some [lit "INR"];
     description := lit "Currency code (must be INR)" |}.
Definition tr_rule : ValidationRule :=
  {| required := Some false; maxLength := Some 35%N; pattern := Some tr_pattern;
     allowedValues := None;
     description := lit "Transaction reference (alphanumeric with hyphens)" |}.
Definition tn_rule : ValidationRule :=
  {| required := Some false; maxLength := Some 100%N; pattern := None;
     allowedValues := None; description := lit "Transaction note" |}.
Definition url_rule : ValidationRule :=
  {| required := Some false; maxLength := Some 200%N; pattern := Some url_pattern;
     allowedValues := None; description := lit "Valid HTTP/HTTPS URL" |}.
Definition mode_rule : ValidationRule :=
  {| required := Some false; maxLength := Some 20%N; pattern := None;
     allowedValues := None; description := lit "Transaction mode" |}.
Definition orgid_rule : ValidationRule :=
  {| required := Some false; maxLength := Some 20%N; pattern := None;
     allowedValues := None; description := lit "Organization ID" |}.
Definition sign_rule : ValidationRule :=
  {| required := Some false; maxLength := Some 500%N; pattern := None;
     allowedValues := None; description := lit "Digital signature" |}.
Definition mc_rule : ValidationRule :=
  {| required := Some false; maxLength := Some 4%N; pattern := Some mc_pattern;
     allowedValues := None;
     description := lit "Merchant Category Code (4 digits)" |}.
Definition tid_rule : ValidationRule :=
  {| required := Some false; maxLength := Some 35%N; pattern := None;
     allowedValues := None; description := lit "Transaction ID" |}.

Definition VALIDATION_RULES : list (jsstring * ValidationRule) :=
  [ (lit "pa", pa_rule); (lit "pn", pn_rule); (lit "am", am_rule);
    (lit "cu", cu_rule); (lit "tr", tr_rule); (lit "tn", tn_rule);
    (lit "url", url_rule); (lit "mode", mode_rule); (lit "orgid", orgid_rule);
    (lit "sign", sign_rule); (lit "mc", mc_rule); (lit "tid", tid_rule) ].

(** [VALIDATION_RULES[key]].  For the names [Object.prototype] defines
    ([constructor], [toString], ...) the source finds an inherited value
    that has none of [maxLength], [pattern] and [allowedValues], and
    copies the parameter as it does when it finds nothing. *)
Fixpoint rule_lookup (rules : list (jsstring * ValidationRule)) (key : jsstring)
    : option ValidationRule :=
  match rules with
  | [] => None
  | (k, r) :: rest => if str_eqb k key then Some r else rule_lookup rest key
  end.

Definition rule_for (key : jsstring) : option ValidationRule :=
  rule_lookup VALIDATION_RULES key.

Record UpiValidationResult : Type := {
  isValid : bool;
  errors : list jsstring;
  normalizedParams : obj
}.

(** The outcome of the three checks of one rule, in the order of the
    source. *)
Inductive check : Type :=
| TooLong (limit : N)
| BadFormat
| NotAllowed (allowed : list jsstring)
| Passes.

(** [rule.maxLength && stringValue.length > rule.maxLength] *)
Definition exceeds_maxLength (rule : ValidationRule) (stringValue : jsstring) : option N :=
  match maxLength rule with
  | Some m => if negb (m =? 0)%N && (m <? str_length stringValue)%N then Some m else None
  | None => None
  end.

(** [rule.pattern && !rule.pattern.test(stringValue)] *)
Definition fails_pattern (rule : ValidationRule) (stringValue : jsstring) : bool :=
  match pattern rule with
  | Some p => negb (test p stringValue)
  | None => false
  end.

(** [rule.allowedValues && !rule.allowedValues.includes(stringValue)] *)
Definition outside_allowedValues (rule : ValidationRule) (stringValue : jsstring)
    : option (list jsstring) :=
  match allowedValues rule with
  | Some vs => if negb (existsb (str_eqb stringValue) vs) then Some vs else None
  | None => None
  end.

Definition check_rule (rule : ValidationRule) (stringValue : jsstring) : check :=
  match exceeds_maxLength rule stringValue with
  | Some m => TooLong m
  | None =>
      if fails_pattern rule stringValue then BadFormat
      else
        match outside_allowedValues rule stringValue with
        | Some vs => NotAllowed vs
        | None => Passes
        end
  end.

(** The message pushed for a failed check. *)
Definition check_message (key : jsstring) (rule : ValidationRule) (c : check)
    : option jsstring :=
  match c with
  | TooLong m =>
      Some (key ++ lit ": exceeds maximum length of " ++ decimal m ++ lit " characters")
  | BadFormat => Some (key ++ lit ": invalid format. " ++ description rule)
  | NotAllowed vs => Some (key ++ lit ": must be one of " ++ join (lit ", ") vs)
  | Passes => None
  end.

(** [!params[key] || typeof params[key] !== 'string' || params[key].trim() === ''] *)
Definition missing (params : obj) (key : jsstring) : bool :=
  match obj_get params key with
  | None => true
  | Some v => is_empty v || is_empty (trim v)
  end.

(** One turn of the loop over [Object.entries(params)]; the state is the
    pair of [errors] and [normalizedParams]. *)
Definition validate_entry (st : list jsstring * obj) (entry : jsstring * value)
    : list jsstring * obj :=
  let (errors, normalizedParams) := st in
  let (key, value) := entry in
  match value with
  | None => st
  | Some v =>
      if is_empty v then st
      else
        let stringValue := trim v in
        if is_empty stringValue then st
        else
          match rule_for key with
          | Some rule =>
              match check_message key rule (check_rule rule stringValue) with
              | Some text => (errors ++ [text], normalizedParams)
              | None => (errors, obj_set normalizedParams key stringValue)
              end
          | None => (errors, obj_set normalizedParams key stringValue)
          end
  end.

Definition validateUpiParams (params : obj) : UpiValidationResult :=
  let errors : list jsstring := [] in
  let errors :=
    if missing params (lit "pa")
    then errors ++ [lit "Payee Address (pa) is required"] else errors in
  let errors :=
    if missing params (lit "pn")
    then errors ++ [lit "Payee Name (pn) is required"] else errors in
  let (errors, normalizedParams) :=
    fold_left validate_entry (Object_entries params) (errors, []) in
  let normalizedParams :=
    if truthy (obj_get normalizedParams (lit "am"))
       && negb (truthy (obj_get normalizedParams (lit "cu")))
    then obj_set normalizedParams (lit "cu") (lit "INR")
    else normalizedParams in
  {| isValid := is_empty_list errors;
     errors := errors;
     normalizedParams := normalizedParams |}.

Definition orderedKeys : list jsstring :=
  [lit "pa"; lit "pn"; lit "am"; lit "cu"; lit "tr"; lit "tn"; lit "url";
   lit "mode"; lit "orgid"; lit "mc"; lit "tid"; lit "sign"].

(** The loop over [orderedKeys]. *)
Definition append_ordered (normalized : obj) (queryParams : URLSearchParams)
    (key : jsstring) : URLSearchParams :=
  match obj_get normalized key with
  | Some v => if is_empty v then queryParams else append queryParams key v
  | None => queryParams
  end.

(** The loop over [Object.entries(validation.normalizedParams)]. *)
Definition append_additional (queryParams : URLSearchParams)
    (entry : jsstring * value) : URLSearchParams :=
  let (key, value) := entry in
  match value with
  | Some v =>
      if negb (existsb (str_eqb key) orderedKeys) && negb (is_empty v)
      then append queryParams key v
      else queryParams
  | None => queryParams
  end.

Definition build_query (normalized : obj) : URLSearchParams :=
  fold_left append_additional (Object_entries normalized)
            (fold_left (append_ordered normalized) orderedKeys []).

Definition buildUpiUri (params : obj) (action : UpiAction) : result jsstring :=
  let validation := validateUpiParams params in
  if negb (isValid validation) then
    Throw (Error (lit "Invalid UPI parameters: " ++ join (lit ", ") (errors validation)))
  else
    let queryString := toString (build_query (normalizedParams validation)) in
    Return (lit "upi://" ++ action_name action
            ++ (if is_empty queryString then [] else lit "?" ++ queryString)).

Module Parsed.
Record t : Type := { action : UpiAction; params : obj }.
End Parsed.

(** [url.hostname] compared with the two action names. *)
Definition action_of (host : jsstring) : option UpiAction :=
  if str_eqb host (lit "pay") then Some pay
  else if str_eqb host (lit "mandate") then Some mandate
  else None.

Definition quote : jsstring := [34%N].

Section ParseUri.

Variable engine : Engine.

Definition parseUpiUri (upiUri : jsstring) : result Parsed.t :=
  try_catch
    (url <- new_URL engine upiUri ;;
     if negb (str_eqb (protocol url) (lit "upi:")) then
       Throw (Error (lit "Invalid UPI URI: must start with upi://"))
     else
       match action_of (hostname url) with
       | None =>
           Throw (Error (lit "Invalid UPI action: must be " ++ quote ++ lit "pay"
                         ++ quote ++ lit " or " ++ quote ++ lit "mandate" ++ quote))
       | Some action =>
           let params :=
             fold_left (fun (o : obj) kv => obj_set o (fst kv) (snd kv))
                       (searchParams url) [] in
           let validation := validateUpiParams params in
           if negb (isValid validation) then
             Throw (Error (lit "Invalid UPI parameters: "
                           ++ join (lit ", ") (errors validation)))
           else
             Return {| Parsed.action := action;
                       Parsed.params := normalizedParams validation |}
       end)
    (fun error => Throw error).

End ParseUri.

(** [createPaymentUri(payeeAddress, payeeName, amount?, note?)]: the object
    literal holds [pa], [pn] and [cu]; [am] and [tn] are assigned after it
    when the argument is truthy. *)
Definition createPaymentUri (payeeAddress payeeName : jsstring)
    (amount note : option jsstring) : result jsstring :=
  let params : obj :=
    [(lit "pa", Some payeeAddress); (lit "pn", Some payeeName);
     (lit "cu", Some (lit "INR"))] in
  let params :=
    match amount with
    | Some (c :: r) => obj_set params (lit "am") (c :: r)
    | _ => params
    end in
  let params :=
    match note with
    | Some (c :: r) => obj_set params (lit "tn") (c :: r)
    | _ => params
    end in
  buildUpiUri params pay.

(** [createMandateUri(payeeAddress, payeeName, amount?, note?, transactionRef?)] *)
Definition createMandateUri (payeeAddress payeeName : jsstring)
    (amount note transactionRef : option jsstring) : result jsstring :=
  let params : obj :=
    [(lit "pa", Some payeeAddress); (lit "pn", Some payeeName);
     (lit "cu", Some (lit "INR"))] in
  let params :=
    match amount with
    | Some (c :: r) => obj_set params (lit "am") (c :: r)
    | _ => params
    end in
  let params :=
    match note with
    | Some (c :: r) => obj_set params (lit "tn") (c :: r)
    | _ => params
    end in
  let params :=
    match transactionRef with
    | Some (c :: r) => obj_set params (lit "tr") (c :: r)
    | _ => params
    end in
  buildUpiUri params mandate.

(* ================================================================== *)
(** ** [src/data/registry.ts] *)
(* ================================================================== *)

Definition UpiAppId := jsstring.

Inductive Platform : Type := android | ios.

Inductive VerificationStatus : Type := verified | community_observed.

Module Templates.
Record t : Type := { pay : jsstring; mandate : jsstring }.
End Templates.

Module Stores.
Record t : Type := { play : option jsstring; app : option jsstring }.
End Stores.

Module Verification.
Record t : Type := {
    status : VerificationStatus;
    sources : list jsstring;
    notes : option jsstring
}.
End Verification.

Module UpiApp.
Record t : Type := {
    id : UpiAppId;
    label : jsstring;
    androidPackage : option jsstring;
    android : Templates.t;
    ios : Templates.t;
    stores : option Stores.t;
    iconSvg : jsstring;
    verification : Verification.t
}.
End UpiApp.

Definition status_eqb (a b : VerificationStatus) : bool :=
  match a, b with
  | verified, verified | community_observed, community_observed => true
  | _, _ => false
  end.

(** An object, as opposed to [undefined] or a string, is truthy. *)
Definition truthy_object {A} (o : A) : bool := true.

(** [new Set(l)], as the list of its values in insertion order, which is
    what spreading the set gives: a value already present is not added
    again. *)
Definition Set_add (s : list jsstring) (x : jsstring) : list jsstring :=
  if existsb (str_eqb x) s then s else s ++ [x].

Definition new_Set (l : list jsstring) : list jsstring := fold_left Set_add l [].

Section Registry.

(** The content of [apps.json], which the registry loads. *)
Variable appsData : list UpiApp.t.

Definition getAllApps : list UpiApp.t := appsData.

Definition getApp (appId : UpiAppId) : option UpiApp.t :=
  find (fun app => str_eqb (UpiApp.id app) appId) getAllApps.

(** [app[platform][action]] *)
Definition getAppLinkTemplate (appId : UpiAppId) (platform : Platform)
    (action : UpiAction) : option jsstring :=
  match getApp appId with
  | None => None
  | Some app =>
      let templates :=
        match platform with
        | android => UpiApp.android app
        | ios => UpiApp.ios app
        end in
      Some (match action with
            | pay => Templates.pay templates
            | mandate => Templates.mandate templates
            end)
  end.

Definition getStoreUrl (appId : UpiAppId) (platform : Platform) : option jsstring :=
  match getApp appId with
  | None => None
  | Some app =>
      match UpiApp.stores app with
      | None => None
      | Some stores =>
          match platform with
          | android => Stores.play stores
          | ios => Stores.app stores
          end
      end
  end.

Definition getVerifiedApps : list UpiApp.t :=
  filter (fun app => status_eqb (Verification.status (UpiApp.verification app)) verified)
         getAllApps.

(** The filter returns [app.androidPackage || app.android] for Android and
    [app.ios] for iOS. *)
Definition getAppsForPlatform (platform : Platform) : list UpiApp.t :=
  filter (fun app =>
            match platform with
            | android =>
                truthy (UpiApp.androidPackage app) || truthy_object (UpiApp.android app)
            | ios => truthy_object (UpiApp.ios app)
            end)
         getAllApps.

Definition isAppVerified (appId : UpiAppId) : bool :=
  match getApp appId with
  | Some app => status_eqb (Verification.status (UpiApp.verification app)) verified
  | None => false
  end.

Definition getAllAppIds : list UpiAppId := map UpiApp.id getAllApps.

Definition getVerifiedAppIds : list UpiAppId := map UpiApp.id getVerifiedApps.

Definition getDefaultAppIds : list UpiAppId :=
  let verified := getVerifiedAppIds in
  let popular := [lit "gpay"; lit "phonepe"; lit "paytm"; lit "bhim"] in
  let defaultApps := new_Set (verified ++ popular) in
  let withoutGeneric :=
    filter (fun id => negb (str_eqb id (lit "generic"))) defaultApps in
  let hasGeneric := existsb (str_eqb (lit "generic")) defaultApps in
  if hasGeneric then withoutGeneric ++ [lit "generic"] else withoutGeneric.

End Registry.

(* ================================================================== *)
(** ** [src/core/linkers.ts] *)
(* ================================================================== *)

Module Options.
Record t : Type := {
    appId : UpiAppId;
    upiUri : option jsstring;
    upiParams : option obj;
    platform : Platform;
    action : option UpiAction;
    fallbackUrl : option jsstring;
    includeFallback : option bool
}.
End Options.

Module AppInfo.
Record t : Type := { id : UpiAppId; label : jsstring; verified : bool }.
End AppInfo.

Module Link.
Record t : Type := {
    url : jsstring;
    fallbackUrl : option jsstring;
    app : AppInfo.t;
    platform : Platform;
    action : UpiAction
}.
End Link.

(** A default value of a destructured option. *)
Definition default {A} (d : A) (o : option A) : A :=
  match o with Some a => a | None => d end.

(** [/iphone|ipad|ipod/] *)
Definition ios_pattern : RegExp :=
  Search (Alt (Word (lit "iphone")) (Alt (Word (lit "ipad")) (Word (lit "ipod")))).

(** [/android/], [/chrome|chromium/] and [/crios/] *)
Definition android_pattern : RegExp := Search (Word (lit "android")).
Definition chrome_pattern : RegExp :=
  Search (Alt (Word (lit "chrome")) (Word (lit "chromium"))).
Definition crios_pattern : RegExp := Search (Word (lit "crios")).

(** [navigator] is [None] where the global is not defined; otherwise it
    carries [navigator.userAgent]. *)
Definition detectPlatform (navigator : option jsstring) : Platform :=
  match navigator with
  | None => android
  | Some ua =>
      let userAgent := toLowerCase ua in
      if test ios_pattern userAgent then ios else android
  end.

Definition supportsIntentUrls (navigator : option jsstring) : bool :=
  match navigator with
  | None => false
  | Some ua =>
      let userAgent := toLowerCase ua in
      test android_pattern userAgent
      && (test chrome_pattern userAgent || test crios_pattern userAgent)
  end.

(** The first occurrence of [pat] in [s]: what precedes and what follows. *)
Fixpoint find_first (pat s : jsstring) : option (jsstring * jsstring) :=
  if starts_with pat s then Some ([], skipn (List.length pat) s)
  else
    match s with
    | [] => None
    | c :: r =>
        match find_first pat r with
        | Some (before, after) => Some (c :: before, after)
        | None => None
        end
    end.

(** The replacement text of [String.prototype.replace] for a string
    pattern: [$$], [$&], [$`] and [$'] are expanded, and with no capture
    group every other [$] stands for itself. *)
Fixpoint get_substitution (matched before after replacement : jsstring) : jsstring :=
  match replacement with
  | [] => []
  | c :: r =>
      if (c =? 36)%N then
        match r with
        | d :: r' =>
            if (d =? 36)%N then 36%N :: get_substitution matched before after r'
            else if (d =? 38)%N then matched ++ get_substitution matched before after r'
            else if (d =? 96)%N then before ++ get_substitution matched before after r'
            else if (d =? 39)%N then after ++ get_substitution matched before after r'
            else c :: get_substitution matched before after r
        | [] => [c]
        end
      else c :: get_substitution matched before after r
  end.

(** [s.replace(pat, replacement)] with a string pattern. *)
Definition replace (s pat replacement : jsstring) : jsstring :=
  match find_first pat s with
  | None => s
  | Some (before, after) =>
      before ++ get_substitution pat before after replacement ++ after
  end.

Section Linkers.

Variable engine : Engine.
Variable appsData : list UpiApp.t.

Definition buildAndroidIntentUrl (appId : UpiAppId) (upiQuery : jsstring)
    (action : UpiAction) (fallbackUrl : option jsstring) : result jsstring :=
  let app := getApp appsData appId in
  let androidPackage :=   (* app?.androidPackage *)
    match app with
    | Some a => UpiApp.androidPackage a
    | None => None
    end in
  if negb (truthy androidPackage)
  then Return (lit "upi://" ++ action_name action ++ lit "?" ++ upiQuery)
  else
    let package := default [] androidPackage in
    let intentUrl :=
      lit "intent://" ++ action_name action ++ lit "?" ++ upiQuery
      ++ lit "#Intent;scheme=upi;package=" ++ package in
    intentUrl <-
      (match fallbackUrl with
       | Some (c :: f) =>
           match encodeURIComponent (c :: f) with
           | Some encodedFallback =>
               Return (intentUrl ++ lit ";S.browser_fallback_url=" ++ encodedFallback)
           | None => Throw (URIError (uri_malformed_message engine))
           end
       | _ => Return intentUrl
       end) ;;
    Return (intentUrl ++ lit ";end").

Definition buildIosSchemeUrl (appId : UpiAppId) (upiQuery : jsstring)
    (action : UpiAction) : jsstring :=
  let template := getAppLinkTemplate appsData appId ios action in
  match template with
  | Some (c :: t) => replace (c :: t) (lit "{query}") upiQuery
  | _ => lit "upi://" ++ action_name action ++ lit "?" ++ upiQuery
  end.

(** The loop of [extractQueryFromUri] over [Object.entries(parsed.params)]. *)
Definition append_entry (ps : URLSearchParams) (entry : jsstring * value)
    : URLSearchParams :=
  match snd entry with
  | Some v => if is_empty v then ps else append ps (fst entry) v
  | None => ps
  end.

Definition extractQueryFromUri (upiUri : jsstring) : result jsstring :=
  try_catch
    (parsed <- parseUpiUri engine upiUri ;;
     let params := fold_left append_entry (Object_entries (Parsed.params parsed)) [] in
     Return (toString params))
    (fun error => Throw (Error (lit "Invalid UPI URI: " ++ message error))).

Definition buildAppLink (options : Options.t) : result Link.t :=
  let appId := Options.appId options in
  let upiUri := Options.upiUri options in
  let upiParams := Options.upiParams options in
  let platform := Options.platform options in
  let action := default pay (Options.action options) in
  let fallbackUrl := Options.fallbackUrl options in
  let includeFallback := default true (Options.includeFallback options) in
  if negb (truthy upiUri) && negb (match upiParams with Some _ => true | None => false end)
  then Throw (Error (lit "Either upiUri or upiParams must be provided"))
  else
    match getApp appsData appId with
    | None => Throw (Error (lit "Unknown app ID: " ++ appId))
    | Some app =>
        baseUri <-
          (if truthy upiUri then Return (default [] upiUri)
           else
             match upiParams with
             | Some ps => buildUpiUri ps action
             | None => Throw (Error (lit "Either upiUri or upiParams must be provided"))
             end) ;;
        upiQuery <- extractQueryFromUri baseUri ;;
        link <-
          (match platform with
           | android =>
               let resolvedFallbackUrl :=
                 if includeFallback
                 then js_or fallbackUrl (getStoreUrl appsData appId android)
                 else None in
               url <- buildAndroidIntentUrl appId upiQuery action resolvedFallbackUrl ;;
               Return (url, resolvedFallbackUrl)
           | ios =>
               let url := buildIosSchemeUrl appId upiQuery action in
               Return (url, js_or fallbackUrl (getStoreUrl appsData appId ios))
           end) ;;
        Return {| Link.url := fst link;
                  Link.fallbackUrl := snd link;
                  Link.app :=
                    {| AppInfo.id := appId;
                       AppInfo.label := UpiApp.label app;
                       AppInfo.verified :=
                         status_eqb (Verification.status (UpiApp.verification app))
                                    verified |};
                  Link.platform := platform;
                  Link.action := action |}
    end.

(** [appIds.map(appId => buildAppLink({appId, upiUri, platform, action}))];
    [navigator] is the global that [detectPlatform] reads. *)
Definition buildMultipleAppLinks (navigator : option jsstring) (upiUri : jsstring)
    (appIds : list UpiAppId) (platform : option Platform) (action : option UpiAction)
    : result (list Link.t) :=
  let action := default pay action in
  let targetPlatform :=   (* platform || detectPlatform() *)
    match platform with
    | Some p => p
    | None => detectPlatform navigator
    end in
  map_result
    (fun appId =>
       buildAppLink {| Options.appId := appId;
                       Options.upiUri := Some upiUri;
                       Options.upiParams := None;
                       Options.platform := targetPlatform;
                       Options.action := Some action;
                       Options.fallbackUrl := None;
                       Options.includeFallback := None |})
    appIds.

End Linkers.

Definition buildGenericUpiLink (upiParams : obj) (action : option UpiAction)
    : result jsstring :=
  buildUpiUri upiParams (default pay action).

Module Recommendation.
Inductive t : Type := intent | scheme | generic.
End Recommendation.

Module Strategy.
Record t : Type := {
    platform : Platform;
    supportsIntent : bool;
    recommendation : Recommendation.t
}.
End Strategy.

Definition platform_eqb (a b : Platform) : bool :=
  match a, b with
  | android, android | ios, ios => true
  | _, _ => false
  end.

Definition getBestLinkStrategy (navigator : option jsstring) : Strategy.t :=
  let platform := detectPlatform navigator in
  let supportsIntent := supportsIntentUrls navigator in
  let recommendation :=
    if platform_eqb platform android && supportsIntent then Recommendation.intent
    else if platform_eqb platform ios then Recommendation.scheme
    else Recommendation.generic in
  {| Strategy.platform := platform;
     Strategy.supportsIntent := supportsIntent;
     Strategy.recommendation := recommendation |}.

(* ================================================================== *)
(** ** Vocabulary of the statements *)
(* ================================================================== *)

(** The words a regular expression denotes. *)
Inductive matches : regex -> jsstring -> Prop :=
| m_eps : matches Eps []
| m_class : forall (p : code_unit -> bool) c, p c = true -> matches (Class p) [c]
| m_seq : forall r s u v, matches r u -> matches s v -> matches (Seq r s) (u ++ v)
| m_alt_l : forall r s u, matches r u -> matches (Alt r s) u
| m_alt_r : forall r s u, matches s u -> matches (Alt r s) u
| m_star_nil : forall r, matches (Star r) []
| m_star_cons : forall r u v,
    matches r u -> matches (Star r) v -> matches (Star r) (u ++ v).

(** A user agent that names both an iPhone and Android with Chrome. *)
Definition mixed_user_agent : jsstring :=
  lit "Mozilla/5.0 (iPhone; CPU iPhone OS 14_0 like Mac OS X) Android Chrome/91.0".

(** Chrome on an iPhone, from the test suite. *)
Definition ios_chrome_user_agent : jsstring :=
  lit "Mozilla/5.0 (iPhone; CPU iPhone OS 14_0 like Mac OS X) CriOS/91.0.4472.80".

(** *** The loop of [validateUpiParams], entry by entry *)

(** No check of the rule of [key] fails on [stringValue]. *)
Definition accepted (key stringValue : jsstring) : bool :=
  match rule_for key with
  | Some rule =>
      match check_rule rule stringValue with
      | Passes => true
      | _ => false
      end
  | None => true
  end.

(** The value an entry leaves in [normalizedParams], when it leaves one. *)
Definition entry_value (key : jsstring) (v : value) : option jsstring :=
  match v with
  | None => None
  | Some s =>
      if is_empty s then None
      else if is_empty (trim s) then None
      else if accepted key (trim s) then Some (trim s) else None
  end.

(** The messages an entry pushes: none or one. *)
Definition entry_errors (entry : jsstring * value) : list jsstring :=
  match snd entry with
  | None => []
  | Some s =>
      if is_empty s then []
      else if is_empty (trim s) then []
      else
        match rule_for (fst entry) with
        | Some rule =>
            match check_message (fst entry) rule (check_rule rule (trim s)) with
            | Some text => [text]
            | None => []
            end
        | None => []
        end
  end.

Definition store_entry (n : obj) (entry : jsstring * value) : obj :=
  match entry_value (fst entry) (snd entry) with
  | Some v => obj_set n (fst entry) v
  | None => n
  end.

(** The two messages of the presence checks. *)
Definition required_errors (params : obj) : list jsstring :=
  (if missing params (lit "pa") then [lit "Payee Address (pa) is required"] else [])
  ++ (if missing params (lit "pn") then [lit "Payee Name (pn) is required"] else []).

(** The default-currency step. *)
Definition inject_currency (n : obj) : obj :=
  if truthy (obj_get n (lit "am")) && negb (truthy (obj_get n (lit "cu")))
  then obj_set n (lit "cu") (lit "INR")
  else n.

Definition proto : jsstring := lit "__proto__".

(** [normalizedParams] when the loop ends, before the default currency. *)
Definition normalized_core (params : obj) : obj :=
  fold_left store_entry (Object_entries params) [].

(** Decidable form of [wf_obj]. *)
Fixpoint distinct (l : list jsstring) : bool :=
  match l with
  | [] => true
  | k :: r => negb (existsb (str_eqb k) r) && distinct r
  end.

Definition wf_valueb (v : value) : bool :=
  match v with Some s => wf_stringb s | None => true end.

Definition wf_objb (o : obj) : bool :=
  distinct (keys o) && forallb (fun e => wf_stringb (fst e) && wf_valueb (snd e)) o.

(** A parameter set whose amount is not a number. *)
Definition params_bad_amount : obj :=
  [(lit "pa", Some (lit "test@upi")); (lit "pn", Some (lit "Test User"));
   (lit "am", Some (lit "invalid-amount"))].

(** A parameter set with an amount and no currency, from the test suite. *)
Definition params_with_amount : obj :=
  [(lit "pa", Some (lit "test@upi")); (lit "pn", Some (lit "Test User"));
   (lit "am", Some (lit "100"))].

(** A parameter set with an amount and a currency that is not allowed. *)
Definition params_bad_currency : obj :=
  [(lit "pa", Some (lit "test@upi")); (lit "pn", Some (lit "Test User"));
   (lit "am", Some (lit "100")); (lit "cu", Some (lit "USD"))].

(** A Unicode scalar value: a code point that is not a surrogate. *)
Definition scalar (cp : N) : Prop :=
  (cp < 0x110000 /\ ~ (0xD800 <= cp <= 0xDFFF))%N.

(** A string of text: made of code units, with no unpaired surrogate. *)
Definition text (s : jsstring) : Prop := wf_string s /\ well_formed s = true.
Definition textb (s : jsstring) : bool := wf_stringb s && well_formed s.

(** What [URLSearchParams.toString] writes for a name or a value:
    unreserved bytes, [+] and percent escapes. *)
Definition urlencoded_unit (c : code_unit) : bool :=
  (urlencoded_plain c || (c =? 43) || (c =? 37))%N.

(** What [URLSearchParams.toString] writes: names and values, [=] and [&]. *)
Definition query_unit (c : code_unit) : bool :=
  (urlencoded_unit c || (c =? 61) || (c =? 38))%N.

(** Names and values that are text. *)
Definition text_pairs (ps : URLSearchParams) : Prop :=
  Forall (fun kv => text (fst kv) /\ text (snd kv)) ps.

(** A value as [validateUpiParams] leaves it under a key: not empty,
    trimmed, and accepted by the rule of the key. *)
Definition settled (k v : jsstring) : Prop :=
  is_empty v = false /\ trim v = v /\ accepted k v = true.

Definition text_value (v : value) : Prop :=
  match v with Some s => text s | None => True end.

(** An object of text: distinct keys, and keys and values without an
    unpaired surrogate. *)
Definition text_obj (o : obj) : Prop :=
  NoDup (keys o) /\ Forall (fun e => text (fst e) /\ text_value (snd e)) o.

Definition text_valueb (v : value) : bool :=
  match v with Some s => textb s | None => true end.
Definition text_objb (o : obj) : bool :=
  distinct (keys o) && forallb (fun e => textb (fst e) && text_valueb (snd e)) o.

(** An entry of [normalizedParams]. *)
Definition clean_entry (e : jsstring * value) : Prop :=
  exists v, snd e = Some v /\ settled (fst e) v /\ text (fst e) /\ text v.

(** The properties of an object, read from a list of pairs. *)
Definition as_obj (ps : URLSearchParams) : obj :=
  map (fun kv => (fst kv, Some (snd kv))) ps.

(** The query that [buildUpiUri] writes for a valid parameter set. *)
Definition canonical_query (ps : URLSearchParams) : Prop :=
  NoDup (map fst ps) /\
  ~ In proto (map fst ps) /\
  Forall clean_entry (as_obj ps) /\
  In (lit "pa") (map fst ps) /\
  In (lit "pn") (map fst ps) /\
  (In (lit "am") (map fst ps) -> In (lit "cu") (map fst ps)).

(** The pairs [buildUpiUri] emits for the keys of [orderedKeys], and those
    it emits for the other keys. *)
Definition ordered_pairs (normalized : obj) : URLSearchParams :=
  flat_map (fun key =>
              match obj_get normalized key with
              | Some v => if is_empty v then [] else [(key, v)]
              | None => []
              end) orderedKeys.

Definition additional_pairs (normalized : obj) : URLSearchParams :=
  flat_map (fun entry : jsstring * value =>
              match snd entry with
              | Some v =>
                  if negb (existsb (str_eqb (fst entry)) orderedKeys) && negb (is_empty v)
                  then [(fst entry, v)] else []
              | None => []
              end) (Object_entries normalized).

(** An engine for the examples: it accepts every URL left to it, and its
    error texts are those of Node.js. *)
Definition node_engine : Engine :=
  {| url_accepted := fun _ => true;
     invalid_url_message := lit "Invalid URL";
     uri_malformed_message := lit "URI malformed" |}.

(** Two entries of a registry for the examples, with the data the test
    suite expects of Google Pay and of the generic entry; [apps.json]
    itself is not among the sources. *)
Definition gpay_app : UpiApp.t :=
  {| UpiApp.id := lit "gpay";
     UpiApp.label := lit "Google Pay";
     UpiApp.androidPackage := Some (lit "com.google.android.apps.nbu.paisa.user");
     UpiApp.android :=
       {| Templates.pay := lit "upi://pay?{query}";
          Templates.mandate := lit "upi://mandate?{query}" |};
     UpiApp.ios :=
       {| Templates.pay := lit "gpay://upi/pay?{query}";
          Templates.mandate := lit "gpay://upi/mandate?{query}" |};
     UpiApp.stores :=
       Some {| Stores.play :=
                 Some (lit "https://play.google.com/store/apps/details?id=com.google.android.apps.nbu.paisa.user");
               Stores.app :=
                 Some (lit "https://apps.apple.com/in/app/google-pay-save-pay-manage/id1193357041") |};
     UpiApp.iconSvg := [];
     UpiApp.verification :=
       {| Verification.status := verified;
          Verification.sources := [];
          Verification.notes := None |} |}.

Definition generic_app : UpiApp.t :=
  {| UpiApp.id := lit "generic";
     UpiApp.label := lit "Any UPI App";
     UpiApp.androidPackage := None;
     UpiApp.android :=
       {| Templates.pay := lit "upi://pay?{query}";
          Templates.mandate := lit "upi://mandate?{query}" |};
     UpiApp.ios :=
       {| Templates.pay := lit "upi://pay?{query}";
          Templates.mandate := lit "upi://mandate?{query}" |};
     UpiApp.stores := None;
     UpiApp.iconSvg := [];
     UpiApp.verification :=
       {| Verification.status := verified;
          Verification.sources := [];
          Verification.notes := None |} |}.

Definition sample_apps : list UpiApp.t := [gpay_app; generic_app].

(** The URI of the link tests. *)
Definition testUpiUri : jsstring :=
  lit "upi://pay?pa=test%40upi&pn=Test+User&am=100&cu=INR".

(** The two required parameters, from the test suite. *)
Definition params_basic : obj :=
  [(lit "pa", Some (lit "test@upi")); (lit "pn", Some (lit "Test User"))].

(** A payee name with an unpaired surrogate. *)
Definition params_lone_surrogate : obj :=
  [(lit "pa", Some (lit "test@upi")); (lit "pn", Some [0xD800%N])].

(** A payee name with a leading space. *)
Definition params_padded : obj :=
  [(lit "pa", Some (lit "test@upi")); (lit "pn", Some (lit " Test User"))].

(** A valid URI whose [@] is not escaped. *)
Definition plain_at_uri : jsstring := lit "upi://pay?pa=test@upi&pn=Test".

(** The first half of [buildAppLink]: the base URI, and its query. *)
Definition base_uri (options : Options.t) : result jsstring :=
  if truthy (Options.upiUri options) then Return (default [] (Options.upiUri options))
  else
    match Options.upiParams options with
    | Some ps => buildUpiUri ps (default pay (Options.action options))
    | None => Throw (Error (lit "Either upiUri or upiParams must be provided"))
    end.

Definition upi_query (engine : Engine) (options : Options.t) : result jsstring :=
  baseUri <- base_uri options ;; extractQueryFromUri engine baseUri.

(** The fallback [buildAppLink] resolves. *)
Definition resolved_fallback (appsData : list UpiApp.t) (options : Options.t)
    : option jsstring :=
  match Options.platform options with
  | android =>
      if default true (Options.includeFallback options)
      then js_or (Options.fallbackUrl options)
                 (getStoreUrl appsData (Options.appId options) android)
      else None
  | ios =>
      js_or (Options.fallbackUrl options)
            (getStoreUrl appsData (Options.appId options) ios)
  end.

Definition app_info (appId : UpiAppId) (app : UpiApp.t) : AppInfo.t :=
  {| AppInfo.id := appId;
     AppInfo.label := UpiApp.label app;
     AppInfo.verified :=
       status_eqb (Verification.status (UpiApp.verification app)) verified |}.

(** [options] with other parameters, and with another fallback switch. *)
Definition with_upiParams (options : Options.t) (ps : option obj) : Options.t :=
  {| Options.appId := Options.appId options;
     Options.upiUri := Options.upiUri options;
     Options.upiParams := ps;
     Options.platform := Options.platform options;
     Options.action := Options.action options;
     Options.fallbackUrl := Options.fallbackUrl options;
     Options.includeFallback := Options.includeFallback options |}.

Definition with_includeFallback (options : Options.t) (b : option bool) : Options.t :=
  {| Options.appId := Options.appId options;
     Options.upiUri := Options.upiUri options;
     Options.upiParams := Options.upiParams options;
     Options.platform := Options.platform options;
     Options.action := Options.action options;
     Options.fallbackUrl := Options.fallbackUrl options;
     Options.includeFallback := b |}.

(** The options of the link tests. *)
Definition link_options (appId : UpiAppId) (upiUri : jsstring) (platform : Platform)
    : Options.t :=
  {| Options.appId := appId;
     Options.upiUri := Some upiUri;
     Options.upiParams := None;
     Options.platform := platform;
     Options.action := None;
     Options.fallbackUrl := None;
     Options.includeFallback := None |}.

(** The object [parseUpiUri] fills from the decoded query. *)
Definition decoded_params (url : URL) : obj :=
  fold_left (fun (o : obj) kv => obj_set o (fst kv) (snd kv)) (searchParams url) [].

(** A URI with an amount and no currency. *)
Definition amount_only_uri : jsstring := lit "upi://pay?pa=test%40upi&pn=Test&am=100".

(** Options with both a URI and parameters. *)
Definition both_options : Options.t :=
  {| Options.appId := lit "gpay";
     Options.upiUri := Some testUpiUri;
     Options.upiParams := Some params_basic;
     Options.platform := android;
     Options.action := None;
     Options.fallbackUrl := None;
     Options.includeFallback := None |}.

Definition argument_error : exn :=
  Error (lit "Either upiUri or upiParams must be provided").

(** Inputs of the test suite. *)
Definition params_invalid_vpa : obj :=
  [(lit "pa", Some (lit "invalid-vpa")); (lit "pn", Some (lit "Test User"))].

Definition params_special_characters : obj :=
  [(lit "pa", Some (lit "test@upi")); (lit "pn", Some (lit "Test & Co."));
   (lit "tn", Some (lit "Payment for goods & services"))].

Definition params_blank_fields : obj :=
  [(lit "pa", Some (lit "test@upi")); (lit "pn", Some (lit "Test User"));
   (lit "am", Some []); (lit "tn", Some (lit "   "))].

Definition params_custom_field : obj :=
  [(lit "pa", Some (lit "test@upi")); (lit "pn", Some (lit "Test User"));
   (lit "customField", Some (lit "custom-value"))].

Definition params_untrimmed : obj :=
  [(lit "pa", Some (lit "  test@upi  ")); (lit "pn", Some (lit "  Test User  "))].

Definition iphone_user_agent : jsstring :=
  lit "Mozilla/5.0 (iPhone; CPU iPhone OS 14_0 like Mac OS X)".
Definition android_chrome_user_agent : jsstring :=
  lit "Mozilla/5.0 (Linux; Android 10; SM-G973F) AppleWebKit/537.36 Chrome/91.0.4472.120".
Definition android_firefox_user_agent : jsstring :=
  lit "Mozilla/5.0 (Linux; Android 10; SM-G973F) AppleWebKit/537.36 Firefox/89.0".
Definition windows_user_agent : jsstring :=
  lit "Mozilla/5.0 (Windows NT 10.0; Win64; x64)".

(** A parameter set with a key that is an array index. *)
Definition params_index_key : obj :=
  [(lit "pa", Some (lit "test@upi")); (lit "pn", Some (lit "Test User"));
   (lit "note", Some (lit "x")); (lit "1", Some (lit "y"))].

(** *** Further vocabulary: validation, the constructors, the links *)

(** An entry whose value is settled under its key. *)
Definition settled_entry (e : jsstring * value) : Prop :=
  exists v, snd e = Some v /\ settled (fst e) v.

(** No check fails on the entry: its value is missing or blank, or it is
    accepted under its key. *)
Definition entry_ok (e : jsstring * value) : bool :=
  match snd e with
  | Some v => is_empty (trim v) || accepted (fst e) (trim v)
  | None => true
  end.

(** What is kept of a value that passes: its trimmed form, when that is
    not empty. *)
Definition kept (x : value) : value :=
  match x with
  | Some v => if is_empty (trim v) then None else Some (trim v)
  | None => None
  end.

(** The pair written for an optional argument: none when the argument is
    missing or blank. *)
Definition optional_pair (key : jsstring) (x : option jsstring) : URLSearchParams :=
  match kept x with
  | Some v => [(key, v)]
  | None => []
  end.

(** The conditions on the arguments of [createPaymentUri] and
    [createMandateUri], from the rules of [pa], [pn], [am], [tn] and [tr]. *)
Definition payee_address_ok (v : jsstring) : bool :=
  negb (is_empty (trim v)) && (str_length (trim v) <=? 255)%N && test pa_pattern (trim v).
Definition payee_name_ok (v : jsstring) : bool :=
  negb (is_empty (trim v)) && (str_length (trim v) <=? 99)%N.
Definition amount_ok (x : option jsstring) : bool :=
  match x with
  | Some v => is_empty (trim v) || (str_length (trim v) <=? 18)%N && test am_pattern (trim v)
  | None => true
  end.
Definition note_ok (x : option jsstring) : bool :=
  match x with
  | Some v => is_empty (trim v) || (str_length (trim v) <=? 100)%N
  | None => true
  end.
Definition reference_ok (x : option jsstring) : bool :=
  match x with
  | Some v => is_empty (trim v) || (str_length (trim v) <=? 35)%N && test tr_pattern (trim v)
  | None => true
  end.


(** The value of the last pair named [k]. *)
Definition last_value (k : jsstring) (ps : URLSearchParams) : option jsstring :=
  fold_left (fun acc kv => if str_eqb (fst kv) k then Some (snd kv) else acc) ps None.

(** Strings made of code units, as keys and as values. *)
Definition wf_entry (e : jsstring * value) : Prop :=
  wf_string (fst e) /\ wf_value (snd e).

(** What [encodeURIComponent] writes: unreserved characters and percent
    escapes. *)
Definition component_unit (c : code_unit) : bool := (uri_unreserved c || (c =? 37))%N.

(** A URI with a query whose pairs are [ps], as [buildUpiUri] writes it. *)
Definition uri_of (a : UpiAction) (ps : URLSearchParams) : jsstring :=
  lit "upi://" ++ action_name a ++ lit "?" ++ toString ps.

(** A query with a repeated key. *)
Definition repeated_pairs : URLSearchParams :=
  [(lit "pa", lit "first@upi"); (lit "pn", lit "Test"); (lit "pa", lit " second@upi ")].

(** The decoder between two bytes: the bounds that the bytes read so far
    leave on the code point under construction, by the number of bytes
    still needed. *)
Definition utf8_state_ok (st : option utf8_state) : Prop :=
  match st with
  | None => True
  | Some s =>
      (0x80 <= utf8_lower_boundary s /\ utf8_upper_boundary s <= 0xBF)%N /\
      ((utf8_bytes_needed s = 1 /\ utf8_code_point s < 0x4400 /\
        ~ (0x360 <= utf8_code_point s <= 0x37F))%N \/
       (utf8_bytes_needed s = 2 /\ utf8_code_point s <= 0x10F /\
        (utf8_code_point s = 13 -> utf8_upper_boundary s <= 0x9F))%N \/
       (utf8_bytes_needed s = 3 /\ utf8_code_point s <= 4 /\
        (utf8_code_point s = 0 -> 0x90 <= utf8_lower_boundary s) /\
        (utf8_code_point s = 4 -> utf8_upper_boundary s <= 0x8F))%N)
  end.

(** The platform [buildMultipleAppLinks] targets, and the options it hands
    to [buildAppLink] for one app. *)
Definition target_platform (navigator : option jsstring) (platform : option Platform)
    : Platform :=
  match platform with
  | Some p => p
  | None => detectPlatform navigator
  end.

Definition options_for (upiUri : jsstring) (platform : Platform) (action : UpiAction)
    (appId : UpiAppId) : Options.t :=
  {| Options.appId := appId;
     Options.upiUri := Some upiUri;
     Options.upiParams := None;
     Options.platform := platform;
     Options.action := Some action;
     Options.fallbackUrl := None;
     Options.includeFallback := None |}.

(** [options] with another URI. *)
Definition with_upiUri (options : Options.t) (u : option jsstring) : Options.t :=
  {| Options.appId := Options.appId options;
     Options.upiUri := u;
     Options.upiParams := Options.upiParams options;
     Options.platform := Options.platform options;
     Options.action := Options.action options;
     Options.fallbackUrl := Options.fallbackUrl options;
     Options.includeFallback := Options.includeFallback options |}.

(** The iOS template of an app for an action. *)
Definition ios_template (app : UpiApp.t) (action : UpiAction) : jsstring :=
  match action with
  | pay => Templates.pay (UpiApp.ios app)
  | mandate => Templates.mandate (UpiApp.ios app)
  end.

(** The tokens that the detection looks for in the lower-case user agent. *)
Definition names_ios (ua : jsstring) : bool :=
  includes (lit "iphone") (toLowerCase ua) || includes (lit "ipad") (toLowerCase ua)
  || includes (lit "ipod") (toLowerCase ua).

Definition names_android_chrome (ua : jsstring) : bool :=
  includes (lit "android") (toLowerCase ua)
  && (includes (lit "chrome") (toLowerCase ua)
      || includes (lit "chromium") (toLowerCase ua)
      || includes (lit "crios") (toLowerCase ua)).

(** Options with parameters and no URI. *)
Definition params_options : Options.t :=
  {| Options.appId := lit "gpay";
     Options.upiUri := None;
     Options.upiParams := Some params_basic;
     Options.platform := ios;
     Options.action := None;
     Options.fallbackUrl := None;
     Options.includeFallback := None |}.

(** A URI without the two slashes, and one with another scheme. *)
Definition no_slashes_uri : jsstring := lit "upi:pay?pa=test@upi&pn=Test".
Definition http_uri : jsstring := lit "http://example.com/pay?pa=test@upi".

(** The parameter set with every value trimmed. *)
Definition trimmed (params : obj) : obj :=
  map (fun e => (fst e, option_map trim (snd e))) params.

(** The characters of the two parts of an address, and of a reference. *)
Definition user_char (c : code_unit) : bool :=
  (is_alnum c || (c =? 46) || (c =? 95) || (c =? 45))%N.
Definition psp_char (c : code_unit) : bool := (is_alnum c || (c =? 46) || (c =? 45))%N.
Definition reference_char (c : code_unit) : bool := (is_alnum c || (c =? 45))%N.
Definition line_terminator (c : code_unit) : bool :=
  ((c =? 10) || (c =? 13) || (c =? 0x2028) || (c =? 0x2029))%N.


(* ================================================================== *)
(** * Properties *)
(* ================================================================== *)

(** ** Strings *)

Lemma str_eqb_spec (a b : jsstring) : reflect (a = b) (str_eqb a b).
Proof.
  revert b; induction a as [|x a IH]; intros [|y b]; simpl;
    try (constructor; congruence).
  destruct (N.eqb_spec x y); simpl.
  - destruct (IH b); constructor; congruence.
  - constructor; congruence.
Qed.

Lemma str_eqb_refl (a : jsstring) : str_eqb a a = true.
Proof. destruct (str_eqb_spec a a); congruence. Qed.

Lemma str_eqb_eq (a b : jsstring) : str_eqb a b = true <-> a = b.
Proof. destruct (str_eqb_spec a b); split; congruence. Qed.

Lemma str_eqb_neq (a b : jsstring) : str_eqb a b = false <-> a <> b.
Proof. destruct (str_eqb_spec a b); split; congruence. Qed.

Lemma str_eqb_sym (a b : jsstring) : str_eqb a b = str_eqb b a.
Proof.
  destruct (str_eqb_spec a b), (str_eqb_spec b a); congruence.
Qed.

Lemma is_empty_spec (s : jsstring) : is_empty s = true <-> s = [].
Proof. destruct s; simpl; split; congruence. Qed.

Lemma is_empty_false (s : jsstring) : is_empty s = false <-> s <> [].
Proof. destruct s; simpl; split; congruence. Qed.

(** *** [trim] *)

Lemma trimStart_app_keep (s : jsstring) (c : code_unit) :
  is_white_space c = false -> trimStart (s ++ [c]) = trimStart s ++ [c].
Proof.
  intros Hc; induction s as [|x s IH]; simpl.
  - now rewrite Hc.
  - destruct (is_white_space x); auto.
Qed.

Lemma trimStart_fixed (c : code_unit) (s : jsstring) :
  is_white_space c = false -> trimStart (c :: s) = c :: s.
Proof. intros H; simpl; now rewrite H. Qed.

Lemma trimStart_shape (s : jsstring) :
  trimStart s = [] \/
  exists c r, trimStart s = c :: r /\ is_white_space c = false.
Proof.
  induction s as [|x s IH]; simpl; auto.
  destruct (is_white_space x) eqn:E; auto.
  right; eauto.
Qed.

Lemma trimEnd_shape (s : jsstring) :
  trimEnd s = [] \/
  exists r c, trimEnd s = r ++ [c] /\ is_white_space c = false.
Proof.
  unfold trimEnd.
  destruct (trimStart_shape (rev s)) as [E | (c & r & E & Hc)]; rewrite E; simpl; eauto.
Qed.

Lemma trimEnd_fixed (r : jsstring) (c : code_unit) :
  is_white_space c = false -> trimEnd (r ++ [c]) = r ++ [c].
Proof.
  intros H; unfold trimEnd. rewrite rev_unit, trimStart_fixed by assumption.
  simpl. now rewrite rev_involutive.
Qed.

Lemma trimEnd_head (c : code_unit) (s : jsstring) :
  is_white_space c = false -> exists r, trimEnd (c :: s) = c :: r.
Proof.
  intros H; unfold trimEnd; simpl.
  rewrite trimStart_app_keep by assumption.
  rewrite rev_unit. eauto.
Qed.

Lemma trim_idempotent (s : jsstring) : trim (trim s) = trim s.
Proof.
  unfold trim.
  destruct (trimStart_shape s) as [E | (c & r & E & Hc)]; rewrite E.
  - reflexivity.
  - destruct (trimEnd_head c r Hc) as (r' & E').
    rewrite E', (trimStart_fixed c r' Hc), <- E'.
    destruct (trimEnd_shape (c :: r)) as [E2 | (r2 & c2 & E2 & Hc2)]; rewrite E2.
    + reflexivity.
    + now apply trimEnd_fixed.
Qed.

Lemma Forall_trimStart (P : code_unit -> Prop) (s : jsstring) :
  Forall P s -> Forall P (trimStart s).
Proof.
  induction 1 as [|x s Hx Hs IH]; simpl; auto.
  destruct (is_white_space x); auto.
Qed.

Lemma Forall_trim (P : code_unit -> Prop) (s : jsstring) :
  Forall P s -> Forall P (trim s).
Proof.
  intros H; unfold trim, trimEnd.
  apply Forall_rev, Forall_trimStart, Forall_rev, Forall_trimStart, H.
Qed.

(** ** Regular expressions: the matcher decides the denotation *)

Lemma matches_seq_inv (r s : regex) (w : jsstring) :
  matches (Seq r s) w -> exists u v, w = u ++ v /\ matches r u /\ matches s v.
Proof. inversion 1; subst; eauto. Qed.

Lemma matches_alt_inv (r s : regex) (w : jsstring) :
  matches (Alt r s) w -> matches r w \/ matches s w.
Proof. inversion 1; subst; auto. Qed.

Lemma matches_class_inv (p : code_unit -> bool) (w : jsstring) :
  matches (Class p) w -> exists c, w = [c] /\ p c = true.
Proof. inversion 1; subst; eauto. Qed.

Lemma matches_eps_inv (w : jsstring) : matches Eps w -> w = [].
Proof. inversion 1; auto. Qed.

Lemma matches_seq_nil (r s : regex) :
  matches r [] -> matches s [] -> matches (Seq r s) [].
Proof.
  intros H1 H2. exact (m_seq r s [] [] H1 H2).
Qed.

Lemma nullable_spec (r : regex) : nullable r = true <-> matches r [].
Proof.
  induction r; simpl.
  - split; [discriminate | inversion 1].
  - split; [constructor | auto].
  - split; [discriminate | inversion 1].
  - rewrite andb_true_iff, IHr1, IHr2; split.
    + intros [H1 H2]. now apply matches_seq_nil.
    + intros H. apply matches_seq_inv in H as (u & v & E & Hu & Hv).
      symmetry in E. apply app_eq_nil in E as [-> ->]; auto.
  - rewrite orb_true_iff, IHr1, IHr2; split.
    + intros [H | H]; [now apply m_alt_l | now apply m_alt_r].
    + apply matches_alt_inv.
  - split; [constructor | auto].
Qed.

Lemma matches_star_cons_inv (r : regex) (c : code_unit) (s : jsstring) :
  matches (Star r) (c :: s) ->
  exists u v, s = u ++ v /\ matches r (c :: u) /\ matches (Star r) v.
Proof.
  intros H; remember (Star r) as sr eqn:Er; remember (c :: s) as w eqn:Ew.
  revert c s Ew; induction H; intros c0 s0 Ew; try discriminate.
  injection Er as ->.
  destruct u as [|x u]; simpl in Ew.
  - apply IHmatches2; auto.
  - injection Ew as -> <-. eauto.
Qed.

Lemma deriv_spec (r : regex) : forall c s,
  matches (deriv c r) s <-> matches r (c :: s).
Proof.
  induction r; intros c s; simpl.
  - split; inversion 1.
  - split; inversion 1.
  - destruct (p c) eqn:E; split; intros H.
    + apply matches_eps_inv in H; subst. now constructor.
    + apply matches_class_inv in H as (c' & [= -> ->] & _). constructor.
    + inversion H.
    + apply matches_class_inv in H as (c' & [= -> ->] & Hp). congruence.
  - assert (Hseq : matches (Seq (deriv c r1) r2) s ->
                   matches (Seq r1 r2) (c :: s)).
    { intros H. apply matches_seq_inv in H as (u & v & -> & Hu & Hv).
      change (c :: u ++ v) with ((c :: u) ++ v).
      constructor; auto. now apply IHr1. }
    assert (Hinv : matches (Seq r1 r2) (c :: s) ->
                   matches (Seq (deriv c r1) r2) s \/
                   (matches r1 [] /\ matches r2 (c :: s))).
    { intros H. apply matches_seq_inv in H as (u & v & E & Hu & Hv).
      destruct u as [|x u]; simpl in E.
      - right; subst; auto.
      - injection E as <- ->. left. constructor; auto. now apply IHr1. }
    destruct (nullable r1) eqn:En; split.
    + intros H. apply matches_alt_inv in H as [H | H]; auto.
      apply (m_seq r1 r2 [] (c :: s)).
      * now apply nullable_spec.
      * now apply IHr2.
    + intros H; destruct (Hinv H) as [H1 | [_ H2]].
      * now apply m_alt_l.
      * apply m_alt_r. now apply IHr2.
    + auto.
    + intros H; destruct (Hinv H) as [H1 | [H1 _]]; auto.
      apply nullable_spec in H1; congruence.
  - split; intros H; apply matches_alt_inv in H as [H | H].
    + apply m_alt_l; now apply IHr1.
    + apply m_alt_r; now apply IHr2.
    + apply m_alt_l; now apply IHr1.
    + apply m_alt_r; now apply IHr2.
  - split; intros H.
    + apply matches_seq_inv in H as (u & v & -> & Hu & Hv).
      change (c :: u ++ v) with ((c :: u) ++ v).
      constructor; auto. now apply IHr.
    + apply matches_star_cons_inv in H as (u & v & -> & Hu & Hv).
      constructor; auto. now apply IHr.
Qed.

Theorem full_match_spec (r : regex) (s : jsstring) :
  full_match r s = true <-> matches r s.
Proof.
  unfold full_match; revert r; induction s as [|c s IH]; intros r; simpl.
  - apply nullable_spec.
  - rewrite IH. apply deriv_spec.
Qed.

Lemma matches_word (w u : jsstring) : matches (Word w) u <-> u = w.
Proof.
  revert u; induction w as [|c w IH]; intros u; simpl.
  - split; [apply matches_eps_inv | intros ->; constructor].
  - split.
    + intros H. apply matches_seq_inv in H as (a & b & -> & Ha & Hb).
      apply matches_class_inv in Ha as (x & -> & Hx).
      apply N.eqb_eq in Hx; subst. apply IH in Hb; subst. reflexivity.
    + intros ->. apply (m_seq (Chr c) (Word w) [c] w).
      * constructor. apply N.eqb_refl.
      * now apply IH.
Qed.

Lemma matches_any (u : jsstring) : matches (Star AnyUnit) u.
Proof.
  induction u as [|c u IH].
  - constructor.
  - apply (m_star_cons AnyUnit [c] u); auto. now constructor.
Qed.

Lemma starts_with_spec (p s : jsstring) :
  starts_with p s = true <-> exists b, s = p ++ b.
Proof.
  revert s; induction p as [|x p IH]; intros s; simpl.
  - split; eauto.
  - destruct s as [|y s].
    + split; [discriminate | intros (b & E); discriminate].
    + rewrite andb_true_iff, N.eqb_eq, IH. split.
      * intros (-> & b & ->). eauto.
      * intros (b & [= -> ->]). eauto.
Qed.

Lemma includes_spec (p s : jsstring) :
  includes p s = true <-> exists a b, s = a ++ p ++ b.
Proof.
  induction s as [|y s IH]; simpl.
  - rewrite orb_false_r, starts_with_spec. split.
    + intros (b & E). exists [], b. exact E.
    + intros (a & b & E). destruct a; simpl in E; eauto; discriminate.
  - rewrite orb_true_iff, starts_with_spec, IH. split.
    + intros [(b & E) | (a & b & E)].
      * exists [], b. exact E.
      * exists (y :: a), b. simpl. now rewrite E.
    + intros (a & b & E). destruct a as [|x a]; simpl in E.
      * left; eauto.
      * injection E as -> ->. right; eauto.
Qed.

Lemma test_search_spec (r : regex) (s : jsstring) :
  test (Search r) s = true <-> exists a m b, s = a ++ m ++ b /\ matches r m.
Proof.
  simpl. rewrite full_match_spec. split.
  - intros H. apply matches_seq_inv in H as (a & t & -> & _ & H).
    apply matches_seq_inv in H as (m & b & -> & Hm & _). eauto.
  - intros (a & m & b & -> & Hm).
    constructor; [apply matches_any|]. constructor; [assumption | apply matches_any].
Qed.

Lemma test_search_word (w s : jsstring) : test (Search (Word w)) s = includes w s.
Proof.
  apply eq_true_iff_eq. rewrite test_search_spec, includes_spec. split.
  - intros (a & m & b & -> & Hm). apply matches_word in Hm; subst. eauto.
  - intros (a & b & ->). exists a, w, b. split; auto. now apply matches_word.
Qed.

Lemma test_search_alt (r1 r2 : regex) (s : jsstring) :
  test (Search (Alt r1 r2)) s = test (Search r1) s || test (Search r2) s.
Proof.
  apply eq_true_iff_eq. rewrite orb_true_iff, !test_search_spec. split.
  - intros (a & m & b & -> & Hm). apply matches_alt_inv in Hm as [H | H].
    + left; eauto.
    + right; eauto.
  - intros [(a & m & b & -> & Hm) | (a & m & b & -> & Hm)];
      exists a, m, b; split; auto; [now apply m_alt_l | now apply m_alt_r].
Qed.

(** ** Platform and capability detection *)

Lemma detectPlatform_ios (ua : jsstring) :
  detectPlatform (Some ua) = ios <->
  includes (lit "iphone") (toLowerCase ua) = true \/
  includes (lit "ipad") (toLowerCase ua) = true \/
  includes (lit "ipod") (toLowerCase ua) = true.
Proof.
  unfold detectPlatform, ios_pattern.
  rewrite !test_search_alt, !test_search_word.
  destruct (includes (lit "iphone") (toLowerCase ua));
    destruct (includes (lit "ipad") (toLowerCase ua));
    destruct (includes (lit "ipod") (toLowerCase ua)); simpl;
    intuition congruence.
Qed.

Lemma supportsIntentUrls_tokens (ua : jsstring) :
  supportsIntentUrls (Some ua) =
  includes (lit "android") (toLowerCase ua)
  && (includes (lit "chrome") (toLowerCase ua)
      || includes (lit "chromium") (toLowerCase ua)
      || includes (lit "crios") (toLowerCase ua)).
Proof.
  unfold supportsIntentUrls, android_pattern, chrome_pattern, crios_pattern.
  now rewrite test_search_alt, !test_search_word.
Qed.

(** C9, as stated, fails: a user agent classified as iOS that also
    contains [android] and [chrome] is reported to support intent URLs. *)
Lemma C9_counterexample :
  detectPlatform (Some mixed_user_agent) = ios /\
  includes (lit "iphone") (toLowerCase mixed_user_agent) = true /\
  supportsIntentUrls (Some mixed_user_agent) = true.
Proof. vm_compute. auto. Qed.

(** C9, amended: for every user agent classified as iOS (its lower-case
    form contains [iphone], [ipad] or [ipod]) whose lower-case form does
    not contain [android], [supportsIntentUrls] is false whatever browser
    tokens are present; and it is false when no user agent is available. *)
Theorem C9_ios_without_android (ua : jsstring) :
  detectPlatform (Some ua) = ios ->
  includes (lit "android") (toLowerCase ua) = false ->
  (includes (lit "iphone") (toLowerCase ua) = true \/
   includes (lit "ipad") (toLowerCase ua) = true \/
   includes (lit "ipod") (toLowerCase ua) = true) /\
  supportsIntentUrls (Some ua) = false /\
  supportsIntentUrls None = false.
Proof.
  intros Hios Hand. split; [now apply detectPlatform_ios|].
  split; [|reflexivity].
  rewrite supportsIntentUrls_tokens, Hand. reflexivity.
Qed.

Lemma C9_witness :
  detectPlatform (Some ios_chrome_user_agent) = ios /\
  includes (lit "android") (toLowerCase ios_chrome_user_agent) = false /\
  supportsIntentUrls (Some ios_chrome_user_agent) = false.
Proof.
  assert (H1 : detectPlatform (Some ios_chrome_user_agent) = ios) by (vm_compute; reflexivity).
  assert (H2 : includes (lit "android") (toLowerCase ios_chrome_user_agent) = false)
    by (vm_compute; reflexivity).
  split; [exact H1|]. split; [exact H2|].
  exact (proj1 (proj2 (C9_ios_without_android ios_chrome_user_agent H1 H2))).
Defined.

(** ** Objects *)

Lemma obj_get_absent (o : obj) (k : jsstring) :
  ~ In k (keys o) -> obj_get o k = None.
Proof.
  induction o as [|[k' v] o IH]; simpl; auto.
  intros H. destruct (str_eqb_spec k' k); [tauto|]. apply IH; tauto.
Qed.

Lemma obj_get_In (o : obj) (k : jsstring) (v : value) :
  NoDup (keys o) -> In (k, v) o -> obj_get o k = v.
Proof.
  induction o as [|[k' v'] o IH]; simpl; [tauto|].
  intros Hnd [E | Hin]; inversion Hnd as [|? ? Hk Hnd']; subst.
  - injection E as -> ->. now rewrite str_eqb_refl.
  - destruct (str_eqb_spec k' k) as [->|].
    + exfalso. apply Hk. apply (in_map fst) in Hin. exact Hin.
    + auto.
Qed.

Lemma obj_get_Some_In (o : obj) (k : jsstring) (s : jsstring) :
  obj_get o k = Some s -> In (k, Some s) o.
Proof.
  induction o as [|[k' v'] o IH]; simpl; [discriminate|].
  destruct (str_eqb_spec k' k) as [->|]; intros H; subst; auto.
Qed.

Lemma obj_get_perm (o o' : obj) (k : jsstring) :
  NoDup (keys o) -> Permutation o o' -> obj_get o k = obj_get o' k.
Proof.
  intros Hnd Hp.
  assert (Hnd' : NoDup (keys o')).
  { eapply Permutation_NoDup; [|exact Hnd]. now apply Permutation_map. }
  destruct (in_dec (list_eq_dec N.eq_dec) k (keys o)) as [Hin | Hout].
  - apply in_map_iff in Hin as ([k0 v] & E & Hin); simpl in E; subst k0.
    rewrite (obj_get_In o k v Hnd Hin).
    symmetry. apply obj_get_In; auto. eapply Permutation_in; eauto.
  - rewrite (obj_get_absent o k Hout). symmetry. apply obj_get_absent.
    intros H; apply Hout. eapply Permutation_in; [|exact H].
    apply Permutation_map. now apply Permutation_sym.
Qed.

Lemma keys_obj_set (o : obj) (k v : jsstring) :
  keys (obj_set o k v) =
  if existsb (str_eqb k) (keys o) then keys o
  else if str_eqb k proto then keys o else keys o ++ [k].
Proof.
  induction o as [|[k' v'] o IH]; simpl.
  - fold proto. destruct (str_eqb k proto); reflexivity.
  - rewrite (str_eqb_sym k k'). destruct (str_eqb k' k); simpl; auto.
    rewrite IH. destruct (existsb (str_eqb k) (keys o)); auto.
    destruct (str_eqb k proto); auto.
Qed.

Lemma existsb_str_eqb (k : jsstring) (l : list jsstring) :
  existsb (str_eqb k) l = true <-> In k l.
Proof.
  rewrite existsb_exists. split.
  - intros (x & Hx & E). apply str_eqb_eq in E; subst; auto.
  - intros H; exists k; split; auto. apply str_eqb_refl.
Qed.

Lemma existsb_str_eqb_false (k : jsstring) (l : list jsstring) :
  existsb (str_eqb k) l = false <-> ~ In k l.
Proof.
  rewrite <- existsb_str_eqb. destruct (existsb (str_eqb k) l); split; congruence.
Qed.

Lemma NoDup_obj_set (o : obj) (k v : jsstring) :
  NoDup (keys o) -> NoDup (keys (obj_set o k v)).
Proof.
  intros H. rewrite keys_obj_set.
  destruct (existsb (str_eqb k) (keys o)) eqn:E; auto.
  destruct (str_eqb k proto); auto.
  apply existsb_str_eqb_false in E.
  apply NoDup_rev in H. rewrite <- (rev_involutive (keys o ++ [k])).
  apply NoDup_rev. rewrite rev_unit. constructor; auto.
  now rewrite <- in_rev.
Qed.

Lemma obj_set_no_proto (o : obj) (k v : jsstring) :
  ~ In proto (keys o) -> ~ In proto (keys (obj_set o k v)).
Proof.
  intros H. rewrite keys_obj_set.
  destruct (existsb (str_eqb k) (keys o)); auto.
  destruct (str_eqb_spec k proto); auto.
  rewrite in_app_iff; simpl. intuition congruence.
Qed.

Lemma obj_get_set_same (o : obj) (k v : jsstring) :
  k <> proto -> obj_get (obj_set o k v) k = Some v.
Proof.
  intros Hk; induction o as [|[k' v'] o IH]; simpl.
  - fold proto. apply str_eqb_neq in Hk. rewrite Hk. simpl. now rewrite str_eqb_refl.
  - destruct (str_eqb k' k) eqn:E; simpl; rewrite E; auto.
Qed.

Lemma obj_get_set_other (o : obj) (k v k' : jsstring) :
  k' <> k -> obj_get (obj_set o k v) k' = obj_get o k'.
Proof.
  intros Hk; induction o as [|[k0 v0] o IH]; simpl.
  - fold proto. destruct (str_eqb k proto); simpl; auto.
    apply not_eq_sym in Hk. apply str_eqb_neq in Hk. now rewrite Hk.
  - destruct (str_eqb_spec k0 k) as [->|]; simpl.
    + apply not_eq_sym in Hk. apply str_eqb_neq in Hk. now rewrite Hk.
    + destruct (str_eqb k0 k'); auto.
Qed.

(** On a fresh key that is not [__proto__] the assignment adds the
    property at the end. *)
Lemma obj_set_fresh (o : obj) (k v : jsstring) :
  ~ In k (keys o) -> k <> proto -> obj_set o k v = o ++ [(k, Some v)].
Proof.
  intros Hin Hk; induction o as [|[k0 v0] o IH]; simpl in *.
  - fold proto. apply str_eqb_neq in Hk. now rewrite Hk.
  - destruct (str_eqb_spec k0 k); [tauto|]. rewrite IH; tauto.
Qed.

(** *** The order of [Object.entries] *)

Lemma insert_index_perm i e l :
  Permutation (insert_index i e l) ((i, e) :: l).
Proof.
  induction l as [|[j e'] l IH]; simpl; auto.
  destruct (i <? j)%N; auto.
  eapply perm_trans; [apply perm_skip, IH | apply perm_swap].
Qed.

Lemma index_entries_perm (o : obj) :
  Permutation (map snd (index_entries o)) (filter (fun e => negb (is_named e)) o).
Proof.
  induction o as [|e o IH]; simpl; auto.
  unfold is_named at 1. destruct (array_index (fst e)) as [i|]; simpl; auto.
  eapply perm_trans; [apply Permutation_map, insert_index_perm|].
  simpl. now apply perm_skip.
Qed.

Lemma filter_split_perm {A} (f : A -> bool) (l : list A) :
  Permutation (filter (fun x => negb (f x)) l ++ filter f l) l.
Proof.
  induction l as [|x l IH]; simpl; auto.
  destruct (f x); simpl.
  - apply Permutation_sym. apply Permutation_cons_app. now apply Permutation_sym.
  - now apply perm_skip.
Qed.

Lemma Object_entries_perm (o : obj) : Permutation (Object_entries o) o.
Proof.
  unfold Object_entries.
  eapply perm_trans; [|apply (filter_split_perm is_named)].
  apply Permutation_app_tail, index_entries_perm.
Qed.

Lemma Object_entries_named (o : obj) :
  forallb is_named o = true -> Object_entries o = o.
Proof.
  intros H; unfold Object_entries.
  assert (E : index_entries o = [] /\ filter is_named o = o).
  { induction o as [|e o IH]; simpl in *; auto.
    apply andb_true_iff in H as [He Ho]. destruct (IH Ho) as [E1 E2].
    rewrite He, E2. unfold is_named in He.
    destruct (array_index (fst e)); [discriminate | auto]. }
  destruct E as [-> ->]. reflexivity.
Qed.

Lemma NoDup_keys_entries (o : obj) :
  NoDup (keys o) -> NoDup (keys (Object_entries o)).
Proof.
  intros H. eapply Permutation_NoDup; [|exact H].
  apply Permutation_map, Permutation_sym, Object_entries_perm.
Qed.

Lemma obj_get_entries (o : obj) (k : jsstring) :
  NoDup (keys o) -> obj_get (Object_entries o) k = obj_get o k.
Proof.
  intros H. symmetry. apply obj_get_perm; auto.
  apply Permutation_sym, Object_entries_perm.
Qed.

(** ** [validateUpiParams] *)

Lemma check_message_none key rule c :
  check_message key rule c = None <-> c = Passes.
Proof. destruct c; simpl; split; congruence. Qed.

Lemma validate_entry_eq errs n e :
  validate_entry (errs, n) e = (errs ++ entry_errors e, store_entry n e).
Proof.
  destruct e as [key [s|]]; unfold validate_entry, entry_errors, store_entry,
    entry_value, accepted; simpl; [|now rewrite app_nil_r].
  destruct (is_empty s); [now rewrite app_nil_r|].
  destruct (is_empty (trim s)); [now rewrite app_nil_r|].
  destruct (rule_for key) as [rule|]; [|now rewrite app_nil_r].
  destruct (check_rule rule (trim s)); simpl; auto. now rewrite app_nil_r.
Qed.

Lemma fold_validate l : forall errs n,
  fold_left validate_entry l (errs, n) =
  (errs ++ flat_map entry_errors l, fold_left store_entry l n).
Proof.
  induction l as [|e l IH]; intros errs n; cbn [fold_left flat_map].
  - now rewrite app_nil_r.
  - rewrite validate_entry_eq, IH, <- app_assoc. reflexivity.
Qed.

(** The result of [validateUpiParams], field by field. *)
Theorem validateUpiParams_eq (params : obj) :
  validateUpiParams params =
  {| isValid := is_empty_list (required_errors params
                               ++ flat_map entry_errors (Object_entries params));
     errors := required_errors params ++ flat_map entry_errors (Object_entries params);
     normalizedParams := inject_currency (normalized_core params) |}.
Proof.
  unfold validateUpiParams, required_errors, inject_currency, normalized_core.
  destruct (missing params (lit "pa")), (missing params (lit "pn")); simpl app;
    rewrite fold_validate; reflexivity.
Qed.

Lemma isValid_errors (params : obj) :
  isValid (validateUpiParams params) = true <-> errors (validateUpiParams params) = [].
Proof.
  rewrite validateUpiParams_eq; simpl.
  destruct (required_errors params ++ flat_map entry_errors (Object_entries params));
    simpl; split; congruence.
Qed.

Lemma fold_store_keys l : forall n,
  NoDup (keys n) -> ~ In proto (keys n) ->
  NoDup (keys (fold_left store_entry l n)) /\
  ~ In proto (keys (fold_left store_entry l n)).
Proof.
  induction l as [|e l IH]; intros n Hnd Hp; simpl; auto.
  apply IH; unfold store_entry; destruct (entry_value (fst e) (snd e)); auto.
  - now apply NoDup_obj_set.
  - now apply obj_set_no_proto.
Qed.

Lemma fold_store_get l : forall n k,
  NoDup (keys l) -> k <> proto ->
  obj_get (fold_left store_entry l n) k =
  match entry_value k (obj_get l k) with
  | Some v => Some v
  | None => obj_get n k
  end.
Proof.
  induction l as [|[k' v'] l IH]; intros n k Hnd Hk; simpl; auto.
  inversion Hnd as [|? ? Hout Hnd']; subst.
  rewrite IH by assumption.
  destruct (str_eqb_spec k' k) as [->|Hne].
  - rewrite (obj_get_absent l k Hout). simpl.
    unfold store_entry; simpl. destruct (entry_value k v'); auto.
    now apply obj_get_set_same.
  - destruct (entry_value k (obj_get l k)); auto.
    unfold store_entry; simpl. destruct (entry_value k' v'); auto.
    apply obj_get_set_other. congruence.
Qed.

Lemma normalized_core_keys (params : obj) :
  NoDup (keys (normalized_core params)) /\ ~ In proto (keys (normalized_core params)).
Proof. apply fold_store_keys; simpl; auto. constructor. Qed.

(** What the loop leaves under each key. *)
Lemma normalized_core_get (params : obj) (k : jsstring) :
  NoDup (keys params) ->
  obj_get (normalized_core params) k =
  if str_eqb k proto then None else entry_value k (obj_get params k).
Proof.
  intros Hnd. destruct (str_eqb_spec k proto) as [->|Hk].
  - apply obj_get_absent, normalized_core_keys.
  - unfold normalized_core. rewrite fold_store_get; auto using NoDup_keys_entries.
    rewrite obj_get_entries by assumption.
    destruct (entry_value k (obj_get params k)); reflexivity.
Qed.

Lemma inject_currency_get (n : obj) (k : jsstring) :
  obj_get (inject_currency n) k =
  if str_eqb k (lit "cu") && truthy (obj_get n (lit "am"))
     && negb (truthy (obj_get n (lit "cu")))
  then Some (lit "INR") else obj_get n k.
Proof.
  unfold inject_currency.
  destruct (truthy (obj_get n (lit "am"))), (truthy (obj_get n (lit "cu")));
    cbn [negb andb]; rewrite ?andb_false_r, ?andb_true_r; auto.
  destruct (str_eqb_spec k (lit "cu")) as [->|Hk].
  - apply obj_get_set_same. intros H; vm_compute in H; discriminate.
  - now apply obj_get_set_other.
Qed.

Lemma inject_currency_keys (n : obj) :
  NoDup (keys n) -> ~ In proto (keys n) ->
  NoDup (keys (inject_currency n)) /\ ~ In proto (keys (inject_currency n)).
Proof.
  intros H1 H2; unfold inject_currency.
  destruct (truthy (obj_get n (lit "am")) && negb (truthy (obj_get n (lit "cu")))); auto.
  split; [now apply NoDup_obj_set | now apply obj_set_no_proto].
Qed.

Lemma normalizedParams_keys (params : obj) :
  NoDup (keys (normalizedParams (validateUpiParams params))) /\
  ~ In proto (keys (normalizedParams (validateUpiParams params))).
Proof.
  rewrite validateUpiParams_eq; simpl.
  apply inject_currency_keys; apply normalized_core_keys.
Qed.

Lemma distinct_NoDup (l : list jsstring) : distinct l = true -> NoDup l.
Proof.
  induction l as [|k l IH]; simpl; [constructor|].
  rewrite andb_true_iff, negb_true_iff, existsb_str_eqb_false.
  intros [H1 H2]. constructor; auto.
Qed.

Lemma wf_stringb_spec (s : jsstring) : wf_stringb s = true -> wf_string s.
Proof.
  unfold wf_stringb, wf_string. rewrite forallb_forall, Forall_forall.
  intros H c Hc. apply N.ltb_lt. auto.
Qed.

Lemma wf_objb_spec (o : obj) : wf_objb o = true -> wf_obj o.
Proof.
  unfold wf_objb, wf_obj. rewrite andb_true_iff, forallb_forall, Forall_forall.
  intros [H1 H2]. split; [now apply distinct_NoDup|].
  intros [k v] Hin. specialize (H2 _ Hin). simpl in *.
  apply andb_true_iff in H2 as [Hk Hv]. split; [now apply wf_stringb_spec|].
  destruct v; simpl in *; auto. now apply wf_stringb_spec.
Qed.

Lemma trim_nonempty (v : jsstring) : is_empty (trim v) = false -> is_empty v = false.
Proof. destruct v; [discriminate | reflexivity]. Qed.

Lemma rule_for_not_proto (key : jsstring) (rule : ValidationRule) :
  rule_for key = Some rule -> key <> proto.
Proof. intros H ->. discriminate. Qed.

Lemma entry_value_accepted (key v : jsstring) :
  is_empty (trim v) = false ->
  entry_value key (Some v) = if accepted key (trim v) then Some (trim v) else None.
Proof.
  intros H. unfold entry_value. now rewrite (trim_nonempty v H), H.
Qed.

Lemma normalizedParams_get (params : obj) (k : jsstring) :
  NoDup (keys params) ->
  obj_get (normalizedParams (validateUpiParams params)) k =
  if str_eqb k (lit "cu")
     && truthy (entry_value (lit "am") (obj_get params (lit "am")))
     && negb (truthy (entry_value (lit "cu") (obj_get params (lit "cu"))))
  then Some (lit "INR")
  else if str_eqb k proto then None else entry_value k (obj_get params k).
Proof.
  intros Hnd. rewrite validateUpiParams_eq; simpl normalizedParams.
  rewrite inject_currency_get, !normalized_core_get by assumption.
  reflexivity.
Qed.

(** ** C3: the default currency *)

(** C3, as stated, fails: an amount that is present and not blank but
    does not pass its rule is not normalized, and no currency is set. *)
Lemma C3_counterexample :
  wf_obj params_bad_amount /\
  obj_get params_bad_amount (lit "am") = Some (lit "invalid-amount") /\
  is_empty (trim (lit "invalid-amount")) = false /\
  ~ In (lit "cu") (keys params_bad_amount) /\
  obj_get (normalizedParams (validateUpiParams params_bad_amount)) (lit "cu") = None.
Proof.
  split; [apply wf_objb_spec; reflexivity|].
  repeat split; try reflexivity.
  apply existsb_str_eqb_false. reflexivity.
Qed.

Lemma accepted_am (s : jsstring) :
  accepted (lit "am") s = (str_length s <=? 18)%N && test am_pattern s.
Proof.
  unfold accepted. change (rule_for (lit "am")) with (Some am_rule).
  unfold check_rule, exceeds_maxLength, fails_pattern, outside_allowedValues.
  cbn [maxLength pattern allowedValues am_rule].
  rewrite N.leb_antisym. change (negb (18 =? 0)%N) with true. cbn [andb].
  destruct (18 <? str_length s)%N; cbn [negb andb]; auto.
  destruct (test am_pattern s); reflexivity.
Qed.

(** C3, amended: for every parameter set in which [am] is present with a
    trimmed value that is not empty and passes the rule of [am] (at most
    18 code units, matching the amount pattern), and [cu] is absent,
    [validateUpiParams] returns [normalizedParams] with [cu = "INR"]
    (and [am] set to the trimmed amount). *)
Theorem C3_default_currency (params : obj) (v : jsstring) :
  NoDup (keys params) ->
  obj_get params (lit "am") = Some v ->
  is_empty (trim v) = false ->
  (str_length (trim v) <=? 18)%N = true ->
  test am_pattern (trim v) = true ->
  ~ In (lit "cu") (keys params) ->
  obj_get (normalizedParams (validateUpiParams params)) (lit "cu") = Some (lit "INR") /\
  obj_get (normalizedParams (validateUpiParams params)) (lit "am") = Some (trim v).
Proof.
  intros Hnd Ham Hv Hlen Hpat Hcu.
  assert (Eam : entry_value (lit "am") (obj_get params (lit "am")) = Some (trim v)).
  { rewrite Ham, entry_value_accepted, accepted_am, Hlen, Hpat by assumption.
    reflexivity. }
  assert (Ecu : entry_value (lit "cu") (obj_get params (lit "cu")) = None).
  { now rewrite (obj_get_absent params (lit "cu") Hcu). }
  rewrite !normalizedParams_get, Eam, Ecu by assumption.
  destruct (trim v) as [|c t]; [discriminate|]. split; reflexivity.
Qed.

Lemma C3_witness :
  obj_get (normalizedParams (validateUpiParams params_with_amount)) (lit "cu")
  = Some (lit "INR").
Proof.
  refine (proj1 (C3_default_currency params_with_amount (lit "100") _ _ _ _ _ _)).
  - apply distinct_NoDup; reflexivity.
  - reflexivity.
  - reflexivity.
  - reflexivity.
  - reflexivity.
  - apply existsb_str_eqb_false; reflexivity.
Defined.

(** ** C4: the checks of one key *)

(** C4, as stated, fails: a currency that is not allowed pushes its error,
    yet [cu] is not excluded from [normalizedParams], because the
    default-currency step then sets it for the amount. *)
Lemma C4_counterexample :
  wf_obj params_bad_currency /\
  In (lit "cu", Some (lit "USD")) params_bad_currency /\
  rule_for (lit "cu") = Some cu_rule /\
  check_rule cu_rule (trim (lit "USD")) = NotAllowed [lit "INR"] /\
  errors (validateUpiParams params_bad_currency) = [lit "cu: must be one of INR"] /\
  obj_get (normalizedParams (validateUpiParams params_bad_currency)) (lit "cu")
  = Some (lit "INR").
Proof.
  split; [apply wf_objb_spec; reflexivity|].
  split; [simpl; tauto|].
  repeat split; reflexivity.
Qed.

Lemma entry_errors_rule (key v : jsstring) (rule : ValidationRule) :
  is_empty (trim v) = false -> rule_for key = Some rule ->
  entry_errors (key, Some v) =
  match check_message key rule (check_rule rule (trim v)) with
  | Some text => [text]
  | None => []
  end.
Proof.
  intros Hv Hr. unfold entry_errors; cbn [fst snd].
  now rewrite (trim_nonempty v Hv), Hv, Hr.
Qed.

Lemma entry_errors_no_rule (key : jsstring) (v : value) :
  rule_for key = None -> entry_errors (key, v) = [].
Proof.
  intros Hr. unfold entry_errors; cbn [fst snd]. destruct v as [s|]; auto.
  destruct (is_empty s); auto. destruct (is_empty (trim s)); auto. now rewrite Hr.
Qed.

Lemma accepted_rule (key s : jsstring) (rule : ValidationRule) :
  rule_for key = Some rule ->
  accepted key s = match check_rule rule s with Passes => true | _ => false end.
Proof. intros H; unfold accepted; now rewrite H. Qed.

Lemma accepted_no_rule (key s : jsstring) :
  rule_for key = None -> accepted key s = true.
Proof. intros H; unfold accepted; now rewrite H. Qed.

(** C4, amended: for every key of the input whose trimmed value is not
    empty and that has a rule, the checks run in the order maximum length,
    pattern, allowed values; the first that fails contributes exactly one
    error, which names the key, and the value is not copied: the key is
    absent from [normalizedParams], except that [cu] is then set to [INR]
    by the default-currency step when [am] is normalized.  When every
    check passes the trimmed value is copied.  A key with no rule
    contributes no error, and its trimmed value is copied (the key
    [__proto__] is left out of this statement). *)
Theorem C4_checks_of_a_key (params : obj) (key v : jsstring) :
  NoDup (keys params) ->
  In (key, Some v) params ->
  is_empty (trim v) = false ->
  let r := validateUpiParams params in
  let n := normalizedParams r in
  let dropped :=
    obj_get n key =
    if str_eqb key (lit "cu") && truthy (obj_get n (lit "am"))
    then Some (lit "INR") else None in
  errors r = required_errors params ++ flat_map entry_errors (Object_entries params) /\
  In (key, Some v) (Object_entries params) /\
  match rule_for key with
  | Some rule =>
      match exceeds_maxLength rule (trim v) with
      | Some m =>
          entry_errors (key, Some v) =
          [key ++ lit ": exceeds maximum length of " ++ decimal m ++ lit " characters"]
          /\ dropped
      | None =>
          if fails_pattern rule (trim v) then
            entry_errors (key, Some v) =
            [key ++ lit ": invalid format. " ++ description rule]
            /\ dropped
          else
            match outside_allowedValues rule (trim v) with
            | Some vs =>
                entry_errors (key, Some v) =
                [key ++ lit ": must be one of " ++ join (lit ", ") vs]
                /\ dropped
            | None =>
                entry_errors (key, Some v) = [] /\ obj_get n key = Some (trim v)
            end
      end
  | None =>
      entry_errors (key, Some v) = [] /\
      (key <> proto -> obj_get n key = Some (trim v))
  end.
Proof.
  intros Hnd Hin Hv r n dropped.
  split; [unfold r; now rewrite validateUpiParams_eq|].
  split; [eapply Permutation_in; [apply Permutation_sym, Object_entries_perm | exact Hin]|].
  assert (Hget : obj_get params key = Some v) by now apply obj_get_In.
  assert (Ham : truthy (obj_get n (lit "am"))
                = truthy (entry_value (lit "am") (obj_get params (lit "am")))).
  { unfold n, r. now rewrite normalizedParams_get by assumption. }
  assert (Hdrop : accepted key (trim v) = false -> dropped).
  { intros Hacc. unfold dropped. rewrite Ham. unfold n, r.
    rewrite normalizedParams_get by assumption.
    rewrite Hget, entry_value_accepted, Hacc by assumption.
    destruct (str_eqb_spec key (lit "cu")) as [->|Hk]; cbn [andb].
    - rewrite Hget, entry_value_accepted, Hacc by assumption. cbn [truthy negb].
      rewrite andb_true_r.
      destruct (truthy (entry_value (lit "am") (obj_get params (lit "am")))); reflexivity.
    - destruct (str_eqb key proto); reflexivity. }
  assert (Hkeep : accepted key (trim v) = true -> key <> proto ->
                  obj_get n key = Some (trim v)).
  { intros Hacc Hp. unfold n, r. rewrite normalizedParams_get by assumption.
    rewrite Hget, entry_value_accepted, Hacc by assumption.
    apply str_eqb_neq in Hp. rewrite Hp.
    destruct (str_eqb_spec key (lit "cu")) as [->|Hk]; cbn [andb]; auto.
    rewrite Hget, entry_value_accepted, Hacc by assumption.
    destruct (trim v); [discriminate|]. cbn [truthy negb]. now rewrite andb_false_r. }
  destruct (rule_for key) as [rule|] eqn:Hr.
  - rewrite (entry_errors_rule key v rule Hv Hr).
    pose proof (accepted_rule key (trim v) rule Hr) as Hacc.
    unfold check_rule in *.
    destruct (exceeds_maxLength rule (trim v)) as [m|]; [split; auto|].
    destruct (fails_pattern rule (trim v)); [split; auto|].
    destruct (outside_allowedValues rule (trim v)) as [vs|]; split; auto.
    apply Hkeep; auto. now apply (rule_for_not_proto key rule).
  - split; [now apply entry_errors_no_rule|].
    apply Hkeep. now apply accepted_no_rule.
Qed.

Lemma C4_witness :
  entry_errors (lit "cu", Some (lit "USD")) = [lit "cu: must be one of INR"].
Proof.
  pose proof (C4_checks_of_a_key params_bad_currency (lit "cu") (lit "USD")) as H.
  assert (H1 : NoDup (keys params_bad_currency)) by (apply distinct_NoDup; reflexivity).
  assert (H2 : In (lit "cu", Some (lit "USD")) params_bad_currency) by (simpl; tauto).
  assert (H3 : is_empty (trim (lit "USD")) = false) by reflexivity.
  specialize (H H1 H2 H3). cbv zeta in H.
  destruct H as (_ & _ & H).
  change (rule_for (lit "cu")) with (Some cu_rule) in H.
  change (exceeds_maxLength cu_rule (trim (lit "USD"))) with (@None N) in H.
  change (fails_pattern cu_rule (trim (lit "USD"))) with false in H.
  change (outside_allowedValues cu_rule (trim (lit "USD"))) with (Some [lit "INR"]) in H.
  cbv iota in H. exact (proj1 H).
Defined.

(** ** C6: when building throws *)

(** C6: [buildUpiUri] throws exactly when [validateUpiParams] reports
    [isValid = false], and the error then carries the validation messages
    joined by a comma; otherwise it returns a URI.  [validateUpiParams]
    is a total function: whatever the input it returns a result, whose
    [isValid] says that [errors] is empty and whose [normalizedParams] is
    the map built by the loop, valid or not. *)
Theorem C6_build_throws_iff_invalid (params : obj) (action : UpiAction) :
  (forall e,
     buildUpiUri params action = Throw e <->
     isValid (validateUpiParams params) = false /\
     e = Error (lit "Invalid UPI parameters: "
                ++ join (lit ", ") (errors (validateUpiParams params)))) /\
  (isValid (validateUpiParams params) = true <->
   exists uri, buildUpiUri params action = Return uri) /\
  isValid (validateUpiParams params) = is_empty_list (errors (validateUpiParams params)) /\
  normalizedParams (validateUpiParams params) = inject_currency (normalized_core params).
Proof.
  split; [|split; [|split]].
  - intros e. unfold buildUpiUri.
    destruct (isValid (validateUpiParams params)); cbn [negb]; split.
    + discriminate.
    + intros [H _]; discriminate.
    + intros [= <-]. auto.
    + intros [_ ->]. reflexivity.
  - unfold buildUpiUri.
    destruct (isValid (validateUpiParams params)); cbn [negb]; split; eauto.
    + discriminate.
    + intros (uri & H); discriminate.
  - now rewrite validateUpiParams_eq.
  - now rewrite validateUpiParams_eq.
Qed.

(** ** UTF-16, UTF-8 and percent-encoding: what is written is read back *)

Ltac Zify.zify_post_hook ::= Z.to_euclidean_division_equations.

Ltac cmp :=
  repeat match goal with
         | |- context [(?a <=? ?b)%N] => destruct (N.leb_spec a b); try lia
         | |- context [(?a <? ?b)%N] => destruct (N.ltb_spec a b); try lia
         | |- context [(?a =? ?b)%N] => destruct (N.eqb_spec a b); try lia
         end.

Lemma hex_value_digit (n : N) : (n < 16)%N -> hex_value (hex_digit n) = Some n.
Proof.
  intros H. unfold hex_value, hex_digit, is_digit.
  cmp; cbn [andb]; f_equal; lia.
Qed.

Lemma percent_decode_plain (b : N) (r : list N) :
  b <> 37%N -> percent_decode (b :: r) = b :: percent_decode r.
Proof.
  intros H. cbn [percent_decode]. apply N.eqb_neq in H. now rewrite H.
Qed.

Lemma percent_decode_escape (b : N) (r : list N) :
  (b < 256)%N -> percent_decode (percent_encode_byte b ++ r) = b :: percent_decode r.
Proof.
  intros H. unfold percent_encode_byte. cbn [app percent_decode N.eqb Pos.eqb].
  rewrite !hex_value_digit by lia. f_equal. lia.
Qed.

Lemma urlencoded_plain_facts (b : N) :
  urlencoded_plain b = true -> b <> 37%N /\ b <> 43%N /\ b <> 61%N /\ b <> 38%N /\ (b < 128)%N.
Proof.
  unfold urlencoded_plain, is_alnum, is_digit, is_upper, is_lower.
  rewrite !orb_true_iff, !andb_true_iff, !N.leb_le, !N.eqb_eq. lia.
Qed.

Lemma hex_digit_plain (n : N) : (n < 16)%N -> urlencoded_plain (hex_digit n) = true.
Proof.
  intros H. unfold urlencoded_plain, hex_digit, is_alnum, is_digit, is_upper, is_lower.
  rewrite !orb_true_iff, !andb_true_iff, !N.leb_le, !N.eqb_eq. cmp.
Qed.

Lemma plus_to_space_app (a b : list N) :
  plus_to_space (a ++ b) = plus_to_space a ++ plus_to_space b.
Proof. apply map_app. Qed.

Lemma plus_to_space_escape (b : N) :
  (b < 256)%N -> plus_to_space (percent_encode_byte b) = percent_encode_byte b.
Proof.
  intros Hb. unfold percent_encode_byte, plus_to_space. cbn [map N.eqb Pos.eqb].
  assert (Hh : forall n, (n < 16)%N -> (hex_digit n =? 43)%N = false).
  { intros n Hn. apply N.eqb_neq.
    pose proof (hex_digit_plain n Hn) as Hpl.
    apply urlencoded_plain_facts in Hpl. tauto. }
  rewrite !Hh by lia. reflexivity.
Qed.

Lemma urlencoded_bytes_decode (bs : list N) :
  Forall (fun b => b < 256)%N bs ->
  percent_decode (plus_to_space (flat_map urlencoded_byte bs)) = bs.
Proof.
  induction 1 as [|b bs Hb Hbs IH]; [reflexivity|].
  cbn [flat_map]. rewrite plus_to_space_app.
  unfold urlencoded_byte at 1.
  destruct (N.eqb_spec b 32) as [->|Hsp].
  - change (plus_to_space [43%N]) with [32%N]. cbn [app].
    rewrite percent_decode_plain, IH by discriminate. reflexivity.
  - destruct (urlencoded_plain b) eqn:Hp.
    + apply urlencoded_plain_facts in Hp as (H37 & H43 & _).
      unfold plus_to_space at 1. cbn [map app]. apply N.eqb_neq in H43. rewrite H43.
      rewrite percent_decode_plain, IH; auto.
    + rewrite plus_to_space_escape, percent_decode_escape, IH; auto.
Qed.

(** *** UTF-8 *)

Lemma utf8_continue (st : utf8_state) (b : N) (r : list N) :
  (utf8_lower_boundary st <= b <= utf8_upper_boundary st)%N ->
  utf8_decode_from (Some st) (b :: r) =
  if (utf8_bytes_needed st =? 1)%N
  then (utf8_code_point st * 64 + b mod 64)%N :: utf8_decode_from None r
  else utf8_decode_from
         (Some {| utf8_code_point := utf8_code_point st * 64 + b mod 64;
                  utf8_bytes_needed := utf8_bytes_needed st - 1;
                  utf8_lower_boundary := 0x80;
                  utf8_upper_boundary := 0xBF |}) r.
Proof.
  intros [H1 H2]. cbn [utf8_decode_from].
  apply N.leb_le in H1, H2. now rewrite H1, H2.
Qed.

Lemma utf8_start (b : N) (r : list N) :
  utf8_decode_from None (b :: r) =
  fst (utf8_lead b) ++ utf8_decode_from (snd (utf8_lead b)) r.
Proof. cbn [utf8_decode_from]. now destruct (utf8_lead b). Qed.

Lemma utf8_lead_1 (cp : N) : (cp < 0x80)%N -> utf8_lead cp = ([cp], None).
Proof. intros H; unfold utf8_lead. cmp; reflexivity. Qed.

Lemma utf8_lead_2 (cp : N) :
  (0x80 <= cp < 0x800)%N ->
  utf8_lead (0xC0 + cp / 64) =
  ([], Some {| utf8_code_point := cp / 64; utf8_bytes_needed := 1;
               utf8_lower_boundary := 0x80; utf8_upper_boundary := 0xBF |}).
Proof.
  intros H; unfold utf8_lead. cmp. cbn [andb]. do 3 f_equal. lia.
Qed.

Lemma utf8_lead_3 (cp : N) :
  (0x800 <= cp < 0x10000)%N ->
  utf8_lead (0xE0 + cp / 4096) =
  ([], Some {| utf8_code_point := cp / 4096; utf8_bytes_needed := 2;
               utf8_lower_boundary := if (cp <? 0x1000)%N then 0xA0 else 0x80;
               utf8_upper_boundary := if (0xD000 <=? cp)%N && (cp <? 0xE000)%N
                                      then 0x9F else 0xBF |})%N.
Proof.
  intros H; unfold utf8_lead.
  assert (E1 : (0xE0 + cp / 4096 <=? 0x7F)%N = false) by (apply N.leb_gt; lia).
  assert (E2 : ((0xC2 <=? 0xE0 + cp / 4096) && (0xE0 + cp / 4096 <=? 0xDF))%N = false).
  { apply andb_false_iff; right. apply N.leb_gt; lia. }
  assert (E3 : ((0xE0 <=? 0xE0 + cp / 4096) && (0xE0 + cp / 4096 <=? 0xEF))%N = true).
  { apply andb_true_iff; split; apply N.leb_le; lia. }
  rewrite E1, E2, E3. do 3 f_equal.
  - lia.
  - destruct (N.eqb_spec (0xE0 + cp / 4096) 0xE0), (N.ltb_spec cp 0x1000); auto; lia.
  - destruct (N.eqb_spec (0xE0 + cp / 4096) 0xED), (N.leb_spec 0xD000 cp),
      (N.ltb_spec cp 0xE000); cbn [andb]; auto; lia.
Qed.

Lemma utf8_lead_4 (cp : N) :
  (0x10000 <= cp < 0x110000)%N ->
  utf8_lead (0xF0 + cp / 262144) =
  ([], Some {| utf8_code_point := cp / 262144; utf8_bytes_needed := 3;
               utf8_lower_boundary := if (cp <? 0x40000)%N then 0x90 else 0x80;
               utf8_upper_boundary := if (0x100000 <=? cp)%N then 0x8F else 0xBF |})%N.
Proof.
  intros H; unfold utf8_lead.
  assert (E1 : (0xF0 + cp / 262144 <=? 0x7F)%N = false) by (apply N.leb_gt; lia).
  assert (E2 : ((0xC2 <=? 0xF0 + cp / 262144) && (0xF0 + cp / 262144 <=? 0xDF))%N = false).
  { apply andb_false_iff; right. apply N.leb_gt; lia. }
  assert (E3 : ((0xE0 <=? 0xF0 + cp / 262144) && (0xF0 + cp / 262144 <=? 0xEF))%N = false).
  { apply andb_false_iff; right. apply N.leb_gt; lia. }
  assert (E4 : ((0xF0 <=? 0xF0 + cp / 262144) && (0xF0 + cp / 262144 <=? 0xF4))%N = true).
  { apply andb_true_iff; split; apply N.leb_le; lia. }
  rewrite E1, E2, E3, E4. do 3 f_equal.
  - lia.
  - destruct (N.eqb_spec (0xF0 + cp / 262144) 0xF0), (N.ltb_spec cp 0x40000); auto; lia.
  - destruct (N.eqb_spec (0xF0 + cp / 262144) 0xF4), (N.leb_spec 0x100000 cp); auto; lia.
Qed.

Ltac utf8_fields :=
  cbn [utf8_bytes_needed utf8_code_point utf8_lower_boundary utf8_upper_boundary].

Lemma utf8_decode_scalar (cp : N) (r : list N) :
  scalar cp ->
  utf8_decode_from None (utf8_bytes cp ++ r) = cp :: utf8_decode_from None r.
Proof.
  intros [Hmax Hsur]. unfold utf8_bytes.
  destruct (N.ltb_spec cp 0x80); [|destruct (N.ltb_spec cp 0x800);
    [|destruct (N.ltb_spec cp 0x10000)]]; cbn [app].
  - rewrite utf8_start, utf8_lead_1 by assumption. reflexivity.
  - rewrite utf8_start, utf8_lead_2 by lia. cbn [fst snd app].
    rewrite utf8_continue by (utf8_fields; lia). utf8_fields.
    change (1 =? 1)%N with true. cbv iota. f_equal. lia.
  - rewrite utf8_start, utf8_lead_3 by lia. cbn [fst snd app].
    rewrite utf8_continue.
    2:{ utf8_fields.
        destruct (N.ltb_spec cp 0x1000), (N.leb_spec 0xD000 cp), (N.ltb_spec cp 0xE000);
          cbn [andb]; lia. }
    utf8_fields. change (2 =? 1)%N with false. change (2 - 1)%N with 1%N. cbv iota.
    rewrite utf8_continue by (utf8_fields; lia). utf8_fields.
    change (1 =? 1)%N with true. cbv iota. f_equal. lia.
  - rewrite utf8_start, utf8_lead_4 by lia. cbn [fst snd app].
    rewrite utf8_continue.
    2:{ utf8_fields.
        destruct (N.ltb_spec cp 0x40000), (N.leb_spec 0x100000 cp); lia. }
    utf8_fields. change (3 =? 1)%N with false. change (3 - 1)%N with 2%N. cbv iota.
    rewrite utf8_continue by (utf8_fields; lia). utf8_fields.
    change (2 =? 1)%N with false. change (2 - 1)%N with 1%N. cbv iota.
    rewrite utf8_continue by (utf8_fields; lia). utf8_fields.
    change (1 =? 1)%N with true. cbv iota. f_equal. lia.
Qed.

Lemma utf8_decode_scalars (cps : list N) :
  Forall scalar cps -> utf8_decode_from None (flat_map utf8_bytes cps) = cps.
Proof.
  induction 1 as [|cp cps Hcp Hcps IH]; [reflexivity|].
  cbn [flat_map]. rewrite utf8_decode_scalar, IH; auto.
Qed.

Lemma utf8_bytes_small (cp : N) :
  (cp < 0x110000)%N -> Forall (fun b => b < 256)%N (utf8_bytes cp).
Proof.
  intros H. unfold utf8_bytes.
  destruct (N.ltb_spec cp 0x80); [|destruct (N.ltb_spec cp 0x800);
    [|destruct (N.ltb_spec cp 0x10000)]]; repeat constructor; lia.
Qed.

(** *** UTF-16 *)

Lemma jsstring_ind2 (P : jsstring -> Prop) :
  P [] -> (forall c, P [c]) ->
  (forall c d s, P s -> P (d :: s) -> P (c :: d :: s)) ->
  forall s, P s.
Proof.
  intros H0 H1 H2 s.
  assert (H : P s /\ forall c, P (c :: s)); [|tauto].
  induction s as [|d s [IH1 IH2]]; split; auto.
Qed.

Lemma code_points_scalar (s : jsstring) :
  wf_string s -> Forall scalar (code_points s).
Proof.
  unfold wf_string, scalar.
  induction s as [|c|c d s IH1 IH2] using jsstring_ind2; intros Hwf.
  - constructor.
  - inversion Hwf as [|? ? Hc _]; subst. cbn [code_points].
    unfold is_high_surrogate, is_low_surrogate.
    destruct (N.leb_spec 0xD800 c), (N.leb_spec c 0xDBFF), (N.leb_spec 0xDC00 c),
      (N.leb_spec c 0xDFFF); cbn [andb]; repeat constructor; lia.
  - inversion Hwf as [|? ? Hc Hwf']; subst.
    inversion Hwf' as [|? ? Hd Hwf'']; subst.
    specialize (IH1 Hwf''). specialize (IH2 Hwf').
    cbn [code_points]. cbn [code_points] in IH2.
    destruct (is_high_surrogate c) eqn:Ec.
    + destruct (is_low_surrogate d) eqn:Ed.
      * constructor; auto.
        unfold is_high_surrogate, is_low_surrogate in *.
        apply andb_true_iff in Ec as [E1 E2], Ed as [E3 E4].
        apply N.leb_le in E1, E2, E3, E4. lia.
      * constructor; auto. lia.
    + destruct (is_low_surrogate c) eqn:Ec'.
      * constructor; auto. lia.
      * constructor; auto.
        unfold is_high_surrogate, is_low_surrogate in *.
        apply andb_false_iff in Ec, Ec'. rewrite !N.leb_gt in Ec, Ec'. lia.
Qed.

Lemma utf16_units_code_points (s : jsstring) :
  text s -> flat_map utf16_units (code_points s) = s.
Proof.
  unfold text, wf_string.
  induction s as [|c|c d s IH1 IH2] using jsstring_ind2; intros [Hwf Hwell].
  - reflexivity.
  - inversion Hwf as [|? ? Hc _]; subst. cbn [code_points well_formed] in *.
    destruct (is_high_surrogate c); [discriminate|].
    destruct (is_low_surrogate c); [discriminate|].
    cbn [flat_map]. unfold utf16_units.
    destruct (N.ltb_spec c 0x10000); [reflexivity | lia].
  - inversion Hwf as [|? ? Hc Hwf']; subst.
    inversion Hwf' as [|? ? Hd Hwf'']; subst.
    cbn [code_points]. cbn [well_formed] in Hwell.
    destruct (is_high_surrogate c) eqn:Ec.
    + apply andb_true_iff in Hwell as [Ed Hwell]. rewrite Ed.
      cbn [flat_map]. rewrite IH1 by auto.
      unfold is_high_surrogate, is_low_surrogate in *.
      apply andb_true_iff in Ec as [E1 E2], Ed as [E3 E4].
      apply N.leb_le in E1, E2, E3, E4.
      unfold utf16_units.
      destruct (N.ltb_spec (0x10000 + (c - 0xD800) * 0x400 + (d - 0xDC00)) 0x10000);
        [lia|].
      cbn [app]. f_equal; [lia|]. f_equal. lia.
    + apply andb_true_iff in Hwell as [Ec' Hwell].
      apply negb_true_iff in Ec'. rewrite Ec'.
      cbn [flat_map]. cbn [code_points] in IH2. rewrite IH2 by auto.
      unfold utf16_units. destruct (N.ltb_spec c 0x10000); [reflexivity | lia].
Qed.

Lemma utf8_encode_small (s : jsstring) :
  wf_string s -> Forall (fun b => b < 256)%N (utf8_encode s).
Proof.
  intros H. unfold utf8_encode. apply Forall_flat_map.
  eapply Forall_impl; [|apply code_points_scalar, H].
  intros cp [Hcp _]. now apply utf8_bytes_small.
Qed.

Theorem utf8_decode_encode (s : jsstring) : text s -> utf8_decode (utf8_encode s) = s.
Proof.
  intros H. unfold utf8_decode, utf8_encode.
  rewrite utf8_decode_scalars by (apply code_points_scalar, H).
  now apply utf16_units_code_points.
Qed.

(** A name or a value written by [URLSearchParams] is read back as it was. *)
Theorem urlencoded_decode_serialize (s : jsstring) :
  text s -> urlencoded_decode_string (urlencoded_serialize_string s) = s.
Proof.
  intros H. unfold urlencoded_decode_string, urlencoded_serialize_string.
  rewrite urlencoded_bytes_decode by (apply utf8_encode_small, H).
  now apply utf8_decode_encode.
Qed.

Lemma urlencoded_serialize_units (s : jsstring) :
  wf_string s -> forallb urlencoded_unit (urlencoded_serialize_string s) = true.
Proof.
  intros H. apply utf8_encode_small in H. unfold urlencoded_serialize_string.
  induction H as [|b bs Hb Hbs IH]; [reflexivity|].
  cbn [flat_map]. rewrite forallb_app, IH, andb_true_r.
  unfold urlencoded_byte. destruct (N.eqb_spec b 32); [reflexivity|].
  destruct (urlencoded_plain b) eqn:Hp.
  - cbn [forallb]. unfold urlencoded_unit. now rewrite Hp.
  - unfold percent_encode_byte. cbn [forallb]. unfold urlencoded_unit at 2 3.
    rewrite !hex_digit_plain by lia. reflexivity.
Qed.

(** ** [URLSearchParams]: what [toString] writes, the parser reads back *)

Lemma name_value_split (a b : list N) :
  forallb (fun c => negb (c =? 61)%N) a = true ->
  name_value (a ++ 61%N :: b) = (a, b).
Proof.
  induction a as [|c a IH]; cbn [app name_value forallb]; [reflexivity|].
  rewrite andb_true_iff, negb_true_iff. intros [Hc Ha].
  now rewrite Hc, IH.
Qed.

Lemma split_on_last (sep : N) (p : list N) :
  forallb (fun c => negb (c =? sep)%N) p = true -> split_on sep p = [p].
Proof.
  induction p as [|c p IH]; cbn [split_on forallb]; [reflexivity|].
  rewrite andb_true_iff, negb_true_iff. intros [Hc Hp].
  now rewrite Hc, IH.
Qed.

Lemma split_on_piece (sep : N) (p rest : list N) :
  forallb (fun c => negb (c =? sep)%N) p = true ->
  split_on sep (p ++ sep :: rest) = p :: split_on sep rest.
Proof.
  induction p as [|c p IH]; cbn [app split_on forallb].
  - now rewrite N.eqb_refl.
  - rewrite andb_true_iff, negb_true_iff. intros [Hc Hp].
    now rewrite Hc, IH.
Qed.

Lemma split_on_join (sep : N) (p : list N) (ps : list (list N)) :
  Forall (fun x => forallb (fun c => negb (c =? sep)%N) x = true) (p :: ps) ->
  split_on sep (join [sep] (p :: ps)) = p :: ps.
Proof.
  revert p; induction ps as [|q ps IH]; intros p H.
  - inversion H; subst. now apply split_on_last.
  - inversion H as [|? ? Hp Hps]; subst.
    change (join [sep] (p :: q :: ps)) with (p ++ sep :: join [sep] (q :: ps)).
    rewrite split_on_piece, IH; auto.
Qed.

Lemma urlencoded_unit_facts (c : code_unit) :
  urlencoded_unit c = true -> c <> 61%N /\ c <> 38%N /\ c <> 35%N /\ (32 < c < 127)%N.
Proof.
  unfold urlencoded_unit, urlencoded_plain, is_alnum, is_digit, is_upper, is_lower.
  rewrite !orb_true_iff, !andb_true_iff, !N.leb_le, !N.eqb_eq. lia.
Qed.

Lemma forallb_impl {A} (f g : A -> bool) (l : list A) :
  (forall x, f x = true -> g x = true) -> forallb f l = true -> forallb g l = true.
Proof. rewrite !forallb_forall. auto. Qed.

Lemma serialize_pair_shape (kv : jsstring * jsstring) :
  wf_string (fst kv) -> wf_string (snd kv) ->
  forallb (fun c => negb (c =? 38)%N) (serialize_pair kv) = true /\
  is_empty (serialize_pair kv) = false /\
  forallb query_unit (serialize_pair kv) = true /\
  name_value (serialize_pair kv) =
  (urlencoded_serialize_string (fst kv), urlencoded_serialize_string (snd kv)).
Proof.
  intros Hk Hv. unfold serialize_pair.
  pose proof (urlencoded_serialize_units (fst kv) Hk) as Uk.
  pose proof (urlencoded_serialize_units (snd kv) Hv) as Uv.
  repeat split.
  - rewrite !forallb_app. cbn [forallb N.eqb Pos.eqb negb andb].
    rewrite andb_true_iff; split;
      (eapply forallb_impl; [|eassumption]); intros c Hc;
      apply urlencoded_unit_facts in Hc; apply negb_true_iff, N.eqb_neq; tauto.
  - destruct (urlencoded_serialize_string (fst kv)); reflexivity.
  - rewrite !forallb_app. cbn [forallb andb].
    rewrite andb_true_iff; split.
    + eapply forallb_impl; [|exact Uk]. intros c Hc. unfold query_unit. now rewrite Hc.
    + change (query_unit 61%N) with true. cbn [andb].
      eapply forallb_impl; [|exact Uv]. intros c Hc. unfold query_unit. now rewrite Hc.
  - cbn [app]. apply name_value_split.
    eapply forallb_impl; [|exact Uk]. intros c Hc.
    apply urlencoded_unit_facts in Hc. apply negb_true_iff, N.eqb_neq. tauto.
Qed.

Lemma text_wf (s : jsstring) : text s -> wf_string s.
Proof. now intros [H _]. Qed.

(** The pairs that [toString] wrote are the pairs that the parser reads. *)
Theorem urlencoded_parse_toString (ps : URLSearchParams) :
  text_pairs ps -> urlencoded_parse (toString ps) = ps.
Proof.
  intros H. unfold urlencoded_parse, toString.
  destruct ps as [|kv ps]; [reflexivity|].
  change (map serialize_pair (kv :: ps)) with (serialize_pair kv :: map serialize_pair ps).
  rewrite split_on_join.
  2:{ change (serialize_pair kv :: map serialize_pair ps)
        with (map serialize_pair (kv :: ps)).
      apply Forall_map. eapply Forall_impl; [|exact H].
      intros x [Hk Hv]. apply serialize_pair_shape; now apply text_wf. }
  change (serialize_pair kv :: map serialize_pair ps)
    with (map serialize_pair (kv :: ps)).
  induction H as [|x l [Hk Hv] Hl IH]; [reflexivity|].
  cbn [map filter].
  destruct (serialize_pair_shape x (text_wf _ Hk) (text_wf _ Hv)) as (_ & Hne & _ & Hnv).
  rewrite Hne. cbn [negb map]. rewrite Hnv, IH.
  rewrite !urlencoded_decode_serialize by assumption.
  now destruct x.
Qed.

Lemma toString_units (ps : URLSearchParams) :
  text_pairs ps -> forallb query_unit (toString ps) = true.
Proof.
  unfold toString. induction 1 as [|x l [Hk Hv] Hl IH]; [reflexivity|].
  destruct (serialize_pair_shape x (text_wf _ Hk) (text_wf _ Hv)) as (_ & _ & Hq & _).
  destruct l as [|y l]; [exact Hq|].
  change (join [38%N] (map serialize_pair (x :: y :: l)))
    with (serialize_pair x ++ 38%N :: join [38%N] (map serialize_pair (y :: l))).
  rewrite forallb_app, Hq. cbn [forallb andb]. exact IH.
Qed.

Lemma toString_nonempty (ps : URLSearchParams) :
  ps <> [] -> is_empty (toString ps) = false.
Proof.
  destruct ps as [|x l]; [congruence|]. intros _. unfold toString.
  destruct l as [|y l].
  - cbn [map join]. unfold serialize_pair.
    destruct (urlencoded_serialize_string (fst x)); reflexivity.
  - change (join [38%N] (map serialize_pair (x :: y :: l)))
      with (serialize_pair x ++ 38%N :: join [38%N] (map serialize_pair (y :: l))).
    destruct (serialize_pair x); reflexivity.
Qed.

(** ** [URL]: parsing what [buildUpiUri] writes *)

Lemma query_unit_facts (c : code_unit) :
  query_unit c = true ->
  (32 < c < 127)%N /\ c <> 35%N /\ c <> 34%N /\ c <> 60%N /\ c <> 62%N.
Proof.
  unfold query_unit, urlencoded_unit, urlencoded_plain, is_alnum, is_digit,
    is_upper, is_lower.
  rewrite !orb_true_iff, !andb_true_iff, !N.leb_le, !N.eqb_eq. lia.
Qed.

Lemma drop_while_none (p : code_unit -> bool) (s : jsstring) :
  forallb (fun c => negb (p c)) s = true -> drop_while p s = s.
Proof.
  destruct s as [|c s]; cbn [forallb drop_while]; [reflexivity|].
  rewrite andb_true_iff, negb_true_iff. now intros [-> _].
Qed.

Lemma take_while_all (p : code_unit -> bool) (s : jsstring) :
  forallb p s = true -> take_while p s = s.
Proof.
  induction s as [|c s IH]; cbn [forallb take_while]; [reflexivity|].
  rewrite andb_true_iff. intros [-> H]. now rewrite IH.
Qed.

Lemma forallb_rev {A} (f : A -> bool) (l : list A) :
  forallb f (rev l) = forallb f l.
Proof.
  apply eq_true_iff_eq. rewrite !forallb_forall. split; intros H x Hx; apply H.
  - rewrite <- in_rev. exact Hx.
  - rewrite in_rev. exact Hx.
Qed.

Lemma filter_all {A} (f : A -> bool) (l : list A) :
  forallb f l = true -> filter f l = l.
Proof.
  induction l as [|x l IH]; cbn [forallb filter]; [reflexivity|].
  rewrite andb_true_iff. intros [-> H]. now rewrite IH.
Qed.

Lemma url_clean_id (s : jsstring) :
  forallb (fun c => negb (is_c0_or_space c)) s = true -> url_clean s = s.
Proof.
  intros H. unfold url_clean.
  rewrite (drop_while_none is_c0_or_space s H).
  rewrite drop_while_none by now rewrite forallb_rev.
  rewrite rev_involutive. apply filter_all.
  eapply forallb_impl; [|exact H]. intros c. unfold is_c0_or_space, is_tab_or_newline.
  rewrite !negb_true_iff, !orb_false_iff, N.leb_gt, !N.eqb_neq. lia.
Qed.

Lemma utf8_percent_encode_ascii (escape : N -> bool) (s : jsstring) :
  forallb (fun c => (c <? 128)%N && negb (escape c)) s = true ->
  utf8_percent_encode escape s = s.
Proof.
  unfold utf8_percent_encode, utf8_encode.
  induction s as [|c s IH]; cbn [forallb]; [reflexivity|].
  rewrite !andb_true_iff, negb_true_iff, N.ltb_lt. intros [[Hc He] Hs].
  cbn [code_points]. unfold is_high_surrogate, is_low_surrogate.
  destruct (N.leb_spec 0xD800 c); [lia|]. destruct (N.leb_spec 0xDC00 c); [lia|].
  cbn [andb flat_map]. unfold utf8_bytes at 1.
  destruct (N.ltb_spec c 0x80); [|lia]. cbn [flat_map app]. now rewrite He, IH.
Qed.

Lemma query_of_question (q : jsstring) :
  forallb query_unit q = true -> query_of (63%N :: q) = q.
Proof.
  intros H. unfold query_of. cbn [drop_while is_path_end N.eqb Pos.eqb orb negb].
  rewrite take_while_all.
  - apply utf8_percent_encode_ascii. eapply forallb_impl; [|exact H].
    intros c Hc. apply query_unit_facts in Hc.
    unfold query_set, c0_control_set.
    rewrite andb_true_iff, negb_true_iff, !orb_false_iff, N.ltb_lt, N.leb_gt,
      N.ltb_ge, !N.eqb_neq. lia.
  - eapply forallb_impl; [|exact H]. intros c Hc. apply query_unit_facts in Hc.
    apply negb_true_iff, N.eqb_neq. tauto.
Qed.

(** The URL that [buildUpiUri] writes is parsed into its scheme, its
    action and its query. *)
Lemma new_URL_canonical (engine : Engine) (a : UpiAction) (q : jsstring) :
  forallb query_unit q = true ->
  new_URL engine (lit "upi://" ++ action_name a ++ lit "?" ++ q) =
  Return {| protocol := lit "upi:"; hostname := action_name a; search := q |}.
Proof.
  intros H. unfold new_URL. rewrite url_clean_id.
  2:{ rewrite !forallb_app. rewrite !andb_true_iff.
      split; [reflexivity|]. split; [destruct a; reflexivity|]. split; [reflexivity|].
      eapply forallb_impl; [|exact H]. intros c Hc. apply query_unit_facts in Hc.
      unfold is_c0_or_space. apply negb_true_iff, N.leb_gt. lia. }
  destruct a; cbn -[query_of]; now rewrite query_of_question.
Qed.

(** ** What [normalizedParams] holds *)

Lemma well_formed_skip (c : code_unit) (s : jsstring) :
  is_white_space c = true -> well_formed (c :: s) = well_formed s.
Proof.
  intros H. cbn [well_formed].
  assert (E : is_high_surrogate c = false /\ is_low_surrogate c = false).
  { unfold is_white_space, is_high_surrogate, is_low_surrogate in *.
    rewrite !andb_false_iff, !N.leb_gt.
    rewrite !orb_true_iff, !andb_true_iff, !N.leb_le, !N.eqb_eq in H. lia. }
  destruct E as [-> ->]. reflexivity.
Qed.

Lemma well_formed_trimStart (s : jsstring) :
  well_formed (trimStart s) = well_formed s.
Proof.
  induction s as [|c s IH]; [reflexivity|]. cbn [trimStart].
  destruct (is_white_space c) eqn:E; [|reflexivity].
  now rewrite (well_formed_skip c s E).
Qed.

Lemma trimStart_split (s : jsstring) :
  exists ws, s = ws ++ trimStart s /\ forallb is_white_space ws = true.
Proof.
  induction s as [|c s (ws & E & H)]; [now exists []|]. cbn [trimStart].
  destruct (is_white_space c) eqn:Ec.
  - exists (c :: ws). cbn [app forallb]. rewrite Ec, H. now rewrite <- E.
  - now exists [].
Qed.

Lemma trimEnd_split (s : jsstring) :
  exists ws, s = trimEnd s ++ ws /\ forallb is_white_space ws = true.
Proof.
  unfold trimEnd. destruct (trimStart_split (rev s)) as (ws & E & H).
  exists (rev ws). split; [|now rewrite forallb_rev].
  rewrite <- rev_app_distr, <- E. now rewrite rev_involutive.
Qed.

Lemma well_formed_white_space (ws : jsstring) :
  forallb is_white_space ws = true -> well_formed ws = true.
Proof.
  induction ws as [|w ws IH]; [reflexivity|]. cbn [forallb].
  rewrite andb_true_iff. intros [Hw Hws].
  rewrite (well_formed_skip w ws Hw). auto.
Qed.

Lemma well_formed_drop_tail (s ws : jsstring) :
  forallb is_white_space ws = true -> well_formed (s ++ ws) = well_formed s.
Proof.
  intros H.
  induction s as [|c|c d s IH1 IH2] using jsstring_ind2.
  - now apply well_formed_white_space.
  - cbn [app well_formed]. destruct (is_high_surrogate c).
    + destruct ws as [|w ws]; [reflexivity|].
      cbn [forallb] in H. apply andb_true_iff in H as [Hw _].
      unfold is_white_space, is_low_surrogate in *.
      rewrite !orb_true_iff, !andb_true_iff, !N.leb_le, !N.eqb_eq in Hw.
      destruct (N.leb_spec 0xDC00 w); [|reflexivity].
      destruct (N.leb_spec w 0xDFFF); [lia | reflexivity].
    + now rewrite (well_formed_white_space ws H).
  - cbn [app well_formed]. cbn [app well_formed] in IH2.
    destruct (is_high_surrogate c).
    + now rewrite IH1.
    + now rewrite IH2.
Qed.

Lemma text_trim (s : jsstring) : text s -> text (trim s).
Proof.
  intros [Hwf Hwell]. split; [now apply Forall_trim|].
  unfold trim. destruct (trimEnd_split (trimStart s)) as (ws & E & H).
  rewrite <- (well_formed_drop_tail (trimEnd (trimStart s)) ws H), <- E.
  now rewrite well_formed_trimStart.
Qed.

Lemma Forall_obj_set (P : jsstring * value -> Prop) (n : obj) (k v : jsstring) :
  (forall k', k' = k -> P (k', Some v)) -> Forall P n -> Forall P (obj_set n k v).
Proof.
  intros Hk H. induction H as [|[k' v'] n He Hn IH]; cbn [obj_set].
  - destruct (str_eqb k (lit "__proto__")); constructor; auto.
  - destruct (str_eqb_spec k' k); constructor; auto.
Qed.

Lemma Forall_fold_store (P : jsstring * value -> Prop) (l : list (jsstring * value)) :
  forall n,
    (forall k x v, In (k, x) l -> entry_value k x = Some v -> P (k, Some v)) ->
    Forall P n -> Forall P (fold_left store_entry l n).
Proof.
  induction l as [|[k x] l IH]; intros n Hl Hn; cbn [fold_left]; auto.
  apply IH.
  - intros k' x' v' Hin. apply Hl. now right.
  - unfold store_entry; cbn [fst snd]. destruct (entry_value k x) as [v|] eqn:E; auto.
    apply Forall_obj_set; auto. intros k' ->. apply (Hl k x v); auto. now left.
Qed.

Lemma entry_value_Some (k : jsstring) (x : value) (v : jsstring) :
  entry_value k x = Some v ->
  exists s, x = Some s /\ v = trim s /\ is_empty (trim s) = false
            /\ accepted k (trim s) = true.
Proof.
  unfold entry_value. destruct x as [s|]; [|discriminate].
  destruct (is_empty s); [discriminate|].
  destruct (is_empty (trim s)) eqn:E1; [discriminate|].
  destruct (accepted k (trim s)) eqn:E2; [|discriminate].
  intros [= <-]. eauto.
Qed.

Lemma settled_cu : settled (lit "cu") (lit "INR").
Proof. repeat split. Qed.

Lemma text_lit_cu : text (lit "cu") /\ text (lit "INR").
Proof.
  split; (split; [apply wf_stringb_spec|]); reflexivity.
Qed.

(** Every entry of [normalizedParams] is settled text. *)
Lemma normalizedParams_clean (params : obj) :
  text_obj params -> Forall clean_entry (normalizedParams (validateUpiParams params)).
Proof.
  intros [Hnd Htext]. rewrite validateUpiParams_eq; cbn [normalizedParams].
  assert (Hcore : Forall clean_entry (normalized_core params)).
  { unfold normalized_core. apply Forall_fold_store; [|constructor].
    intros k x v Hin Hv.
    apply (Permutation_in _ (Object_entries_perm params)) in Hin.
    rewrite Forall_forall in Htext. destruct (Htext _ Hin) as [Hk Hx].
    cbn [fst snd] in *.
    apply entry_value_Some in Hv as (s & -> & -> & He & Hacc).
    exists (trim s). cbn [fst snd]. repeat split; auto.
    - apply trim_idempotent.
    - apply Hk.
    - apply Hk.
    - now apply Forall_trim, Hx.
    - now apply text_trim. }
  unfold inject_currency.
  destruct (truthy (obj_get (normalized_core params) (lit "am"))
            && negb (truthy (obj_get (normalized_core params) (lit "cu")))); auto.
  apply Forall_obj_set; auto. intros k' ->.
  exists (lit "INR"). cbn [fst snd]. split; [reflexivity|].
  split; [apply settled_cu|]. apply text_lit_cu.
Qed.

(** ** The query [buildUpiUri] writes *)

Lemma fold_left_append {A B} (f : A -> list B) (step : list B -> A -> list B)
    (l : list A) :
  (forall acc x, step acc x = acc ++ f x) ->
  forall init, fold_left step l init = init ++ flat_map f l.
Proof.
  intros Hstep. induction l as [|x l IH]; intros init; cbn [fold_left flat_map].
  - now rewrite app_nil_r.
  - now rewrite IH, Hstep, <- app_assoc.
Qed.

Lemma build_query_eq (normalized : obj) :
  build_query normalized = ordered_pairs normalized ++ additional_pairs normalized.
Proof.
  unfold build_query, ordered_pairs, additional_pairs.
  rewrite (fold_left_append
             (fun entry : jsstring * value =>
                match snd entry with
                | Some v =>
                    if negb (existsb (str_eqb (fst entry)) orderedKeys)
                       && negb (is_empty v)
                    then [(fst entry, v)] else []
                | None => []
                end)).
  - f_equal.
    rewrite (fold_left_append
               (fun key =>
                  match obj_get normalized key with
                  | Some v => if is_empty v then [] else [(key, v)]
                  | None => []
                  end)); [reflexivity|].
    intros acc key. unfold append_ordered, append.
    destruct (obj_get normalized key) as [v|]; [|now rewrite app_nil_r].
    destruct (is_empty v); [now rewrite app_nil_r | reflexivity].
  - intros acc [key [v|]]; unfold append_additional, append; cbn [fst snd];
      [|now rewrite app_nil_r].
    destruct (negb (existsb (str_eqb key) orderedKeys) && negb (is_empty v));
      [reflexivity | now rewrite app_nil_r].
Qed.

Lemma in_ordered_pairs (n : obj) (k v : jsstring) :
  In (k, v) (ordered_pairs n) <->
  In k orderedKeys /\ obj_get n k = Some v /\ is_empty v = false.
Proof.
  unfold ordered_pairs. rewrite in_flat_map. split.
  - intros (key & Hkey & Hin). destruct (obj_get n key) as [w|] eqn:E; [|destruct Hin].
    destruct (is_empty w) eqn:Ew; [destruct Hin|].
    destruct Hin as [[= <- <-]|[]]. auto.
  - intros (Hk & Hg & Hv). exists k. split; auto. rewrite Hg, Hv. now left.
Qed.

Lemma in_additional_pairs (n : obj) (k v : jsstring) :
  In (k, v) (additional_pairs n) <->
  In (k, Some v) (Object_entries n) /\ ~ In k orderedKeys /\ is_empty v = false.
Proof.
  unfold additional_pairs. rewrite in_flat_map. split.
  - intros ([key [w|]] & Hkey & Hin); cbn [fst snd] in Hin; [|destruct Hin].
    destruct (existsb (str_eqb key) orderedKeys) eqn:E1; [destruct Hin|].
    destruct (is_empty w) eqn:E2; [destruct Hin|].
    destruct Hin as [[= <- <-]|[]]. apply existsb_str_eqb_false in E1. auto.
  - intros (Hin & Hk & Hv). exists (k, Some v). split; auto. cbn [fst snd].
    apply existsb_str_eqb_false in Hk. rewrite Hk, Hv. now left.
Qed.

Lemma keys_ordered_pairs (n : obj) :
  map fst (ordered_pairs n) = filter (fun k => truthy (obj_get n k)) orderedKeys.
Proof.
  unfold ordered_pairs. induction orderedKeys as [|k l IH]; [reflexivity|].
  cbn [flat_map filter]. rewrite map_app, IH.
  destruct (obj_get n k) as [[|c v]|]; reflexivity.
Qed.

Lemma NoDup_keys_flat_map (g : jsstring * value -> URLSearchParams)
    (l : list (jsstring * value)) :
  (forall e, g e = [] \/ exists v, g e = [(fst e, v)]) ->
  NoDup (map fst l) -> NoDup (map fst (flat_map g l)).
Proof.
  intros Hg. induction l as [|e l IH]; intros Hnd; cbn [flat_map map]; [constructor|].
  inversion Hnd as [|? ? Hout Hnd']; subst.
  destruct (Hg e) as [-> | (v & ->)]; cbn [app map]; auto.
  constructor; auto. intros Hin. apply Hout.
  apply in_map_iff in Hin as ([k w] & Ek & Hin). cbn [fst] in Ek; subst k.
  apply in_flat_map in Hin as (e' & He' & Hin).
  destruct (Hg e') as [E | (v' & E)]; rewrite E in Hin; [destruct Hin|].
  destruct Hin as [[= <- _]|[]]. now apply in_map.
Qed.

Lemma NoDup_keys_build_query (n : obj) :
  NoDup (keys n) -> NoDup (map fst (build_query n)).
Proof.
  intros Hnd. rewrite build_query_eq, map_app. apply NoDup_app.
  - rewrite keys_ordered_pairs. apply NoDup_filter.
    apply distinct_NoDup. reflexivity.
  - unfold additional_pairs. apply NoDup_keys_flat_map.
    + intros [k [v|]]; cbn [fst snd]; auto.
      destruct (negb (existsb (str_eqb k) orderedKeys) && negb (is_empty v)); eauto.
    + now apply NoDup_keys_entries.
  - intros k H1 H2.
    apply in_map_iff in H1 as ([k1 v1] & E1 & H1). cbn [fst] in E1; subst k1.
    apply in_map_iff in H2 as ([k2 v2] & E2 & H2). cbn [fst] in E2; subst k2.
    apply in_ordered_pairs in H1. apply in_additional_pairs in H2. tauto.
Qed.

Lemma in_as_obj (ps : URLSearchParams) (k : jsstring) (x : value) :
  In (k, x) (as_obj ps) <-> exists v, x = Some v /\ In (k, v) ps.
Proof.
  unfold as_obj. rewrite in_map_iff. split.
  - intros ([k' v] & [= <- <-] & Hin). eauto.
  - intros (v & -> & Hin). now exists (k, v).
Qed.

Lemma keys_as_obj (ps : URLSearchParams) : keys (as_obj ps) = map fst ps.
Proof. unfold keys, as_obj. rewrite map_map. reflexivity. Qed.

(** The pairs written are the entries of [normalizedParams], each once. *)
Lemma build_query_perm (n : obj) :
  NoDup (keys n) -> Forall clean_entry n ->
  Permutation (as_obj (build_query n)) n.
Proof.
  intros Hnd Hclean. apply NoDup_Permutation.
  - apply (NoDup_map_inv fst). fold (keys (as_obj (build_query n))).
    rewrite keys_as_obj. now apply NoDup_keys_build_query.
  - now apply (NoDup_map_inv fst).
  - intros [k x]. rewrite in_as_obj, build_query_eq. split.
    + intros (v & -> & Hin). apply in_app_iff in Hin as [Hin | Hin].
      * apply in_ordered_pairs in Hin as (_ & Hg & _). now apply obj_get_Some_In.
      * apply in_additional_pairs in Hin as (Hin & _).
        eapply Permutation_in; [apply Object_entries_perm | exact Hin].
    + intros Hin. rewrite Forall_forall in Hclean.
      destruct (Hclean _ Hin) as (v & Ev & (Hne & _) & _). cbn [fst snd] in *. subst x.
      exists v. split; auto. apply in_app_iff.
      destruct (in_dec (list_eq_dec N.eq_dec) k orderedKeys) as [Hk | Hk].
      * left. apply in_ordered_pairs. repeat split; auto. now apply obj_get_In.
      * right. apply in_additional_pairs. repeat split; auto.
        eapply Permutation_in; [apply Permutation_sym, Object_entries_perm | exact Hin].
Qed.

Lemma entry_errors_nil_accepted (k v : jsstring) :
  is_empty (trim v) = false -> entry_errors (k, Some v) = [] ->
  accepted k (trim v) = true.
Proof.
  intros Hv. unfold entry_errors, accepted; cbn [fst snd].
  rewrite (trim_nonempty v Hv), Hv.
  destruct (rule_for k) as [rule|]; auto.
  destruct (check_rule rule (trim v)); cbn [check_message]; congruence.
Qed.

Lemma clean_entry_errors (e : jsstring * value) : clean_entry e -> entry_errors e = [].
Proof.
  destruct e as [k x]. intros (v & Ex & (Hne & Htrim & Hacc) & _).
  cbn [fst snd] in *. subst x. unfold entry_errors; cbn [fst snd].
  rewrite Htrim, Hne. unfold accepted in Hacc.
  destruct (rule_for k) as [rule|]; auto.
  destruct (check_rule rule v); cbn [check_message]; congruence.
Qed.

Lemma clean_entry_value (k v : jsstring) :
  settled k v -> entry_value k (Some v) = Some v.
Proof.
  intros (Hne & Htrim & Hacc). unfold entry_value. now rewrite Htrim, Hne, Hacc.
Qed.

Lemma flat_map_nil {A B} (f : A -> list B) (l : list A) :
  flat_map f l = [] <-> forall x, In x l -> f x = [].
Proof.
  induction l as [|a l IH]; cbn [flat_map]; split; auto.
  - intros _ x [].
  - intros H x [<- | Hx]; apply app_eq_nil in H as [H1 H2]; auto.
    now apply IH.
  - intros H. rewrite (H a) by now left. apply IH. intros x Hx. apply H. now right.
Qed.

(** A valid parameter set has its payee address and name normalized. *)
Lemma valid_required (params : obj) (k : jsstring) :
  NoDup (keys params) ->
  isValid (validateUpiParams params) = true ->
  k = lit "pa" \/ k = lit "pn" ->
  exists v, obj_get params k = Some v /\ is_empty (trim v) = false /\
            obj_get (normalizedParams (validateUpiParams params)) k = Some (trim v).
Proof.
  intros Hnd Hvalid Hk. apply isValid_errors in Hvalid.
  rewrite validateUpiParams_eq in Hvalid. cbn [errors] in Hvalid.
  apply app_eq_nil in Hvalid as [Hreq Hent].
  assert (Hmiss : missing params k = false).
  { unfold required_errors in Hreq. apply app_eq_nil in Hreq as [H1 H2].
    destruct Hk as [-> | ->].
    - destruct (missing params (lit "pa")); [discriminate | reflexivity].
    - destruct (missing params (lit "pn")); [discriminate | reflexivity]. }
  unfold missing in Hmiss. destruct (obj_get params k) as [v|] eqn:Hget; [|discriminate].
  apply orb_false_iff in Hmiss as [_ Hv].
  exists v. repeat split; auto.
  assert (Hacc : accepted k (trim v) = true).
  { apply entry_errors_nil_accepted; auto.
    apply (proj1 (flat_map_nil entry_errors (Object_entries params)) Hent).
    eapply Permutation_in; [apply Permutation_sym, Object_entries_perm|].
    now apply obj_get_Some_In. }
  rewrite normalizedParams_get, Hget, entry_value_accepted, Hacc by assumption.
  destruct Hk as [-> | ->]; reflexivity.
Qed.

Lemma inject_currency_am_cu (n : obj) :
  truthy (obj_get (inject_currency n) (lit "am")) = true ->
  truthy (obj_get (inject_currency n) (lit "cu")) = true.
Proof.
  rewrite !inject_currency_get.
  change (str_eqb (lit "am") (lit "cu")) with false.
  change (str_eqb (lit "cu") (lit "cu")) with true. cbn [andb].
  intros ->. cbn [andb]. destruct (truthy (obj_get n (lit "cu"))) eqn:E; auto.
Qed.

Lemma clean_truthy (n : obj) (k : jsstring) (x : value) :
  Forall clean_entry n -> In (k, x) n -> truthy x = true.
Proof.
  intros Hc Hin. rewrite Forall_forall in Hc.
  destruct (Hc _ Hin) as (v & Ex & (Hne & _) & _). cbn [fst snd] in *. subst x.
  destruct v; [discriminate | reflexivity].
Qed.

Lemma truthy_Some (x : value) : truthy x = true -> exists v, x = Some v.
Proof. destruct x as [v|]; [eauto | discriminate]. Qed.

(** The query of a valid parameter set of text is canonical. *)
Theorem build_query_canonical (params : obj) :
  text_obj params ->
  isValid (validateUpiParams params) = true ->
  canonical_query (build_query (normalizedParams (validateUpiParams params))).
Proof.
  intros Htext Hvalid.
  pose proof (normalizedParams_clean params Htext) as Hclean.
  destruct (normalizedParams_keys params) as [Hnd Hproto].
  set (n := normalizedParams (validateUpiParams params)) in *.
  pose proof (build_query_perm n Hnd Hclean) as Hperm.
  assert (Hkeys : forall k, In k (map fst (build_query n)) <-> In k (keys n)).
  { intros k. rewrite <- keys_as_obj. split; apply Permutation_in;
      [|apply Permutation_sym]; now apply Permutation_map. }
  assert (Hhas : forall k v, obj_get n k = Some v -> In k (keys n)).
  { intros k v H. apply obj_get_Some_In in H. now apply (in_map fst) in H. }
  repeat split.
  - now apply NoDup_keys_build_query.
  - now rewrite Hkeys.
  - rewrite Forall_forall in *. intros e He. apply Hclean.
    eapply Permutation_in; eauto.
  - apply Hkeys. destruct (valid_required params (lit "pa") (proj1 Htext) Hvalid)
      as (v & _ & _ & H); eauto.
  - apply Hkeys. destruct (valid_required params (lit "pn") (proj1 Htext) Hvalid)
      as (v & _ & _ & H); eauto.
  - rewrite !Hkeys. intros Ham.
    apply in_map_iff in Ham as ([k x] & Ek & Hin). cbn [fst] in Ek; subst k.
    pose proof (clean_truthy n _ x Hclean Hin) as Hx.
    rewrite <- (obj_get_In n (lit "am") x Hnd Hin) in Hx.
    unfold n in Hx |- *. rewrite validateUpiParams_eq in Hx |- *.
    cbn [normalizedParams] in Hx |- *.
    apply inject_currency_am_cu in Hx. apply truthy_Some in Hx as (c & Hc).
    apply obj_get_Some_In in Hc. now apply (in_map fst) in Hc.
Qed.

(** ** Parsing a canonical URI *)

Lemma fold_obj_set_fresh (ps : URLSearchParams) : forall n,
  NoDup (keys n ++ map fst ps) -> ~ In proto (map fst ps) ->
  fold_left (fun (o : obj) kv => obj_set o (fst kv) (snd kv)) ps n = n ++ as_obj ps.
Proof.
  induction ps as [|[k v] ps IH]; intros n Hnd Hp; cbn [fold_left as_obj map fst snd].
  - now rewrite app_nil_r.
  - cbn [map fst] in Hnd, Hp.
    rewrite obj_set_fresh.
    + rewrite IH.
      * now rewrite <- app_assoc.
      * unfold keys. rewrite map_app. cbn [map fst]. now rewrite <- app_assoc.
      * intros H; apply Hp; now right.
    + apply NoDup_remove_2 in Hnd. intros H; apply Hnd. apply in_app_iff; now left.
    + intros ->. apply Hp. now left.
Qed.

Lemma fold_store_fresh (l : list (jsstring * value)) : forall n,
  NoDup (keys n ++ keys l) -> ~ In proto (keys l) -> Forall clean_entry l ->
  fold_left store_entry l n = n ++ l.
Proof.
  induction l as [|[k x] l IH]; intros n Hnd Hp Hc; cbn [fold_left].
  - now rewrite app_nil_r.
  - inversion Hc as [|? ? (v & Ex & Hs & _) Hc']; subst. cbn [fst snd] in *. subst x.
    unfold store_entry; cbn [fst snd]. rewrite (clean_entry_value k v Hs).
    cbn [keys map fst] in Hnd, Hp.
    rewrite obj_set_fresh.
    + rewrite IH; auto.
      * now rewrite <- app_assoc.
      * unfold keys in *. rewrite map_app. cbn [map fst]. now rewrite <- app_assoc.
      * intros H; apply Hp; now right.
    + apply NoDup_remove_2 in Hnd. intros H; apply Hnd. apply in_app_iff; now left.
    + intros ->. apply Hp. now left.
Qed.

Lemma canonical_text (ps : URLSearchParams) : canonical_query ps -> text_pairs ps.
Proof.
  intros (_ & _ & Hc & _). unfold text_pairs, as_obj in *.
  rewrite Forall_map in Hc. eapply Forall_impl; [|exact Hc].
  intros [k v] (w & [= <-] & _ & Hk & Hv). cbn [fst snd] in *. auto.
Qed.

Lemma canonical_get (ps : URLSearchParams) (k : jsstring) :
  canonical_query ps -> In k (map fst ps) ->
  exists v, obj_get (as_obj ps) k = Some v /\ settled k v.
Proof.
  intros (Hnd & _ & Hc & _) Hin.
  apply in_map_iff in Hin as ([k' v] & Ek & Hin). cbn [fst] in Ek; subst k'.
  exists v. split.
  - apply obj_get_In; [now rewrite keys_as_obj|]. apply in_as_obj; eauto.
  - rewrite Forall_forall in Hc.
    destruct (Hc (k, Some v)) as (w & [= <-] & Hs & _); auto.
    apply in_as_obj; eauto.
Qed.

(** Validating the object read from a canonical query changes nothing
    but the order of enumeration. *)
Lemma validate_canonical (ps : URLSearchParams) :
  canonical_query ps ->
  validateUpiParams (as_obj ps) =
  {| isValid := true; errors := []; normalizedParams := Object_entries (as_obj ps) |}.
Proof.
  intros Hcan. pose proof Hcan as (Hnd & Hproto & Hclean & Hpa & Hpn & Hamcu).
  assert (Hnd' : NoDup (keys (as_obj ps))) by now rewrite keys_as_obj.
  assert (Hcl : Forall clean_entry (Object_entries (as_obj ps))).
  { rewrite Forall_forall in *. intros e He. apply Hclean.
    eapply Permutation_in; [apply Object_entries_perm | exact He]. }
  assert (Hreq : required_errors (as_obj ps) = []).
  { unfold required_errors, missing.
    destruct (canonical_get ps (lit "pa") Hcan Hpa) as (v1 & -> & H1 & T1 & _).
    destruct (canonical_get ps (lit "pn") Hcan Hpn) as (v2 & -> & H2 & T2 & _).
    now rewrite T1, T2, H1, H2. }
  assert (Herr : flat_map entry_errors (Object_entries (as_obj ps)) = []).
  { apply flat_map_nil. intros e He. apply clean_entry_errors.
    rewrite Forall_forall in Hcl. auto. }
  assert (Hcore : normalized_core (as_obj ps) = Object_entries (as_obj ps)).
  { unfold normalized_core. rewrite fold_store_fresh; auto.
    - cbn [keys map app]. now apply NoDup_keys_entries.
    - intros H. apply Hproto. rewrite <- keys_as_obj.
      eapply Permutation_in; [|exact H].
      apply Permutation_map, Object_entries_perm. }
  rewrite validateUpiParams_eq, Hreq, Herr, Hcore. cbn [app is_empty_list].
  f_equal. unfold inject_currency. rewrite !obj_get_entries by assumption.
  destruct (truthy (obj_get (as_obj ps) (lit "am"))) eqn:Eam; [|reflexivity].
  apply truthy_Some in Eam as (a & Ea). apply obj_get_Some_In in Ea.
  apply (in_map fst) in Ea. fold (keys (as_obj ps)) in Ea. rewrite keys_as_obj in Ea.
  destruct (canonical_get ps (lit "cu") Hcan (Hamcu Ea)) as (c & -> & Hc & _).
  destruct c; [discriminate | reflexivity].
Qed.

Lemma action_of_name (a : UpiAction) : action_of (action_name a) = Some a.
Proof. destruct a; reflexivity. Qed.

Theorem parseUpiUri_canonical (engine : Engine) (a : UpiAction) (ps : URLSearchParams) :
  canonical_query ps ->
  parseUpiUri engine (lit "upi://" ++ action_name a ++ lit "?" ++ toString ps) =
  Return {| Parsed.action := a; Parsed.params := Object_entries (as_obj ps) |}.
Proof.
  intros Hcan. pose proof (canonical_text ps Hcan) as Htext.
  unfold parseUpiUri.
  rewrite new_URL_canonical by now apply toString_units.
  cbn [bind try_catch protocol hostname]. rewrite str_eqb_refl. cbn [negb].
  rewrite action_of_name. unfold searchParams. cbn [search].
  rewrite urlencoded_parse_toString by assumption.
  destruct Hcan as (Hnd & Hproto & Hrest).
  rewrite fold_obj_set_fresh by (cbn [keys map app]; assumption). cbn [app].
  rewrite validate_canonical by (repeat split; tauto || assumption).
  reflexivity.
Qed.

(** ** C1: the round trip *)

(** C1, as stated, fails: a payee name that is an unpaired surrogate
    validates, is written as U+FFFD, and is read back as U+FFFD. *)
Lemma C1_counterexample :
  wf_obj params_lone_surrogate /\
  isValid (validateUpiParams params_lone_surrogate) = true /\
  buildUpiUri params_lone_surrogate pay =
    Return (lit "upi://pay?pa=test%40upi&pn=%EF%BF%BD") /\
  exists r,
    parseUpiUri node_engine (lit "upi://pay?pa=test%40upi&pn=%EF%BF%BD") = Return r /\
    obj_get (Parsed.params r) (lit "pn") = Some [0xFFFD%N] /\
    obj_get (normalizedParams (validateUpiParams params_lone_surrogate)) (lit "pn")
    = Some [0xD800%N].
Proof.
  split; [apply wf_objb_spec; vm_compute; reflexivity|].
  split; [vm_compute; reflexivity|]. split; [vm_compute; reflexivity|].
  eexists. split; [vm_compute; reflexivity|]. split; vm_compute; reflexivity.
Qed.

Lemma buildUpiUri_valid (params : obj) (a : UpiAction) :
  text_obj params ->
  isValid (validateUpiParams params) = true ->
  canonical_query (build_query (normalizedParams (validateUpiParams params))) /\
  buildUpiUri params a =
  Return (lit "upi://" ++ action_name a ++ lit "?"
          ++ toString (build_query (normalizedParams (validateUpiParams params)))).
Proof.
  intros Htext Hvalid.
  pose proof (build_query_canonical params Htext Hvalid) as Hcan.
  split; [exact Hcan|].
  unfold buildUpiUri. rewrite Hvalid. cbn [negb].
  rewrite toString_nonempty; [reflexivity|].
  destruct Hcan as (_ & _ & _ & Hpa & _).
  intros E. rewrite E in Hpa. destruct Hpa.
Qed.

(** C1, amended: for every parameter set [p] of text (distinct keys; no
    unpaired surrogate in a key or a value) such that
    [validateUpiParams(p).isValid] is true, and every action [a],
    [parseUpiUri(buildUpiUri(p, a))] succeeds, its action is [a], and its
    params equal [validateUpiParams(p).normalizedParams]: they hold the
    same properties, and so give the same value under every key. *)
Theorem C1_round_trip (engine : Engine) (p : obj) (a : UpiAction) :
  text_obj p ->
  isValid (validateUpiParams p) = true ->
  exists uri r,
    buildUpiUri p a = Return uri /\
    parseUpiUri engine uri = Return r /\
    Parsed.action r = a /\
    Permutation (Parsed.params r) (normalizedParams (validateUpiParams p)) /\
    forall k, obj_get (Parsed.params r) k
              = obj_get (normalizedParams (validateUpiParams p)) k.
Proof.
  intros Htext Hvalid.
  destruct (buildUpiUri_valid p a Htext Hvalid) as [Hcan Hbuild].
  destruct (normalizedParams_keys p) as [Hnd _].
  pose proof (normalizedParams_clean p Htext) as Hclean.
  set (n := normalizedParams (validateUpiParams p)) in *.
  assert (Hperm : Permutation (Object_entries (as_obj (build_query n))) n).
  { eapply perm_trans; [apply Object_entries_perm | now apply build_query_perm]. }
  eexists. eexists. split; [exact Hbuild|].
  split; [now apply parseUpiUri_canonical|].
  cbn [Parsed.action Parsed.params]. split; [reflexivity|]. split; [exact Hperm|].
  intros k. symmetry. apply obj_get_perm; auto. now apply Permutation_sym.
Qed.

Lemma textb_spec (s : jsstring) : textb s = true -> text s.
Proof.
  unfold textb, text. rewrite andb_true_iff. intros [H1 H2].
  split; [now apply wf_stringb_spec | assumption].
Qed.

Lemma text_objb_spec (o : obj) : text_objb o = true -> text_obj o.
Proof.
  unfold text_objb, text_obj. rewrite andb_true_iff, forallb_forall, Forall_forall.
  intros [H1 H2]. split; [now apply distinct_NoDup|].
  intros [k v] Hin. specialize (H2 _ Hin). cbn [fst snd] in *.
  apply andb_true_iff in H2 as [Hk Hv]. split; [now apply textb_spec|].
  destruct v; cbn in *; auto. now apply textb_spec.
Qed.

Lemma C1_witness :
  exists uri r,
    buildUpiUri params_with_amount mandate = Return uri /\
    parseUpiUri node_engine uri = Return r /\
    Parsed.action r = mandate /\
    Permutation (Parsed.params r)
                (normalizedParams (validateUpiParams params_with_amount)) /\
    forall k, obj_get (Parsed.params r) k
              = obj_get (normalizedParams (validateUpiParams params_with_amount)) k.
Proof.
  apply (C1_round_trip node_engine params_with_amount mandate).
  - apply text_objb_spec. vm_compute. reflexivity.
  - vm_compute. reflexivity.
Defined.

(** ** The link builder, step by step *)

Lemma buildAppLink_eq (engine : Engine) (appsData : list UpiApp.t) (options : Options.t) :
  buildAppLink engine appsData options =
  if negb (truthy (Options.upiUri options))
     && negb (match Options.upiParams options with Some _ => true | None => false end)
  then Throw (Error (lit "Either upiUri or upiParams must be provided"))
  else
    match getApp appsData (Options.appId options) with
    | None => Throw (Error (lit "Unknown app ID: " ++ Options.appId options))
    | Some app =>
        upiQuery <- upi_query engine options ;;
        match Options.platform options with
        | android =>
            url <- buildAndroidIntentUrl engine appsData (Options.appId options)
                     upiQuery (default pay (Options.action options))
                     (resolved_fallback appsData options) ;;
            Return {| Link.url := url;
                      Link.fallbackUrl := resolved_fallback appsData options;
                      Link.app := app_info (Options.appId options) app;
                      Link.platform := android;
                      Link.action := default pay (Options.action options) |}
        | ios =>
            Return {| Link.url :=
                        buildIosSchemeUrl appsData (Options.appId options) upiQuery
                          (default pay (Options.action options));
                      Link.fallbackUrl := resolved_fallback appsData options;
                      Link.app := app_info (Options.appId options) app;
                      Link.platform := ios;
                      Link.action := default pay (Options.action options) |}
        end
    end.
Proof.
  unfold buildAppLink, upi_query, base_uri, resolved_fallback, app_info.
  destruct (Options.platform options), (truthy (Options.upiUri options)),
    (Options.upiParams options) as [ps|]; cbn [negb andb]; try reflexivity;
    (destruct (getApp appsData (Options.appId options)) as [app|]; [|reflexivity]);
    cbn [bind];
    try (destruct (buildUpiUri ps (default pay (Options.action options))) as [baseUri|e];
         cbn [bind]; [|reflexivity]);
    match goal with
    | |- context [extractQueryFromUri ?e ?b] =>
        destruct (extractQueryFromUri e b) as [q|e']
    end; cbn [bind fst snd]; try reflexivity;
    match goal with
    | |- context [buildAndroidIntentUrl ?a ?b ?c ?d ?e ?f] =>
        destruct (buildAndroidIntentUrl a b c d e f)
    end; reflexivity.
Qed.

Lemma fold_append_entry (ps : URLSearchParams) :
  Forall clean_entry (as_obj ps) -> fold_left append_entry (as_obj ps) [] = ps.
Proof.
  intros Hc.
  rewrite (fold_left_append
             (fun entry : jsstring * value =>
                match snd entry with
                | Some v => if is_empty v then [] else [(fst entry, v)]
                | None => []
                end)).
  - cbn [app]. induction ps as [|[k v] ps IH]; [reflexivity|].
    cbn [as_obj map flat_map fst snd] in *.
    inversion Hc as [|? ? (w & Ew & (Hne & _) & _) Hc']; subst.
    cbn [fst snd] in Ew, Hne. injection Ew as <-.
    rewrite Hne. cbn [app]. f_equal. now apply IH.
  - intros acc [k [v|]]; unfold append_entry, append; cbn [fst snd];
      [|now rewrite app_nil_r].
    destruct (is_empty v); [now rewrite app_nil_r | reflexivity].
Qed.

(** The query extracted from a canonical URI whose keys are not array
    indices is the query of that URI. *)
Lemma extractQueryFromUri_canonical (engine : Engine) (a : UpiAction)
    (ps : URLSearchParams) :
  canonical_query ps -> forallb is_named (as_obj ps) = true ->
  extractQueryFromUri engine (lit "upi://" ++ action_name a ++ lit "?" ++ toString ps)
  = Return (toString ps).
Proof.
  intros Hcan Hnamed. unfold extractQueryFromUri.
  rewrite parseUpiUri_canonical by assumption.
  cbn [bind try_catch Parsed.params].
  rewrite !(Object_entries_named (as_obj ps) Hnamed).
  rewrite fold_append_entry; [reflexivity|]. apply Hcan.
Qed.

Lemma normalizedParams_key_origin (params : obj) (k : jsstring) :
  NoDup (keys params) ->
  truthy (obj_get (normalizedParams (validateUpiParams params)) k) = true ->
  In k (keys params) \/ k = lit "cu".
Proof.
  intros Hnd. rewrite normalizedParams_get by assumption.
  destruct (str_eqb_spec k (lit "cu")) as [->|Hk]; [now right|]. cbn [andb].
  destruct (str_eqb k proto); [discriminate|].
  intros H. apply truthy_Some in H as (v & Hv).
  apply entry_value_Some in Hv as (s & Hs & _).
  left. apply obj_get_Some_In in Hs. now apply (in_map fst) in Hs.
Qed.

Lemma is_named_key (k : jsstring) (x y : value) : is_named (k, x) = is_named (k, y).
Proof. reflexivity. Qed.

Lemma build_query_named (params : obj) :
  text_obj params -> forallb is_named params = true ->
  forallb is_named
    (as_obj (build_query (normalizedParams (validateUpiParams params)))) = true.
Proof.
  intros Htext Hnamed.
  pose proof (normalizedParams_clean params Htext) as Hclean.
  destruct (normalizedParams_keys params) as [Hnd _].
  set (n := normalizedParams (validateUpiParams params)) in *.
  apply forallb_forall. intros [k x] Hin.
  apply (Permutation_in _ (build_query_perm n Hnd Hclean)) in Hin.
  pose proof (clean_truthy n k x Hclean Hin) as Hx.
  rewrite <- (obj_get_In n k x Hnd Hin) in Hx.
  apply normalizedParams_key_origin in Hx; [|apply Htext].
  destruct Hx as [Hk | ->]; [|reflexivity].
  apply in_map_iff in Hk as ([k' y] & Ek & Hy). cbn [fst] in Ek; subst k'.
  rewrite forallb_forall in Hnamed. rewrite (is_named_key k x y). now apply Hnamed.
Qed.

(** ** C2: the generic entry on Android *)

(** C2, as stated, fails: a valid URI whose [@] is not escaped comes back
    with the [@] escaped. *)
Lemma C2_counterexample :
  (exists r, parseUpiUri node_engine plain_at_uri = Return r) /\
  exists link,
    buildAppLink node_engine sample_apps (link_options (lit "generic") plain_at_uri android)
    = Return link /\
    Link.url link = lit "upi://pay?pa=test%40upi&pn=Test" /\
    Link.url link <> plain_at_uri.
Proof.
  split; [eexists; vm_compute; reflexivity|].
  eexists. split; [vm_compute; reflexivity|].
  split; [vm_compute; reflexivity|]. vm_compute. discriminate.
Qed.

Lemma parseUpiUri_truthy (engine : Engine) (u : jsstring) (r : Parsed.t) :
  parseUpiUri engine u = Return r -> truthy (Some u) = true.
Proof. destruct u as [|c u]; [discriminate | reflexivity]. Qed.

(** C2, amended: for every URI [u] that [buildUpiUri(p, a)] returns for a
    valid parameter set [p] of text none of whose keys is an array index,
    [buildAppLink({appId: 'generic', upiUri: u, platform: 'android',
    action: a})] returns a link whose [url] is [u] unchanged, whatever the
    other options, provided the registry has a generic entry without an
    Android package.  For a valid URI in general, that is for every string
    [u] that [parseUpiUri] accepts, the call returns a link whose [url] is
    [upi://<action>?<query>], with the requested action (by default [pay])
    and, as query, the normalized parameters of [u] that are not empty,
    written again by [URLSearchParams]. *)
Theorem C2_generic_android (engine : Engine) (appsData : list UpiApp.t)
    (generic : UpiApp.t) (upiParams : option obj) (action : option UpiAction)
    (fallbackUrl : option jsstring) (includeFallback : option bool) :
  getApp appsData (lit "generic") = Some generic ->
  truthy (UpiApp.androidPackage generic) = false ->
  (forall (p : obj) (a : UpiAction) (u : jsstring),
     text_obj p ->
     forallb is_named p = true ->
     isValid (validateUpiParams p) = true ->
     buildUpiUri p a = Return u ->
     default pay action = a ->
     exists link,
       buildAppLink engine appsData
         {| Options.appId := lit "generic";
            Options.upiUri := Some u;
            Options.upiParams := upiParams;
            Options.platform := android;
            Options.action := action;
            Options.fallbackUrl := fallbackUrl;
            Options.includeFallback := includeFallback |} = Return link /\
       Link.url link = u) /\
  (forall (u : jsstring) (r : Parsed.t),
     parseUpiUri engine u = Return r ->
     exists link,
       buildAppLink engine appsData
         {| Options.appId := lit "generic";
            Options.upiUri := Some u;
            Options.upiParams := upiParams;
            Options.platform := android;
            Options.action := action;
            Options.fallbackUrl := fallbackUrl;
            Options.includeFallback := includeFallback |} = Return link /\
       Link.url link
       = lit "upi://" ++ action_name (default pay action) ++ lit "?"
         ++ toString (fold_left append_entry (Object_entries (Parsed.params r)) [])).
Proof.
  intros Hget Hpkg.
  assert (Hany : forall u q,
            truthy (Some u) = true -> extractQueryFromUri engine u = Return q ->
            exists link,
              buildAppLink engine appsData
                {| Options.appId := lit "generic";
                   Options.upiUri := Some u;
                   Options.upiParams := upiParams;
                   Options.platform := android;
                   Options.action := action;
                   Options.fallbackUrl := fallbackUrl;
                   Options.includeFallback := includeFallback |} = Return link /\
              Link.url link = lit "upi://" ++ action_name (default pay action) ++ lit "?" ++ q).
  { intros u q Ht Hx. rewrite buildAppLink_eq.
    cbn [Options.appId Options.upiUri Options.upiParams Options.platform Options.action].
    rewrite Hget, Ht.
    unfold upi_query, base_uri. cbn [Options.upiUri Options.upiParams Options.action].
    rewrite Ht. cbn [negb andb default bind]. rewrite Hx. cbn [bind].
    unfold buildAndroidIntentUrl. cbv zeta. rewrite Hget, Hpkg. cbn [negb bind].
    eexists. split; reflexivity. }
  split.
  - intros p a u Htext Hnamed Hvalid Hbuild Hact.
    destruct (buildUpiUri_valid p a Htext Hvalid) as [Hcan Hbuild'].
    pose proof (build_query_named p Htext Hnamed) as Hq.
    set (ps := build_query (normalizedParams (validateUpiParams p))) in *.
    assert (Hu : u = lit "upi://" ++ action_name a ++ lit "?" ++ toString ps)
      by congruence.
    assert (Ht : truthy (Some u) = true) by (rewrite Hu; reflexivity).
    assert (Hx : extractQueryFromUri engine u = Return (toString ps)).
    { rewrite Hu. now apply extractQueryFromUri_canonical. }
    destruct (Hany u (toString ps) Ht Hx) as (link & Hlink & Hurl).
    exists link. split; [exact Hlink|]. rewrite Hurl, Hact. now rewrite Hu.
  - intros u r Hparse. apply Hany.
    + exact (parseUpiUri_truthy engine u r Hparse).
    + unfold extractQueryFromUri. rewrite Hparse. reflexivity.
Qed.

Lemma C2_witness :
  (exists link,
     buildAppLink node_engine sample_apps (link_options (lit "generic") testUpiUri android)
     = Return link /\
     Link.url link = testUpiUri) /\
  (exists link,
     buildAppLink node_engine sample_apps (link_options (lit "generic") plain_at_uri android)
     = Return link /\
     Link.url link = lit "upi://pay?pa=test%40upi&pn=Test").
Proof.
  assert (H1 : getApp sample_apps (lit "generic") = Some generic_app)
    by (vm_compute; reflexivity).
  assert (H2 : truthy (UpiApp.androidPackage generic_app) = false)
    by (vm_compute; reflexivity).
  destruct (C2_generic_android node_engine sample_apps generic_app None None None None
              H1 H2) as [Hbuilt Hvalid].
  split.
  - refine (Hbuilt params_with_amount pay testUpiUri _ _ _ _ _).
    + apply text_objb_spec. vm_compute. reflexivity.
    + vm_compute. reflexivity.
    + vm_compute. reflexivity.
    + vm_compute. reflexivity.
    + reflexivity.
  - assert (Hp : parseUpiUri node_engine plain_at_uri
                 = Return {| Parsed.action := pay;
                             Parsed.params := [(lit "pa", Some (lit "test@upi"));
                                               (lit "pn", Some (lit "Test"))] |})
      by (vm_compute; reflexivity).
    destruct (Hvalid plain_at_uri _ Hp) as (link & Hlink & Hurl).
    exists link. split; [exact Hlink|]. rewrite Hurl. vm_compute. reflexivity.
Defined.

(** ** C5: the order of the fields *)

(** C5, as stated, fails in its particular case: the value written is
    the trimmed value, so a payee name with a leading space is not written
    as the encoding of the name that was given. *)
Lemma C5_counterexample :
  isValid (validateUpiParams params_padded) = true /\
  keys params_padded = [lit "pa"; lit "pn"] /\
  buildUpiUri params_padded pay = Return (lit "upi://pay?pa=test%40upi&pn=Test+User") /\
  buildUpiUri params_padded pay <>
  Return (lit "upi://pay?pa=" ++ urlencoded_serialize_string (lit "test@upi")
          ++ lit "&pn=" ++ urlencoded_serialize_string (lit " Test User")).
Proof.
  split; [vm_compute; reflexivity|]. split; [reflexivity|].
  split; [vm_compute; reflexivity|]. vm_compute. discriminate.
Qed.

Lemma normalizedParams_truthy (params : obj) :
  Forall (fun e => truthy (snd e) = true) (normalizedParams (validateUpiParams params)).
Proof.
  rewrite validateUpiParams_eq; cbn [normalizedParams].
  assert (Hcore : Forall (fun e => truthy (snd e) = true) (normalized_core params)).
  { unfold normalized_core. apply Forall_fold_store; [|constructor].
    intros k x v _ Hv. apply entry_value_Some in Hv as (s & _ & -> & He & _).
    cbn [snd]. destruct (trim s); [discriminate | reflexivity]. }
  unfold inject_currency.
  destruct (truthy (obj_get (normalized_core params) (lit "am"))
            && negb (truthy (obj_get (normalized_core params) (lit "cu")))); auto.
  apply Forall_obj_set; auto.
Qed.

Lemma keys_additional_pairs (n : obj) :
  Forall (fun e => truthy (snd e) = true) n ->
  map fst (additional_pairs n) =
  filter (fun k => negb (existsb (str_eqb k) orderedKeys)) (keys (Object_entries n)).
Proof.
  intros Hn.
  assert (H : Forall (fun e => truthy (snd e) = true) (Object_entries n)).
  { rewrite Forall_forall in *. intros e He. apply Hn.
    eapply Permutation_in; [apply Object_entries_perm | exact He]. }
  unfold additional_pairs. induction H as [|[k x] l Hx Hl IH]; [reflexivity|].
  cbn [flat_map keys map filter fst snd] in *. rewrite map_app, IH.
  destruct x as [[|c v]|]; try discriminate. cbn [is_empty negb].
  rewrite andb_true_r.
  destruct (negb (existsb (str_eqb k) orderedKeys)); reflexivity.
Qed.

Lemma in_build_query (n : obj) (k v : jsstring) :
  NoDup (keys n) -> In (k, v) (build_query n) ->
  obj_get n k = Some v /\ is_empty v = false.
Proof.
  intros Hnd. rewrite build_query_eq, in_app_iff, in_ordered_pairs, in_additional_pairs.
  intros [(_ & H1 & H2) | (H1 & _ & H2)]; split; auto.
  apply obj_get_In; auto.
  eapply Permutation_in; [apply Object_entries_perm | exact H1].
Qed.

(** With only [pa] and [pn] in the input, nothing else is normalized. *)
Lemma only_pa_pn_get (p : obj) (k : jsstring) :
  NoDup (keys p) ->
  (forall k', In k' (keys p) -> k' = lit "pa" \/ k' = lit "pn") ->
  k <> lit "pa" -> k <> lit "pn" ->
  obj_get (normalizedParams (validateUpiParams p)) k = None.
Proof.
  intros Hnd Honly H1 H2.
  assert (Hout : forall k', k' <> lit "pa" -> k' <> lit "pn" -> obj_get p k' = None).
  { intros k' Ha Hb. apply obj_get_absent. intros Hin.
    destruct (Honly k' Hin); congruence. }
  rewrite normalizedParams_get by assumption.
  rewrite (Hout (lit "am")) by discriminate. cbn [entry_value truthy].
  rewrite andb_false_r. cbn [andb]. rewrite (Hout k H1 H2). cbn [entry_value].
  destruct (str_eqb k proto); reflexivity.
Qed.

Lemma serialize_pa_pn :
  urlencoded_serialize_string (lit "pa") = lit "pa" /\
  urlencoded_serialize_string (lit "pn") = lit "pn".
Proof. split; vm_compute; reflexivity. Qed.

(** C5, amended: for every parameter set that validates, [buildUpiUri]
    returns [upi://<action>?<query>], where the query holds first the
    recognized fields that are set in the normalized parameters, in the
    order [pa, pn, am, cu, tr, tn, url, mode, orgid, mc, tid, sign], then
    the other keys of the normalized parameters in their order of
    enumeration, each with its normalized value; in particular, for any
    valid set containing only [pa] and [pn] the output is exactly
    [upi://pay?pa=<enc(trimmed pa)>&pn=<enc(trimmed pn)>], with no [cu]. *)
Theorem C5_field_order (p : obj) (a : UpiAction) :
  NoDup (keys p) ->
  isValid (validateUpiParams p) = true ->
  let n := normalizedParams (validateUpiParams p) in
  buildUpiUri p a
  = Return (lit "upi://" ++ action_name a ++ lit "?" ++ toString (build_query n)) /\
  map fst (build_query n)
  = filter (fun k => truthy (obj_get n k)) orderedKeys
    ++ filter (fun k => negb (existsb (str_eqb k) orderedKeys))
              (keys (Object_entries n)) /\
  (forall k v, In (k, v) (build_query n) -> obj_get n k = Some v /\ is_empty v = false) /\
  (forall va vn,
     (forall k, In k (keys p) -> k = lit "pa" \/ k = lit "pn") ->
     obj_get p (lit "pa") = Some va -> obj_get p (lit "pn") = Some vn ->
     buildUpiUri p pay
     = Return (lit "upi://pay?pa=" ++ urlencoded_serialize_string (trim va)
               ++ lit "&pn=" ++ urlencoded_serialize_string (trim vn))).
Proof.
  intros Hnd Hvalid n.
  destruct (normalizedParams_keys p) as [Hndn _]. fold n in Hndn.
  destruct (valid_required p (lit "pa") Hnd Hvalid (or_introl eq_refl))
    as (va & Hpa & Hva & Hnpa).
  destruct (valid_required p (lit "pn") Hnd Hvalid (or_intror eq_refl))
    as (vn & Hpn & Hvn & Hnpn).
  fold n in Hnpa, Hnpn.
  assert (Hbuild : forall a',
            buildUpiUri p a'
            = Return (lit "upi://" ++ action_name a' ++ lit "?" ++ toString (build_query n))).
  { intros a'. unfold buildUpiUri. rewrite Hvalid. cbn [negb]. fold n.
    rewrite toString_nonempty; [reflexivity|].
    rewrite build_query_eq. intros E. apply app_eq_nil in E as [E _].
    assert (Hin : In (lit "pa", trim va) (ordered_pairs n)).
    { apply in_ordered_pairs. repeat split; auto. unfold orderedKeys. now left. }
    rewrite E in Hin. destruct Hin. }
  split; [apply Hbuild|]. split.
  { rewrite build_query_eq, map_app, keys_ordered_pairs, keys_additional_pairs;
      [reflexivity | apply normalizedParams_truthy]. }
  split; [intros k v; now apply in_build_query|].
  intros va' vn' Honly Hpa' Hpn'.
  assert (va' = va) by congruence. assert (vn' = vn) by congruence. subst va' vn'.
  rewrite Hbuild, build_query_eq.
  assert (Hnone : forall k, k <> lit "pa" -> k <> lit "pn" -> obj_get n k = None).
  { intros k H1 H2. now apply only_pa_pn_get. }
  assert (Hord : ordered_pairs n = [(lit "pa", trim va); (lit "pn", trim vn)]).
  { unfold ordered_pairs, orderedKeys. cbn [flat_map].
    rewrite Hnpa, Hnpn, Hva, Hvn.
    rewrite !Hnone by discriminate. reflexivity. }
  assert (Hadd : additional_pairs n = []).
  { unfold additional_pairs. apply flat_map_nil. intros [k x] Hin. cbn [fst snd].
    apply (Permutation_in _ (Object_entries_perm n)) in Hin.
    pose proof (obj_get_In n k x Hndn Hin) as Hget.
    destruct (str_eqb_spec k (lit "pa")) as [->|H1];
      [destruct x as [v|]; reflexivity|].
    destruct (str_eqb_spec k (lit "pn")) as [->|H2];
      [destruct x as [v|]; reflexivity|].
    rewrite (Hnone k H1 H2) in Hget. now subst x. }
  rewrite Hord, Hadd. unfold toString, serialize_pair. cbn [map join app fst snd].
  destruct serialize_pa_pn as [-> ->]. rewrite <- !app_assoc. reflexivity.
Qed.

Lemma C5_witness :
  buildUpiUri params_padded pay =
  Return (lit "upi://pay?pa=" ++ urlencoded_serialize_string (trim (lit "test@upi"))
          ++ lit "&pn=" ++ urlencoded_serialize_string (trim (lit " Test User"))).
Proof.
  assert (H1 : NoDup (keys params_padded)) by (apply distinct_NoDup; vm_compute; reflexivity).
  assert (H2 : isValid (validateUpiParams params_padded) = true)
    by (vm_compute; reflexivity).
  destruct (C5_field_order params_padded pay H1 H2) as (_ & _ & _ & H).
  apply H.
  - intros k [<- | [<- | []]]; auto.
  - reflexivity.
  - reflexivity.
Defined.

(** ** C7: what [parseUpiUri] accepts *)

Lemma new_URL_scheme (engine : Engine) (input : jsstring) (url : URL) :
  new_URL engine input = Return url ->
  exists scheme rest,
    parse_scheme (url_clean input) = Some (scheme, rest) /\
    protocol url = scheme ++ [58%N] /\
    (hostname url <> [] -> starts_with (lit "//") rest = true).
Proof.
  unfold new_URL. destruct (parse_scheme (url_clean input)) as [[scheme rest]|];
    [|discriminate].
  intros H. exists scheme, rest. split; [reflexivity|].
  cbv zeta in H. change (lit "//") with [47%N; 47%N].
  destruct (host_split false
              match after_last_at
                      (take_while (fun c => negb (is_authority_end c)) (skipn 2 rest)) with
              | Some t => t
              | None => take_while (fun c => negb (is_authority_end c)) (skipn 2 rest)
              end) as [host port].
  destruct (is_special scheme).
  { destruct (url_accepted engine input); [|discriminate].
    injection H as <-. cbn [protocol hostname]. split; [reflexivity | congruence]. }
  destruct (starts_with [47%N; 47%N] rest).
  2:{ injection H as <-. cbn [protocol hostname]. split; [reflexivity | congruence]. }
  repeat match type of H with
         | (if ?b then _ else _) = _ => destruct b
         end; try discriminate; injection H as <-; auto.
Qed.

Lemma action_of_Some (host : jsstring) (a : UpiAction) :
  action_of host = Some a <-> host = action_name a.
Proof.
  unfold action_of. split.
  - destruct (str_eqb_spec host (lit "pay")) as [->|H1]; [now intros [= <-]|].
    destruct (str_eqb_spec host (lit "mandate")) as [->|H2]; [now intros [= <-]|].
    discriminate.
  - intros ->. destruct a; reflexivity.
Qed.

Lemma parseUpiUri_eq (engine : Engine) (upiUri : jsstring) :
  parseUpiUri engine upiUri =
  match new_URL engine upiUri with
  | Throw e => Throw e
  | Return url =>
      if negb (str_eqb (protocol url) (lit "upi:")) then
        Throw (Error (lit "Invalid UPI URI: must start with upi://"))
      else
        match action_of (hostname url) with
        | None =>
            Throw (Error (lit "Invalid UPI action: must be " ++ quote ++ lit "pay"
                          ++ quote ++ lit " or " ++ quote ++ lit "mandate" ++ quote))
        | Some action =>
            if negb (isValid (validateUpiParams (decoded_params url))) then
              Throw (Error (lit "Invalid UPI parameters: "
                            ++ join (lit ", ")
                                    (errors (validateUpiParams (decoded_params url)))))
            else
              Return {| Parsed.action := action;
                        Parsed.params :=
                          normalizedParams (validateUpiParams (decoded_params url)) |}
        end
  end.
Proof.
  unfold parseUpiUri, decoded_params.
  destruct (new_URL engine upiUri) as [url|e]; cbn [bind try_catch]; [|reflexivity].
  destruct (negb (str_eqb (protocol url) (lit "upi:"))); [reflexivity|].
  destruct (action_of (hostname url)); [|reflexivity].
  destruct (negb (isValid _)); reflexivity.
Qed.

(** C7: [parseUpiUri] returns exactly when the URL parser accepts the
    string, the scheme it delivers is [upi], the host it delivers is [pay]
    or [mandate], and the decoded query parameters validate; every other
    input raises an error.  The result then carries the action named by
    the host and the normalized parameters, not the decoded ones.  A URI
    that is accepted starts, once cleaned, with the scheme [upi] (in any
    case), a colon and two slashes. *)
Theorem C7_parse_accepts (engine : Engine) (upiUri : jsstring) :
  (forall r,
     parseUpiUri engine upiUri = Return r <->
     exists url,
       new_URL engine upiUri = Return url /\
       protocol url = lit "upi:" /\
       hostname url = action_name (Parsed.action r) /\
       isValid (validateUpiParams (decoded_params url)) = true /\
       Parsed.params r = normalizedParams (validateUpiParams (decoded_params url))) /\
  (forall r,
     parseUpiUri engine upiUri = Return r ->
     exists rest,
       parse_scheme (url_clean upiUri) = Some (lit "upi", rest) /\
       starts_with (lit "//") rest = true) /\
  ((forall url,
      new_URL engine upiUri = Return url ->
      protocol url = lit "upi:" ->
      hostname url = lit "pay" \/ hostname url = lit "mandate" ->
      isValid (validateUpiParams (decoded_params url)) = false) ->
   exists e, parseUpiUri engine upiUri = Throw e).
Proof.
  assert (Hiff : forall r,
     parseUpiUri engine upiUri = Return r <->
     exists url,
       new_URL engine upiUri = Return url /\
       protocol url = lit "upi:" /\
       hostname url = action_name (Parsed.action r) /\
       isValid (validateUpiParams (decoded_params url)) = true /\
       Parsed.params r = normalizedParams (validateUpiParams (decoded_params url))).
  { intros r. rewrite parseUpiUri_eq. split.
    - destruct (new_URL engine upiUri) as [url|e]; [|discriminate].
      destruct (str_eqb_spec (protocol url) (lit "upi:")) as [Hp|Hp];
        cbn [negb]; [|discriminate].
      destruct (action_of (hostname url)) as [a|] eqn:Ha; [|discriminate].
      destruct (isValid (validateUpiParams (decoded_params url))) eqn:Hv;
        cbn [negb]; [|discriminate].
      intros [= <-]. exists url. cbn [Parsed.action Parsed.params].
      apply action_of_Some in Ha. auto.
    - intros (url & -> & Hp & Hh & Hv & Hn).
      rewrite Hp, str_eqb_refl, Hh, action_of_name, Hv. cbn [negb].
      destruct r as [a ps]. cbn [Parsed.action Parsed.params] in *. now subst ps. }
  split; [exact Hiff|]. split.
  - intros r Hr. apply Hiff in Hr as (url & Hurl & Hp & Hh & _).
    apply new_URL_scheme in Hurl as (scheme & rest & Hs & Hproto & Hhost).
    exists rest. rewrite Hs. rewrite Hp in Hproto.
    assert (scheme = lit "upi").
    { change (lit "upi:") with (lit "upi" ++ [58%N]) in Hproto.
      now apply app_inj_tail in Hproto as [<- _]. }
    subst scheme. split; [reflexivity|]. apply Hhost. rewrite Hh.
    destruct (Parsed.action r); discriminate.
  - intros Hno. destruct (parseUpiUri engine upiUri) as [r|e]; [|eauto].
    destruct (proj1 (Hiff r) eq_refl) as (url & Hurl & Hp & Hh & Hv & _).
    rewrite (Hno url Hurl Hp) in Hv; [discriminate|].
    rewrite Hh. destruct (Parsed.action r); auto.
Qed.

(** The parameters returned are the normalized ones: for a URI with an
    amount and no currency the result holds [cu = INR], which the decoded
    query does not. *)
Lemma parseUpiUri_returns_normalized :
  exists r url,
    parseUpiUri node_engine amount_only_uri = Return r /\
    new_URL node_engine amount_only_uri = Return url /\
    obj_get (decoded_params url) (lit "cu") = None /\
    obj_get (Parsed.params r) (lit "cu") = Some (lit "INR").
Proof.
  eexists. eexists. split; [vm_compute; reflexivity|].
  split; [vm_compute; reflexivity|]. split; vm_compute; reflexivity.
Qed.

(** ** C8: the Android intent and the fallback *)

Lemma upi_query_includeFallback (engine : Engine) (options : Options.t) (b : option bool) :
  upi_query engine (with_includeFallback options b) = upi_query engine options.
Proof. reflexivity. Qed.

Lemma buildAndroidIntentUrl_package (engine : Engine) (appsData : list UpiApp.t)
    (appId : UpiAppId) (app : UpiApp.t) (package q : jsstring) (a : UpiAction)
    (fallback : option jsstring) :
  getApp appsData appId = Some app ->
  UpiApp.androidPackage app = Some package -> package <> [] ->
  buildAndroidIntentUrl engine appsData appId q a fallback =
  if truthy fallback then
    match encodeURIComponent (default [] fallback) with
    | Some encoded =>
        Return (lit "intent://" ++ action_name a ++ lit "?" ++ q
                ++ lit "#Intent;scheme=upi;package=" ++ package
                ++ lit ";S.browser_fallback_url=" ++ encoded ++ lit ";end")
    | None => Throw (URIError (uri_malformed_message engine))
    end
  else
    Return (lit "intent://" ++ action_name a ++ lit "?" ++ q
            ++ lit "#Intent;scheme=upi;package=" ++ package ++ lit ";end").
Proof.
  intros Hget Hpkg Hne. unfold buildAndroidIntentUrl. cbv zeta. rewrite Hget, Hpkg.
  destruct package as [|c package]; [congruence|]. cbn [truthy negb default].
  destruct fallback as [[|d f]|]; cbn [truthy default bind].
  - now rewrite <- !app_assoc.
  - destruct (encodeURIComponent (d :: f)); cbn [bind]; [|reflexivity].
    now rewrite <- !app_assoc.
  - now rewrite <- !app_assoc.
Qed.

(** C8: on Android, for an app with an Android package, [buildAppLink]
    returns
    [intent://<action>?<query>#Intent;scheme=upi;package=<packageId>],
    followed by [;S.browser_fallback_url=<percent-encoded fallback>]
    exactly when a fallback is resolved (a string that is not empty), and
    ended by [;end].  The fallback is resolved only when [includeFallback]
    (by default true) holds, and is then the [fallbackUrl] of the caller,
    or else the Android store URL of the registry.  On iOS the fallback is
    the [fallbackUrl] of the caller, or else the iOS store URL, whatever
    [includeFallback] is.  (When the fallback to embed cannot be
    percent-encoded, [encodeURIComponent] raises its error.) *)
Theorem C8_intent_and_fallback (engine : Engine) (appsData : list UpiApp.t)
    (options : Options.t) (app : UpiApp.t) (q : jsstring) :
  getApp appsData (Options.appId options) = Some app ->
  upi_query engine options = Return q ->
  let appId := Options.appId options in
  let action := default pay (Options.action options) in
  let link platform url fallback :=
    {| Link.url := url;
       Link.fallbackUrl := fallback;
       Link.app := app_info appId app;
       Link.platform := platform;
       Link.action := action |} in
  match Options.platform options with
  | android =>
      let resolved :=
        if default true (Options.includeFallback options)
        then js_or (Options.fallbackUrl options) (getStoreUrl appsData appId android)
        else None in
      forall package,
        UpiApp.androidPackage app = Some package -> package <> [] ->
        let intent :=
          lit "intent://" ++ action_name action ++ lit "?" ++ q
          ++ lit "#Intent;scheme=upi;package=" ++ package in
        if truthy resolved then
          match encodeURIComponent (default [] resolved) with
          | Some encoded =>
              buildAppLink engine appsData options =
              Return (link android
                        (intent ++ lit ";S.browser_fallback_url=" ++ encoded
                         ++ lit ";end")
                        resolved)
          | None =>
              buildAppLink engine appsData options =
              Throw (URIError (uri_malformed_message engine))
          end
        else
          buildAppLink engine appsData options =
          Return (link android (intent ++ lit ";end") resolved)
  | ios =>
      forall includeFallback,
        buildAppLink engine appsData (with_includeFallback options includeFallback) =
        Return (link ios (buildIosSchemeUrl appsData appId q action)
                  (js_or (Options.fallbackUrl options)
                         (getStoreUrl appsData appId ios)))
  end.
Proof.
  intros Hget Hq appId action link.
  assert (Harg : negb (truthy (Options.upiUri options))
                 && negb (match Options.upiParams options with
                          | Some _ => true | None => false end) = false).
  { unfold upi_query, base_uri in Hq.
    destruct (truthy (Options.upiUri options)); [reflexivity|].
    destruct (Options.upiParams options); [reflexivity | discriminate]. }
  destruct (Options.platform options) eqn:Hplat.
  - intros resolved package Hpkg Hne intent.
    rewrite buildAppLink_eq, Harg, Hget, Hq, Hplat. cbn [bind].
    assert (Hres : resolved_fallback appsData options = resolved).
    { unfold resolved_fallback. now rewrite Hplat. }
    rewrite Hres.
    rewrite (buildAndroidIntentUrl_package engine appsData (Options.appId options)
               app package q _ resolved Hget Hpkg Hne).
    fold action. fold appId. unfold intent.
    destruct (truthy resolved).
    + destruct (encodeURIComponent (default [] resolved)); cbn [bind]; [|reflexivity].
      unfold link. now rewrite <- !app_assoc.
    + cbn [bind]. unfold link. now rewrite <- !app_assoc.
  - intros includeFallback.
    rewrite buildAppLink_eq.
    cbn [with_includeFallback Options.upiUri Options.upiParams Options.appId
         Options.platform Options.action].
    rewrite Harg, Hget, upi_query_includeFallback, Hq, Hplat. cbn [bind].
    unfold resolved_fallback.
    cbn [with_includeFallback Options.platform Options.fallbackUrl Options.appId].
    rewrite Hplat. reflexivity.
Qed.

Lemma C8_witness :
  exists link,
    buildAppLink node_engine sample_apps (link_options (lit "gpay") testUpiUri android)
    = Return link /\
    Link.url link =
    lit "intent://pay?pa=test%40upi&pn=Test+User&am=100&cu=INR#Intent;scheme=upi;package=com.google.android.apps.nbu.paisa.user;S.browser_fallback_url=https%3A%2F%2Fplay.google.com%2Fstore%2Fapps%2Fdetails%3Fid%3Dcom.google.android.apps.nbu.paisa.user;end".
Proof.
  assert (H1 : getApp sample_apps
                 (Options.appId (link_options (lit "gpay") testUpiUri android))
               = Some gpay_app) by (vm_compute; reflexivity).
  assert (H2 : upi_query node_engine (link_options (lit "gpay") testUpiUri android)
               = Return (lit "pa=test%40upi&pn=Test+User&am=100&cu=INR"))
    by (vm_compute; reflexivity).
  pose proof (C8_intent_and_fallback node_engine sample_apps
                (link_options (lit "gpay") testUpiUri android) gpay_app _ H1 H2
                (lit "com.google.android.apps.nbu.paisa.user") eq_refl) as H.
  assert (H3 : lit "com.google.android.apps.nbu.paisa.user" <> [])
    by (vm_compute; discriminate).
  specialize (H H3). vm_compute in H.
  eexists. split; [vm_compute; exact H|]. vm_compute. reflexivity.
Defined.

(** ** C10: a URI and parameters together *)

Lemma buildUpiUri_throw (ps : obj) (a : UpiAction) (e : exn) :
  buildUpiUri ps a = Throw e -> e <> argument_error.
Proof.
  unfold buildUpiUri. destruct (negb (isValid (validateUpiParams ps))); [|discriminate].
  intros [= <-]. discriminate.
Qed.

Lemma extractQueryFromUri_throw (engine : Engine) (uri : jsstring) (e : exn) :
  extractQueryFromUri engine uri = Throw e -> e <> argument_error.
Proof.
  unfold extractQueryFromUri. destruct (parseUpiUri engine uri); cbn [bind try_catch].
  - discriminate.
  - intros [= <-]. discriminate.
Qed.

Lemma buildAndroidIntentUrl_throw (engine : Engine) (appsData : list UpiApp.t)
    (appId : UpiAppId) (q : jsstring) (a : UpiAction) (fallback : option jsstring)
    (e : exn) :
  buildAndroidIntentUrl engine appsData appId q a fallback = Throw e ->
  e <> argument_error.
Proof.
  unfold buildAndroidIntentUrl. cbv zeta.
  destruct (negb (truthy _)); [discriminate|].
  destruct fallback as [[|c f]|]; cbn [bind]; try discriminate.
  destruct (encodeURIComponent (c :: f)); cbn [bind]; [discriminate|].
  intros [= <-]. discriminate.
Qed.

(** C10: when [upiUri] (a string that is not empty) and [upiParams] are
    both supplied, [buildAppLink] raises no argument error: the base URI
    is [upiUri], and the result is the result of the call without
    [upiParams], whatever they are.  That it is [upiUri] that is used
    shows in the result: for a registered app, an error of [parseUpiUri]
    on [upiUri] is the error raised, after [Invalid UPI URI: ], even when
    [upiParams] are valid; the [url] of a link that is returned is built
    from the query extracted from [upiUri]; and when [upiUri] is what
    [buildUpiUri] returns for some parameters [p], the result is the one
    of the call with [p] alone, whatever [upiParams] are.  The argument
    error is raised exactly when [upiParams] is absent and [upiUri] is
    absent (or empty). *)
Theorem C10_uri_and_params (engine : Engine) (appsData : list UpiApp.t)
    (options : Options.t) :
  (truthy (Options.upiUri options) = true ->
   base_uri options = Return (default [] (Options.upiUri options)) /\
   buildAppLink engine appsData options <> Throw argument_error /\
   (forall ps,
      buildAppLink engine appsData (with_upiParams options ps)
      = buildAppLink engine appsData (with_upiParams options None)) /\
   (forall app e,
      getApp appsData (Options.appId options) = Some app ->
      parseUpiUri engine (default [] (Options.upiUri options)) = Throw e ->
      buildAppLink engine appsData options
      = Throw (Error (lit "Invalid UPI URI: " ++ message e))) /\
   (forall link,
      buildAppLink engine appsData options = Return link ->
      exists q,
        extractQueryFromUri engine (default [] (Options.upiUri options)) = Return q /\
        match Options.platform options with
        | android =>
            buildAndroidIntentUrl engine appsData (Options.appId options) q
              (default pay (Options.action options)) (Link.fallbackUrl link)
            = Return (Link.url link)
        | ios =>
            Link.url link
            = buildIosSchemeUrl appsData (Options.appId options) q
                (default pay (Options.action options))
        end) /\
   (forall p,
      buildUpiUri p (default pay (Options.action options))
      = Return (default [] (Options.upiUri options)) ->
      buildAppLink engine appsData options
      = buildAppLink engine appsData
          (with_upiParams (with_upiUri options None) (Some p)))) /\
  (buildAppLink engine appsData options = Throw argument_error <->
   truthy (Options.upiUri options) = false /\ Options.upiParams options = None).
Proof.
  assert (Hiff : buildAppLink engine appsData options = Throw argument_error <->
                 truthy (Options.upiUri options) = false /\
                 Options.upiParams options = None).
  { rewrite buildAppLink_eq. split.
    - destruct (truthy (Options.upiUri options)) eqn:Hu;
        destruct (Options.upiParams options) as [ps|] eqn:Hps; cbn [negb andb]; auto;
        (destruct (getApp appsData (Options.appId options)) as [app|];
         [|intros [= H]; discriminate H]);
        unfold upi_query, base_uri; rewrite Hu, ?Hps; cbn [bind];
        try (destruct (buildUpiUri ps (default pay (Options.action options)))
               as [b|e] eqn:Hb; cbn [bind];
             [|intros [= ->]; now apply buildUpiUri_throw in Hb]);
        match goal with
        | |- context [extractQueryFromUri ?en ?b] =>
            destruct (extractQueryFromUri en b) as [q|e'] eqn:Hx; cbn [bind];
            [|intros [= ->]; now apply extractQueryFromUri_throw in Hx]
        end;
        (destruct (Options.platform options); [|discriminate]);
        match goal with
        | |- context [buildAndroidIntentUrl ?a ?b ?c ?d ?e ?f] =>
            destruct (buildAndroidIntentUrl a b c d e f) as [url|e''] eqn:Hi;
            cbn [bind]; [discriminate|];
            intros [= ->]; now apply buildAndroidIntentUrl_throw in Hi
        end.
    - intros [-> ->]. reflexivity. }
  split; [|exact Hiff].
  intros Hu.
  assert (Hq : upi_query engine options
               = extractQueryFromUri engine (default [] (Options.upiUri options))).
  { unfold upi_query, base_uri. now rewrite Hu. }
  split; [unfold base_uri; now rewrite Hu|]. split; [|split; [|split; [|split]]].
  - intros H. apply Hiff in H as [H _]. congruence.
  - intros ps. rewrite !buildAppLink_eq.
    unfold upi_query, base_uri, resolved_fallback.
    cbn [with_upiParams Options.upiUri Options.upiParams Options.appId
         Options.platform Options.action Options.fallbackUrl Options.includeFallback].
    rewrite Hu. reflexivity.
  - intros app e Hget Hparse. rewrite buildAppLink_eq, Hu, Hget, Hq.
    cbn [negb andb]. unfold extractQueryFromUri. rewrite Hparse. reflexivity.
  - intros link. rewrite buildAppLink_eq, Hu, Hq. cbn [negb andb].
    destruct (getApp appsData (Options.appId options)) as [app|]; [|discriminate].
    destruct (extractQueryFromUri engine (default [] (Options.upiUri options)))
      as [q|e]; cbn [bind]; [|discriminate].
    destruct (Options.platform options).
    + destruct (buildAndroidIntentUrl engine appsData (Options.appId options) q
                  (default pay (Options.action options))
                  (resolved_fallback appsData options)) as [url|e] eqn:Hi;
        cbn [bind]; [|discriminate].
      intros [= <-]. exists q. split; [reflexivity|]. exact Hi.
    + intros [= <-]. exists q. split; reflexivity.
  - intros p Hp. rewrite !buildAppLink_eq.
    unfold upi_query, base_uri, resolved_fallback.
    cbn [with_upiParams with_upiUri Options.upiUri Options.upiParams Options.appId
         Options.platform Options.action Options.fallbackUrl Options.includeFallback
         truthy negb andb].
    rewrite Hu, Hp. reflexivity.
Qed.

Lemma C10_witness :
  truthy (Options.upiUri both_options) = true /\
  buildAppLink node_engine sample_apps both_options
  = buildAppLink node_engine sample_apps (with_upiParams both_options None) /\
  buildAppLink node_engine sample_apps both_options
  = buildAppLink node_engine sample_apps
      (with_upiParams (with_upiUri both_options None) (Some params_with_amount)).
Proof.
  assert (H : truthy (Options.upiUri both_options) = true) by reflexivity.
  destruct (proj1 (C10_uri_and_params node_engine sample_apps both_options) H)
    as (_ & _ & Hps & _ & _ & Hbuilt).
  split; [exact H|]. split.
  - exact (Hps (Some params_basic)).
  - apply Hbuilt. vm_compute. reflexivity.
Defined.

(** ** Validity, and what validation keeps *)

Lemma accepted_passes (k v : jsstring) :
  accepted k v = true <-> forall rule, rule_for k = Some rule -> check_rule rule v = Passes.
Proof.
  unfold accepted. destruct (rule_for k) as [rule|].
  - split.
    + intros H r [= <-]. destruct (check_rule rule v); congruence.
    + intros H. now rewrite (H rule eq_refl).
  - split; [discriminate | reflexivity].
Qed.

Lemma entry_errors_nil (k : jsstring) (x : value) :
  entry_errors (k, x) = [] <->
  forall v, x = Some v -> is_empty (trim v) = false -> accepted k (trim v) = true.
Proof.
  unfold entry_errors, accepted; cbn [fst snd]. destruct x as [s|].
  2:{ split; [discriminate | reflexivity]. }
  destruct (is_empty (trim s)) eqn:Ht.
  { destruct (is_empty s); split; try reflexivity; intros _ v [= <-]; congruence. }
  rewrite (trim_nonempty s Ht).
  destruct (rule_for k) as [rule|].
  - destruct (check_rule rule (trim s)) eqn:Ec; cbn [check_message]; split; intros H;
      try discriminate; try reflexivity;
      try (specialize (H s eq_refl Ht); rewrite Ec in H; discriminate).
    intros v [= <-] _. now rewrite Ec.
  - split; reflexivity.
Qed.

Lemma missing_false (params : obj) (k : jsstring) :
  missing params k = false <->
  exists v, obj_get params k = Some v /\ is_empty (trim v) = false.
Proof.
  unfold missing. destruct (obj_get params k) as [v|].
  - rewrite orb_false_iff. split.
    + intros [_ H]. eauto.
    + intros (w & [= <-] & H). split; [now apply trim_nonempty | exact H].
  - split; [discriminate | intros (v & H & _); discriminate].
Qed.

(** X1: [isValid] is true exactly when [pa] and [pn] are present with
    values that are not blank, and every entry of the input whose value is
    not blank passes the three checks of the rule of its key, when the key
    has one. *)
Theorem X1_valid_iff (params : obj) :
  isValid (validateUpiParams params) = true <->
  (exists v, obj_get params (lit "pa") = Some v /\ is_empty (trim v) = false) /\
  (exists v, obj_get params (lit "pn") = Some v /\ is_empty (trim v) = false) /\
  forall k v rule,
    In (k, Some v) params -> is_empty (trim v) = false ->
    rule_for k = Some rule -> check_rule rule (trim v) = Passes.
Proof.
  rewrite <- !missing_false.
  rewrite isValid_errors, validateUpiParams_eq. cbn [errors].
  unfold required_errors. split.
  - intros H. apply app_eq_nil in H as [Hreq Hent].
    apply app_eq_nil in Hreq as [H1 H2].
    split; [destruct (missing params (lit "pa")); [discriminate | reflexivity]|].
    split; [destruct (missing params (lit "pn")); [discriminate | reflexivity]|].
    intros k v rule Hin Hv. apply accepted_passes.
    apply (proj1 (entry_errors_nil k (Some v))); auto.
    apply (proj1 (flat_map_nil entry_errors (Object_entries params)) Hent).
    eapply Permutation_in; [apply Permutation_sym, Object_entries_perm | exact Hin].
  - intros (H1 & H2 & H3). rewrite H1, H2. cbn [app].
    apply flat_map_nil. intros [k x] Hin. apply entry_errors_nil.
    intros v -> Hv. apply accepted_passes. intros rule Hr. apply (H3 k v rule); auto.
    eapply Permutation_in; [apply Object_entries_perm | exact Hin].
Qed.

Lemma normalizedParams_settled (params : obj) :
  Forall (fun e => (In (fst e) (keys params) \/ fst e = lit "cu") /\ settled_entry e)
         (normalizedParams (validateUpiParams params)).
Proof.
  rewrite validateUpiParams_eq; cbn [normalizedParams].
  assert (Hcore : Forall (fun e => (In (fst e) (keys params) \/ fst e = lit "cu")
                                   /\ settled_entry e) (normalized_core params)).
  { unfold normalized_core. apply Forall_fold_store; [|constructor].
    intros k x v Hin Hv.
    apply (Permutation_in _ (Object_entries_perm params)) in Hin.
    apply entry_value_Some in Hv as (s & -> & -> & He & Hacc).
    cbn [fst snd]. split.
    - left. now apply (in_map fst) in Hin.
    - exists (trim s). cbn [fst snd]. repeat split; auto. apply trim_idempotent. }
  unfold inject_currency.
  destruct (truthy (obj_get (normalized_core params) (lit "am"))
            && negb (truthy (obj_get (normalized_core params) (lit "cu")))); auto.
  apply Forall_obj_set; auto. intros k' ->. cbn [fst]. split; [now right|].
  exists (lit "INR"). cbn [fst snd]. split; [reflexivity | apply settled_cu].
Qed.

(** X2: whatever the input, [normalizedParams] holds no key twice, and
    every entry of it has a key of the input (or [cu]) and a value that is
    a string, not empty, equal to its own trimmed form, and on which no
    check of the rule of its key fails. *)
Theorem X2_normalized_entries_pass (params : obj) :
  let n := normalizedParams (validateUpiParams params) in
  NoDup (keys n) /\
  Forall (fun e =>
            (In (fst e) (keys params) \/ fst e = lit "cu") /\
            exists v, snd e = Some v /\ is_empty v = false /\ trim v = v /\
                      forall rule, rule_for (fst e) = Some rule ->
                                   check_rule rule v = Passes) n.
Proof.
  intros n. split; [apply normalizedParams_keys|].
  eapply Forall_impl; [|apply normalizedParams_settled].
  intros [k x] [Hk (v & Hx & Hne & Htrim & Hacc)]. split; [exact Hk|].
  exists v. repeat split; auto. now apply accepted_passes.
Qed.

Lemma settled_entry_errors (e : jsstring * value) : settled_entry e -> entry_errors e = [].
Proof.
  destruct e as [k x]. intros (v & Ex & Hne & Htrim & Hacc). cbn [fst snd] in *. subst x.
  apply entry_errors_nil. intros w [= <-] _. now rewrite Htrim.
Qed.

Lemma fold_store_settled (l : list (jsstring * value)) : forall n,
  NoDup (keys n ++ keys l) -> ~ In proto (keys l) -> Forall settled_entry l ->
  fold_left store_entry l n = n ++ l.
Proof.
  induction l as [|[k x] l IH]; intros n Hnd Hp Hc; cbn [fold_left].
  - now rewrite app_nil_r.
  - inversion Hc as [|? ? (v & Ex & Hs) Hc']; subst. cbn [fst snd] in *. subst x.
    unfold store_entry; cbn [fst snd]. rewrite (clean_entry_value k v Hs).
    cbn [keys map fst] in Hnd, Hp.
    rewrite obj_set_fresh.
    + rewrite IH; auto.
      * now rewrite <- app_assoc.
      * unfold keys in *. rewrite map_app. cbn [map fst]. now rewrite <- app_assoc.
      * intros H; apply Hp; now right.
    + apply NoDup_remove_2 in Hnd. intros H; apply Hnd. apply in_app_iff; now left.
    + intros ->. apply Hp. now left.
Qed.

Lemma Forall_entries {P : jsstring * value -> Prop} (o : obj) :
  Forall P o -> Forall P (Object_entries o).
Proof.
  rewrite !Forall_forall. intros H e He. apply H.
  eapply Permutation_in; [apply Object_entries_perm | exact He].
Qed.

(** Validating [normalizedParams] again: no entry is rejected, and every
    entry is kept as it is. *)
Lemma revalidate (params : obj) :
  let n := normalizedParams (validateUpiParams params) in
  errors (validateUpiParams n) = required_errors n /\
  normalizedParams (validateUpiParams n) = Object_entries n.
Proof.
  intros n. destruct (normalizedParams_keys params) as [Hnd Hproto]. fold n in Hnd, Hproto.
  assert (Hs : Forall settled_entry n).
  { eapply Forall_impl; [|apply normalizedParams_settled]. now intros e [_ H]. }
  assert (Hse : Forall settled_entry (Object_entries n)) by now apply Forall_entries.
  rewrite validateUpiParams_eq. cbn [errors normalizedParams].
  split.
  - replace (flat_map entry_errors (Object_entries n)) with (@nil jsstring);
      [now rewrite app_nil_r|].
    symmetry. apply flat_map_nil. intros e He. apply settled_entry_errors.
    rewrite Forall_forall in Hse. auto.
  - assert (Hcore : normalized_core n = Object_entries n).
    { unfold normalized_core. rewrite fold_store_settled; auto.
      - cbn [keys map app]. now apply NoDup_keys_entries.
      - intros H. apply Hproto. eapply Permutation_in; [|exact H].
        apply Permutation_map, Object_entries_perm. }
    rewrite Hcore. unfold inject_currency. rewrite !obj_get_entries by assumption.
    destruct (truthy (obj_get n (lit "am"))) eqn:Eam; [|reflexivity].
    unfold n in Eam |- *. rewrite validateUpiParams_eq in Eam |- *.
    cbn [normalizedParams] in Eam |- *.
    now rewrite (inject_currency_am_cu _ Eam).
Qed.

Lemma normalizedParams_named (params : obj) :
  forallb is_named params = true ->
  forallb is_named (normalizedParams (validateUpiParams params)) = true.
Proof.
  intros Hnamed. apply forallb_forall. intros [k x] Hin.
  pose proof (normalizedParams_settled params) as H. rewrite Forall_forall in H.
  destruct (H _ Hin) as [[Hk | Hk] _]; cbn [fst] in Hk.
  - apply in_map_iff in Hk as ([k' y] & Ek & Hy). cbn [fst] in Ek; subst k'.
    rewrite forallb_forall in Hnamed. rewrite (is_named_key k x y). now apply Hnamed.
  - subst k. reflexivity.
Qed.

Lemma revalidate_valid (params : obj) :
  NoDup (keys params) ->
  isValid (validateUpiParams params) = true ->
  let n := normalizedParams (validateUpiParams params) in
  validateUpiParams n
  = {| isValid := true; errors := []; normalizedParams := Object_entries n |}.
Proof.
  intros Hnd Hvalid n.
  destruct (revalidate params) as [Herr Hn]. fold n in Herr, Hn.
  assert (Hreq : required_errors n = []).
  { unfold required_errors, missing.
    destruct (valid_required params (lit "pa") Hnd Hvalid (or_introl eq_refl))
      as (va & _ & Hva & Hpa).
    destruct (valid_required params (lit "pn") Hnd Hvalid (or_intror eq_refl))
      as (vn & _ & Hvn & Hpn).
    fold n in Hpa, Hpn. rewrite Hpa, Hpn, !trim_idempotent, Hva, Hvn. reflexivity. }
  assert (Hv : isValid (validateUpiParams n) = true).
  { apply isValid_errors. now rewrite Herr. }
  rewrite Hreq in Herr.
  destruct (validateUpiParams n) as [valid errs norm].
  cbn [isValid errors normalizedParams] in *. now subst.
Qed.

(** X3: validation is idempotent on what it accepts: validating the
    [normalizedParams] of a valid parameter set gives a valid result with
    no error whose [normalizedParams] are the same entries, in their order
    of enumeration, which is the same order when no key of the input is an
    array index. *)
Theorem X3_validate_idempotent (params : obj) :
  NoDup (keys params) ->
  isValid (validateUpiParams params) = true ->
  let n := normalizedParams (validateUpiParams params) in
  validateUpiParams n
  = {| isValid := true; errors := []; normalizedParams := Object_entries n |} /\
  (forallb is_named params = true -> validateUpiParams n
  = {| isValid := true; errors := []; normalizedParams := n |}).
Proof.
  intros Hnd Hvalid n. pose proof (revalidate_valid params Hnd Hvalid) as H.
  fold n in H. split; [exact H|].
  intros Hnamed. rewrite H. f_equal.
  apply Object_entries_named. now apply normalizedParams_named.
Qed.

Lemma X3_witness :
  validateUpiParams (normalizedParams (validateUpiParams params_with_amount))
  = {| isValid := true; errors := [];
       normalizedParams := normalizedParams (validateUpiParams params_with_amount) |}.
Proof.
  refine (proj2 (X3_validate_idempotent params_with_amount _ _) _).
  - apply distinct_NoDup. vm_compute. reflexivity.
  - vm_compute. reflexivity.
  - vm_compute. reflexivity.
Defined.

(** ** The two URI constructors *)

Lemma entry_errors_ok (e : jsstring * value) :
  is_empty_list (entry_errors e) = entry_ok e.
Proof.
  destruct e as [k x]. unfold entry_errors, entry_ok, accepted; cbn [fst snd].
  destruct x as [s|]; [|reflexivity].
  destruct (is_empty (trim s)) eqn:Ht.
  { destruct (is_empty s); reflexivity. }
  rewrite (trim_nonempty s Ht). cbn [orb].
  destruct (rule_for k) as [rule|]; [|reflexivity].
  destruct (check_rule rule (trim s)); reflexivity.
Qed.

Lemma is_empty_list_app {A} (a b : list A) :
  is_empty_list (a ++ b) = is_empty_list a && is_empty_list b.
Proof. destruct a; reflexivity. Qed.

Lemma is_empty_list_flat_map (l : list (jsstring * value)) :
  is_empty_list (flat_map entry_errors l) = forallb entry_ok l.
Proof.
  induction l as [|e l IH]; [reflexivity|].
  cbn [flat_map forallb]. now rewrite is_empty_list_app, entry_errors_ok, IH.
Qed.

Lemma forallb_perm {A} (f : A -> bool) (l l' : list A) :
  Permutation l l' -> forallb f l = forallb f l'.
Proof.
  induction 1; cbn [forallb]; try congruence.
  - destruct (f x), (f y); reflexivity.
Qed.

(** [isValid] as a test: the two required fields are there, and no entry
    fails a check. *)
Lemma isValid_eq (params : obj) :
  isValid (validateUpiParams params) =
  negb (missing params (lit "pa")) && negb (missing params (lit "pn"))
  && forallb entry_ok params.
Proof.
  rewrite validateUpiParams_eq. cbn [isValid]. unfold required_errors.
  rewrite !is_empty_list_app, is_empty_list_flat_map.
  rewrite (forallb_perm entry_ok _ _ (Object_entries_perm params)).
  destruct (missing params (lit "pa")), (missing params (lit "pn")); reflexivity.
Qed.

Ltac accepted_by rule :=
  unfold accepted; change (rule_for _) with (Some rule);
  unfold check_rule, exceeds_maxLength, fails_pattern, outside_allowedValues;
  cbn [maxLength pattern allowedValues rule];
  rewrite N.leb_antisym;
  match goal with |- context [negb (?m =? 0)%N] => change (negb (m =? 0)%N) with true end;
  cbn [andb];
  match goal with |- context [(?m <? ?l)%N] => destruct (m <? l)%N end;
  cbn [negb andb]; auto.

Lemma accepted_pa (s : jsstring) :
  accepted (lit "pa") s = (str_length s <=? 255)%N && test pa_pattern s.
Proof. accepted_by pa_rule. destruct (test pa_pattern s); reflexivity. Qed.

Lemma accepted_pn (s : jsstring) : accepted (lit "pn") s = (str_length s <=? 99)%N.
Proof. accepted_by pn_rule. Qed.

Lemma accepted_tn (s : jsstring) : accepted (lit "tn") s = (str_length s <=? 100)%N.
Proof. accepted_by tn_rule. Qed.

Lemma accepted_tr (s : jsstring) :
  accepted (lit "tr") s = (str_length s <=? 35)%N && test tr_pattern s.
Proof. accepted_by tr_rule. destruct (test tr_pattern s); reflexivity. Qed.

Lemma is_empty_trim (v : jsstring) : is_empty v || is_empty (trim v) = is_empty (trim v).
Proof. destruct v; reflexivity. Qed.

(** When every key of the input is one of [orderedKeys], the query holds
    the ordered pairs only. *)
Lemma buildUpiUri_ordered (p : obj) (a : UpiAction) :
  (forall k, In k (keys p) -> In k orderedKeys) ->
  isValid (validateUpiParams p) = true ->
  buildUpiUri p a =
  Return (lit "upi://" ++ action_name a ++
          (if is_empty (toString (ordered_pairs (normalizedParams (validateUpiParams p))))
           then []
           else lit "?" ++ toString (ordered_pairs (normalizedParams (validateUpiParams p))))).
Proof.
  intros Hkeys Hvalid. unfold buildUpiUri. rewrite Hvalid. cbn [negb].
  rewrite build_query_eq.
  replace (additional_pairs _) with (@nil (jsstring * jsstring)); [now rewrite app_nil_r|].
  symmetry. unfold additional_pairs. apply flat_map_nil. intros [k x] Hin. cbn [fst snd].
  apply (Permutation_in _ (Object_entries_perm _)) in Hin.
  pose proof (normalizedParams_settled p) as H. rewrite Forall_forall in H.
  destruct (H _ Hin) as [Hk _]. cbn [fst] in Hk.
  assert (Hord : In k orderedKeys).
  { destruct Hk as [Hk | ->]; [now apply Hkeys|]. unfold orderedKeys. simpl. tauto. }
  apply existsb_str_eqb in Hord. rewrite Hord. destruct x; reflexivity.
Qed.

Lemma entry_value_ok (k : jsstring) (x : value) :
  entry_ok (k, x) = true -> entry_value k x = kept x.
Proof.
  unfold entry_ok, entry_value, kept; cbn [fst snd]. destruct x as [v|]; [|reflexivity].
  destruct (is_empty (trim v)) eqn:Ht.
  - destruct (is_empty v); reflexivity.
  - rewrite (trim_nonempty v Ht). cbn [orb]. now intros ->.
Qed.

Lemma valid_entry_ok (p : obj) (k : jsstring) :
  isValid (validateUpiParams p) = true -> entry_ok (k, obj_get p k) = true.
Proof.
  rewrite isValid_eq, !andb_true_iff, forallb_forall. intros [_ H].
  destruct (obj_get p k) as [v|] eqn:E; [|reflexivity].
  apply H. now apply obj_get_Some_In.
Qed.

(** What a valid parameter set leaves under each key. *)
Lemma valid_get (p : obj) (k : jsstring) :
  NoDup (keys p) -> isValid (validateUpiParams p) = true ->
  obj_get (normalizedParams (validateUpiParams p)) k =
  if str_eqb k (lit "cu") && truthy (kept (obj_get p (lit "am")))
     && negb (truthy (kept (obj_get p (lit "cu"))))
  then Some (lit "INR")
  else if str_eqb k proto then None else kept (obj_get p k).
Proof.
  intros Hnd Hvalid. rewrite normalizedParams_get by assumption.
  now rewrite !entry_value_ok by now apply valid_entry_ok.
Qed.

Ltac lookups :=
  repeat match goal with
         | |- context [obj_get ?p ?k] =>
             let v := eval vm_compute in (obj_get p k) in
             change (obj_get p k) with v
         end.

Lemma createPaymentUri_eq (payeeAddress payeeName : jsstring)
    (amount note : option jsstring) :
  createPaymentUri payeeAddress payeeName amount note =
  buildUpiUri [(lit "pa", Some payeeAddress); (lit "pn", Some payeeName);
               (lit "cu", Some (lit "INR")); (lit "am", amount); (lit "tn", note)] pay.
Proof.
  unfold createPaymentUri, buildUpiUri.
  destruct amount as [[|c r]|], note as [[|d s]|]; cbv zeta.
  all: match goal with
       | |- context [validateUpiParams ?p] =>
           match goal with
           | |- _ = (if negb (isValid (validateUpiParams ?q)) then _ else _) =>
               replace (validateUpiParams p) with (validateUpiParams q); [reflexivity|]
           end
       end.
  all: rewrite !validateUpiParams_eq; unfold required_errors, missing, normalized_core;
    rewrite !Object_entries_named by reflexivity; cbn [flat_map fold_left];
    reflexivity.
Qed.

Lemma kept_nonempty (x : value) : kept x <> Some [].
Proof.
  unfold kept. destruct x as [v|]; [|discriminate].
  destruct (trim v); cbn [is_empty]; discriminate.
Qed.

Ltac literals :=
  repeat match goal with
         | |- context [str_eqb (lit ?a) (lit ?b)] =>
             let v := eval vm_compute in (str_eqb (lit a) (lit b)) in
             change (str_eqb (lit a) (lit b)) with v
         | |- context [str_eqb (lit ?a) proto] =>
             change (str_eqb (lit a) proto) with false
         end.

Lemma buildUpiUri_invalid (p : obj) (a : UpiAction) :
  isValid (validateUpiParams p) = false ->
  exists errs,
    errs <> [] /\
    buildUpiUri p a = Throw (Error (lit "Invalid UPI parameters: " ++ join (lit ", ") errs)).
Proof.
  intros H. exists (errors (validateUpiParams p)). split.
  - intros E. apply isValid_errors in E. congruence.
  - unfold buildUpiUri. now rewrite H.
Qed.

(** X4: [createPaymentUri] returns exactly when the payee address is not
    blank, has at most 255 code units and matches the address pattern, the
    payee name is not blank and has at most 99 code units, the amount is
    missing, blank, or a number of at most 18 code units with at most two
    decimals, and the note is missing, blank, or of at most 100 code units.
    The URI is then [upi://pay?] followed by [pa], [pn], [am] when the
    amount is not blank, [cu=INR] in every case, and [tn] when the note is
    not blank, each value trimmed.  Otherwise the call throws the
    validation error, which lists at least one message. *)
Theorem X4_createPaymentUri (payeeAddress payeeName : jsstring)
    (amount note : option jsstring) :
  if payee_address_ok payeeAddress && payee_name_ok payeeName
     && amount_ok amount && note_ok note
  then
    createPaymentUri payeeAddress payeeName amount note =
    Return (lit "upi://pay?"
            ++ toString ([(lit "pa", trim payeeAddress); (lit "pn", trim payeeName)]
                         ++ optional_pair (lit "am") amount
                         ++ [(lit "cu", lit "INR")]
                         ++ optional_pair (lit "tn") note))
  else
    exists errs,
      errs <> [] /\
      createPaymentUri payeeAddress payeeName amount note =
      Throw (Error (lit "Invalid UPI parameters: " ++ join (lit ", ") errs)).
Proof.
  rewrite createPaymentUri_eq.
  match goal with |- context [buildUpiUri ?p pay] => set (Q := p) end.
  assert (Hnd : NoDup (keys Q)) by (apply distinct_NoDup; vm_compute; reflexivity).
  assert (Hkeys : forall k, In k (keys Q) -> In k orderedKeys)
    by (intros k Hk; vm_compute in Hk; vm_compute; tauto).
  assert (Hv : isValid (validateUpiParams Q)
               = payee_address_ok payeeAddress && payee_name_ok payeeName
                 && amount_ok amount && note_ok note).
  { rewrite isValid_eq. unfold missing. subst Q. lookups. cbn [forallb].
    unfold entry_ok; cbn [fst snd].
    change (is_empty (trim (lit "INR")) || accepted (lit "cu") (trim (lit "INR"))) with true.
    rewrite accepted_pa, accepted_pn, !is_empty_trim.
    unfold payee_address_ok, payee_name_ok, amount_ok, note_ok.
    destruct amount as [am|], note as [tn|]; rewrite ?accepted_am, ?accepted_tn;
      btauto. }
  rewrite <- Hv. destruct (isValid (validateUpiParams Q)) eqn:Hvalid;
    [|now apply buildUpiUri_invalid].
  rewrite buildUpiUri_ordered by assumption.
  symmetry in Hv. rewrite !andb_true_iff in Hv. destruct Hv as [[[Hpa Hpn] _] _].
  apply andb_true_iff in Hpa as [Hpa _]. apply andb_true_iff in Hpa as [Hpa _].
  apply andb_true_iff in Hpn as [Hpn _]. apply negb_true_iff in Hpa, Hpn.
  assert (Hord : ordered_pairs (normalizedParams (validateUpiParams Q))
                 = [(lit "pa", trim payeeAddress); (lit "pn", trim payeeName)]
                     ++ optional_pair (lit "am") amount
                     ++ [(lit "cu", lit "INR")]
                     ++ optional_pair (lit "tn") note).
  { unfold ordered_pairs, orderedKeys. cbn [flat_map].
    rewrite !valid_get by assumption. subst Q. lookups. literals. cbn [andb].
    change (kept (Some (lit "INR"))) with (Some (lit "INR")). cbn [truthy negb].
    rewrite andb_false_r. unfold optional_pair.
    unfold kept at 1 2. rewrite Hpa, Hpn.
    destruct (trim payeeAddress) as [|? ?] eqn:Ea; [discriminate|].
    destruct (trim payeeName) as [|? ?] eqn:En; [discriminate|].
    cbn [is_empty app kept].
    destruct (kept amount) as [[|? ?]|] eqn:Eam, (kept note) as [[|? ?]|] eqn:Etn;
      cbn [is_empty app]; try reflexivity;
      try (now apply kept_nonempty in Eam); now apply kept_nonempty in Etn. }
  rewrite Hord. rewrite toString_nonempty by discriminate. reflexivity.
Qed.

Lemma createMandateUri_eq (payeeAddress payeeName : jsstring)
    (amount note transactionRef : option jsstring) :
  createMandateUri payeeAddress payeeName amount note transactionRef =
  buildUpiUri [(lit "pa", Some payeeAddress); (lit "pn", Some payeeName);
               (lit "cu", Some (lit "INR")); (lit "am", amount); (lit "tn", note);
               (lit "tr", transactionRef)] mandate.
Proof.
  unfold createMandateUri, buildUpiUri.
  destruct amount as [[|c r]|], note as [[|d s]|], transactionRef as [[|e t]|]; cbv zeta.
  all: match goal with
       | |- context [validateUpiParams ?p] =>
           match goal with
           | |- _ = (if negb (isValid (validateUpiParams ?q)) then _ else _) =>
               replace (validateUpiParams p) with (validateUpiParams q); [reflexivity|]
           end
       end.
  all: rewrite !validateUpiParams_eq; unfold required_errors, missing, normalized_core;
    rewrite !Object_entries_named by reflexivity; cbn [flat_map fold_left];
    reflexivity.
Qed.

(** X5: [createMandateUri] adds the transaction reference, which has to
    be missing, blank, or of at most 35 letters, digits and hyphens; the
    URI is [upi://mandate?] followed by [pa], [pn], [am], [cu=INR], [tr]
    and [tn], the optional ones when they are not blank. *)
Theorem X5_createMandateUri (payeeAddress payeeName : jsstring)
    (amount note transactionRef : option jsstring) :
  if payee_address_ok payeeAddress && payee_name_ok payeeName
     && amount_ok amount && note_ok note && reference_ok transactionRef
  then
    createMandateUri payeeAddress payeeName amount note transactionRef =
    Return (lit "upi://mandate?"
            ++ toString ([(lit "pa", trim payeeAddress); (lit "pn", trim payeeName)]
                         ++ optional_pair (lit "am") amount
                         ++ [(lit "cu", lit "INR")]
                         ++ optional_pair (lit "tr") transactionRef
                         ++ optional_pair (lit "tn") note))
  else
    exists errs,
      errs <> [] /\
      createMandateUri payeeAddress payeeName amount note transactionRef =
      Throw (Error (lit "Invalid UPI parameters: " ++ join (lit ", ") errs)).
Proof.
  rewrite createMandateUri_eq.
  match goal with |- context [buildUpiUri ?p mandate] => set (Q := p) end.
  assert (Hnd : NoDup (keys Q)) by (apply distinct_NoDup; vm_compute; reflexivity).
  assert (Hkeys : forall k, In k (keys Q) -> In k orderedKeys)
    by (intros k Hk; vm_compute in Hk; vm_compute; tauto).
  assert (Hv : isValid (validateUpiParams Q)
               = payee_address_ok payeeAddress && payee_name_ok payeeName
                 && amount_ok amount && note_ok note && reference_ok transactionRef).
  { rewrite isValid_eq. unfold missing. subst Q. lookups. cbn [forallb].
    unfold entry_ok; cbn [fst snd].
    change (is_empty (trim (lit "INR")) || accepted (lit "cu") (trim (lit "INR"))) with true.
    rewrite accepted_pa, accepted_pn, !is_empty_trim.
    unfold payee_address_ok, payee_name_ok, amount_ok, note_ok, reference_ok.
    destruct amount as [am|], note as [tn|], transactionRef as [tr|];
      rewrite ?accepted_am, ?accepted_tn, ?accepted_tr; btauto. }
  rewrite <- Hv. destruct (isValid (validateUpiParams Q)) eqn:Hvalid;
    [|now apply buildUpiUri_invalid].
  rewrite buildUpiUri_ordered by assumption.
  symmetry in Hv. rewrite !andb_true_iff in Hv. destruct Hv as [[[[Hpa Hpn] _] _] _].
  apply andb_true_iff in Hpa as [Hpa _]. apply andb_true_iff in Hpa as [Hpa _].
  apply andb_true_iff in Hpn as [Hpn _]. apply negb_true_iff in Hpa, Hpn.
  assert (Hord : ordered_pairs (normalizedParams (validateUpiParams Q))
                 = [(lit "pa", trim payeeAddress); (lit "pn", trim payeeName)]
                     ++ optional_pair (lit "am") amount
                     ++ [(lit "cu", lit "INR")]
                     ++ optional_pair (lit "tr") transactionRef
                     ++ optional_pair (lit "tn") note).
  { unfold ordered_pairs, orderedKeys. cbn [flat_map].
    rewrite !valid_get by assumption. subst Q. lookups. literals. cbn [andb].
    change (kept (Some (lit "INR"))) with (Some (lit "INR")). cbn [truthy negb].
    rewrite andb_false_r. unfold optional_pair.
    unfold kept at 1 2. rewrite Hpa, Hpn.
    destruct (trim payeeAddress) as [|? ?] eqn:Ea; [discriminate|].
    destruct (trim payeeName) as [|? ?] eqn:En; [discriminate|].
    cbn [is_empty app kept].
    destruct (kept amount) as [[|? ?]|] eqn:Eam, (kept note) as [[|? ?]|] eqn:Etn,
      (kept transactionRef) as [[|? ?]|] eqn:Etr;
      cbn [is_empty app]; try reflexivity;
      try (now apply kept_nonempty in Eam); try (now apply kept_nonempty in Etn);
      now apply kept_nonempty in Etr. }
  rewrite Hord. rewrite toString_nonempty by discriminate. reflexivity.
Qed.

(** ** A key that is repeated in the query *)

Lemma fold_obj_set_get (ps : URLSearchParams) (k : jsstring) : forall o,
  k <> proto ->
  obj_get (fold_left (fun (o : obj) kv => obj_set o (fst kv) (snd kv)) ps o) k =
  fold_left (fun acc kv => if str_eqb (fst kv) k then Some (snd kv) else acc) ps
            (obj_get o k).
Proof.
  induction ps as [|[k' v] ps IH]; intros o Hk; cbn [fold_left fst snd]; [reflexivity|].
  rewrite IH by assumption. f_equal.
  destruct (str_eqb_spec k' k) as [->|Hne].
  - now apply obj_get_set_same.
  - apply obj_get_set_other. congruence.
Qed.

Lemma fold_obj_set_NoDup (ps : URLSearchParams) : forall o,
  NoDup (keys o) ->
  NoDup (keys (fold_left (fun (o : obj) kv => obj_set o (fst kv) (snd kv)) ps o)).
Proof.
  induction ps as [|[k v] ps IH]; intros o Hnd; cbn [fold_left]; auto.
  apply IH. now apply NoDup_obj_set.
Qed.

Lemma parseUpiUri_pairs (engine : Engine) (a : UpiAction) (ps : URLSearchParams) :
  text_pairs ps ->
  parseUpiUri engine (uri_of a ps) =
  let params := fold_left (fun (o : obj) kv => obj_set o (fst kv) (snd kv)) ps [] in
  if negb (isValid (validateUpiParams params)) then
    Throw (Error (lit "Invalid UPI parameters: "
                  ++ join (lit ", ") (errors (validateUpiParams params))))
  else
    Return {| Parsed.action := a;
              Parsed.params := normalizedParams (validateUpiParams params) |}.
Proof.
  intros Htext. unfold uri_of. rewrite parseUpiUri_eq.
  rewrite new_URL_canonical by now apply toString_units.
  cbn [protocol hostname]. rewrite str_eqb_refl, action_of_name. cbn [negb].
  unfold decoded_params, searchParams. cbn [search].
  now rewrite urlencoded_parse_toString.
Qed.

(** X6: when a key is repeated in the query of a URI, [parseUpiUri]
    keeps the value of its last occurrence: for a query written from the
    pairs [ps], if the URI parses, the parameters hold under each key the
    trimmed value of the last pair of that key, when that value is not
    blank (the key [__proto__] apart). *)
Theorem X6_last_value_wins (engine : Engine) (a : UpiAction) (ps : URLSearchParams)
    (r : Parsed.t) (k v : jsstring) :
  text_pairs ps ->
  parseUpiUri engine (uri_of a ps) = Return r ->
  k <> proto ->
  last_value k ps = Some v ->
  is_empty (trim v) = false ->
  obj_get (Parsed.params r) k = Some (trim v).
Proof.
  intros Htext Hparse Hk Hlast Hv.
  rewrite parseUpiUri_pairs in Hparse by assumption. cbv zeta in Hparse.
  set (params := fold_left (fun (o : obj) kv => obj_set o (fst kv) (snd kv)) ps []) in *.
  destruct (isValid (validateUpiParams params)) eqn:Hvalid; [|discriminate].
  cbn [negb] in Hparse. injection Hparse as <-. cbn [Parsed.params].
  assert (Hnd : NoDup (keys params)) by (apply fold_obj_set_NoDup; constructor).
  assert (Hget : obj_get params k = Some v).
  { unfold params. rewrite fold_obj_set_get by assumption. exact Hlast. }
  rewrite valid_get, Hget by assumption. unfold kept at 3. rewrite Hv.
  apply str_eqb_neq in Hk. rewrite Hk.
  destruct (str_eqb_spec k (lit "cu")) as [->|]; [|reflexivity].
  rewrite Hget. unfold kept at 2. rewrite Hv.
  destruct (trim v); [discriminate|]. cbn [truthy negb]. now rewrite andb_false_r.
Qed.

Lemma X6_witness :
  exists r,
    parseUpiUri node_engine (uri_of pay repeated_pairs) = Return r /\
    obj_get (Parsed.params r) (lit "pa") = Some (lit "second@upi").
Proof.
  assert (H : exists r, parseUpiUri node_engine (uri_of pay repeated_pairs) = Return r)
    by (eexists; vm_compute; reflexivity).
  destruct H as [r Hr]. exists r. split; [exact Hr|].
  apply (X6_last_value_wins node_engine pay repeated_pairs r (lit "pa")
           (lit " second@upi ")).
  - repeat constructor; apply textb_spec; vm_compute; reflexivity.
  - exact Hr.
  - vm_compute. discriminate.
  - vm_compute. reflexivity.
  - vm_compute. reflexivity.
Defined.

(** ** The characters of what is written *)

Lemma toString_units_wf (ps : URLSearchParams) :
  Forall (fun kv => wf_string (fst kv) /\ wf_string (snd kv)) ps ->
  forallb query_unit (toString ps) = true.
Proof.
  unfold toString. induction 1 as [|x l [Hk Hv] Hl IH]; [reflexivity|].
  destruct (serialize_pair_shape x Hk Hv) as (_ & _ & Hq & _).
  destruct l as [|y l]; [exact Hq|].
  change (join [38%N] (map serialize_pair (x :: y :: l)))
    with (serialize_pair x ++ 38%N :: join [38%N] (map serialize_pair (y :: l))).
  rewrite forallb_app, Hq. cbn [forallb andb]. exact IH.
Qed.

Lemma wf_lit_cu : wf_string (lit "cu") /\ wf_string (lit "INR").
Proof. split; apply wf_stringb_spec; reflexivity. Qed.

(** Validation keeps strings made of code units. *)
Lemma normalizedParams_wf (params : obj) :
  Forall wf_entry params -> Forall wf_entry (normalizedParams (validateUpiParams params)).
Proof.
  intros Hwf. rewrite validateUpiParams_eq; cbn [normalizedParams].
  assert (Hcore : Forall wf_entry (normalized_core params)).
  { unfold normalized_core. apply Forall_fold_store; [|constructor].
    intros k x v Hin Hv.
    apply (Permutation_in _ (Object_entries_perm params)) in Hin.
    rewrite Forall_forall in Hwf. destruct (Hwf _ Hin) as [Hk Hx]. cbn [fst snd] in *.
    apply entry_value_Some in Hv as (s & -> & -> & _ & _).
    split; cbn [fst snd wf_value]; [exact Hk | now apply Forall_trim]. }
  unfold inject_currency.
  destruct (truthy (obj_get (normalized_core params) (lit "am"))
            && negb (truthy (obj_get (normalized_core params) (lit "cu")))); auto.
  apply Forall_obj_set; auto. intros k' ->. split; apply wf_lit_cu.
Qed.

Lemma build_query_wf (n : obj) :
  NoDup (keys n) -> Forall wf_entry n ->
  Forall (fun kv => wf_string (fst kv) /\ wf_string (snd kv)) (build_query n).
Proof.
  intros Hnd Hwf. apply Forall_forall. intros [k v] Hin.
  apply in_build_query in Hin as [Hget _]; [|assumption].
  apply obj_get_Some_In in Hget. rewrite Forall_forall in Hwf.
  exact (Hwf _ Hget).
Qed.

(** X7: every URI [buildUpiUri] returns is [upi://<action>?<query>] with
    a query that is not empty and made only of ASCII letters, digits and
    [* - . _ + % = &]: it holds no space, no control character, no
    character outside ASCII, no number sign and no quote. *)
Theorem X7_uri_characters (p : obj) (a : UpiAction) (u : jsstring) :
  wf_obj p ->
  buildUpiUri p a = Return u ->
  exists q,
    u = lit "upi://" ++ action_name a ++ lit "?" ++ q /\
    q <> [] /\
    forallb query_unit q = true /\
    Forall (fun c => (32 < c < 127)%N /\ c <> 35%N /\ c <> 34%N /\ c <> 60%N /\ c <> 62%N) q.
Proof.
  intros [Hnd Hwf] Hbuild.
  assert (Hvalid : isValid (validateUpiParams p) = true).
  { unfold buildUpiUri in Hbuild. destruct (isValid (validateUpiParams p));
      [reflexivity | discriminate]. }
  destruct (normalizedParams_keys p) as [Hndn _].
  set (n := normalizedParams (validateUpiParams p)) in *.
  assert (Hne : build_query n <> []).
  { destruct (valid_required p (lit "pa") Hnd Hvalid (or_introl eq_refl))
      as (va & _ & Hva & Hnpa). fold n in Hnpa.
    rewrite build_query_eq. intros E. apply app_eq_nil in E as [E _].
    assert (Hin : In (lit "pa", trim va) (ordered_pairs n)).
    { apply in_ordered_pairs. repeat split; auto. unfold orderedKeys. now left. }
    rewrite E in Hin. destruct Hin. }
  assert (Hq : forallb query_unit (toString (build_query n)) = true).
  { apply toString_units_wf, build_query_wf; auto.
    apply normalizedParams_wf. exact Hwf. }
  exists (toString (build_query n)).
  unfold buildUpiUri in Hbuild. rewrite Hvalid in Hbuild. cbn [negb] in Hbuild. fold n in Hbuild.
  pose proof (toString_nonempty _ Hne) as Hnonempty. rewrite Hnonempty in Hbuild.
  injection Hbuild as <-. split; [reflexivity|].
  split; [intros E; rewrite E in Hnonempty; discriminate|].
  split; [exact Hq|].
  apply Forall_forall. intros c Hc. apply query_unit_facts.
  rewrite forallb_forall in Hq. auto.
Qed.

Lemma X7_witness :
  exists q,
    lit "upi://pay?pa=test%40upi&pn=Test+%26+Co.&tn=Payment+for+goods+%26+services"
    = lit "upi://" ++ action_name pay ++ lit "?" ++ q /\
    forallb query_unit q = true.
Proof.
  destruct (X7_uri_characters params_special_characters pay
              (lit "upi://pay?pa=test%40upi&pn=Test+%26+Co.&tn=Payment+for+goods+%26+services"))
    as (q & H1 & _ & H2 & _).
  - apply wf_objb_spec. vm_compute. reflexivity.
  - vm_compute. reflexivity.
  - exists q. split; assumption.
Defined.

(** *** What the decoder delivers *)

Ltac utf8_state :=
  cbn [fst snd utf8_state_ok utf8_bytes_needed utf8_code_point
       utf8_lower_boundary utf8_upper_boundary].

Lemma utf8_lead_ok (b : N) :
  Forall scalar (fst (utf8_lead b)) /\ utf8_state_ok (snd (utf8_lead b)).
Proof.
  unfold utf8_lead, scalar.
  destruct (N.leb_spec b 0x7F).
  { utf8_state. split; [|exact I]. repeat constructor; lia. }
  destruct ((0xC2 <=? b) && (b <=? 0xDF))%N eqn:E2.
  { apply andb_true_iff in E2 as [Ha Hb]. apply N.leb_le in Ha, Hb.
    utf8_state. split; [constructor|]. split; [lia|]. left. lia. }
  destruct ((0xE0 <=? b) && (b <=? 0xEF))%N eqn:E3.
  { apply andb_true_iff in E3 as [Ha Hb]. apply N.leb_le in Ha, Hb.
    utf8_state. split; [constructor|].
    destruct (N.eqb_spec b 0xE0), (N.eqb_spec b 0xED); (split; [lia|]); right; left; lia. }
  destruct ((0xF0 <=? b) && (b <=? 0xF4))%N eqn:E4.
  { apply andb_true_iff in E4 as [Ha Hb]. apply N.leb_le in Ha, Hb.
    utf8_state. split; [constructor|].
    destruct (N.eqb_spec b 0xF0), (N.eqb_spec b 0xF4); (split; [lia|]); right; right; lia. }
  utf8_state. split; [|exact I]. repeat constructor; lia.
Qed.

Lemma utf8_decode_from_scalar (bs : list N) : forall st,
  utf8_state_ok st -> Forall scalar (utf8_decode_from st bs).
Proof.
  induction bs as [|b r IH]; intros st Hst; cbn [utf8_decode_from].
  - destruct st; repeat constructor; unfold scalar; lia.
  - destruct st as [s|].
    + destruct (N.leb_spec (utf8_lower_boundary s) b), (N.leb_spec b (utf8_upper_boundary s));
        cbn [andb].
      1:{ cbn [utf8_state_ok] in Hst.
          destruct (N.eqb_spec (utf8_bytes_needed s) 1) as [E|E].
          - constructor; [|now apply IH]. unfold scalar. lia.
          - apply IH. cbn [utf8_state_ok utf8_bytes_needed utf8_code_point
                           utf8_lower_boundary utf8_upper_boundary]. lia. }
      all: destruct (utf8_lead_ok b) as [H1 H2]; destruct (utf8_lead b) as [out st'];
        cbn [fst snd] in *; constructor; [unfold scalar; lia|];
        apply Forall_app; split; auto.
    + destruct (utf8_lead_ok b) as [H1 H2]. destruct (utf8_lead b) as [out st'].
      cbn [fst snd] in *. apply Forall_app. split; auto.
Qed.

Lemma well_formed_scalars (cps : list N) :
  Forall scalar cps ->
  wf_string (flat_map utf16_units cps) /\ well_formed (flat_map utf16_units cps) = true.
Proof.
  induction 1 as [|cp cps [H1 H2] _ [IH1 IH2]]; [split; [constructor | reflexivity]|].
  cbn [flat_map]. unfold utf16_units at 1 3.
  destruct (N.ltb_spec cp 0x10000).
  - cbn [app]. split; [constructor; [lia | exact IH1]|].
    cbn [well_formed]. unfold is_high_surrogate, is_low_surrogate.
    destruct (N.leb_spec 0xD800 cp), (N.leb_spec cp 0xDBFF),
      (N.leb_spec 0xDC00 cp), (N.leb_spec cp 0xDFFF); cbn [andb negb]; auto; lia.
  - cbn [app]. split; [constructor; [lia|]; constructor; [lia | exact IH1]|].
    cbn [well_formed]. unfold is_high_surrogate, is_low_surrogate.
    destruct (N.leb_spec 0xD800 (0xD800 + (cp - 0x10000) / 0x400)),
      (N.leb_spec (0xD800 + (cp - 0x10000) / 0x400) 0xDBFF); cbn [andb]; try lia.
    destruct (N.leb_spec 0xDC00 (0xDC00 + (cp - 0x10000) mod 0x400)),
      (N.leb_spec (0xDC00 + (cp - 0x10000) mod 0x400) 0xDFFF); cbn [andb]; auto; lia.
Qed.

(** Whatever the bytes, the decoder delivers text. *)
Lemma utf8_decode_text (bs : list N) : text (utf8_decode bs).
Proof.
  unfold utf8_decode, text. apply well_formed_scalars.
  apply (utf8_decode_from_scalar bs None I).
Qed.

Lemma utf8_decode_wf (bs : list N) : wf_string (utf8_decode bs).
Proof. apply utf8_decode_text. Qed.

Lemma urlencoded_parse_wf (q : list N) :
  Forall (fun kv => wf_string (fst kv) /\ wf_string (snd kv)) (urlencoded_parse q).
Proof.
  unfold urlencoded_parse. apply Forall_map, Forall_forall. intros piece _.
  destruct (name_value piece). cbn [fst snd]. unfold urlencoded_decode_string.
  split; apply utf8_decode_wf.
Qed.

Lemma fold_obj_set_wf (ps : URLSearchParams) : forall o,
  Forall (fun kv => wf_string (fst kv) /\ wf_string (snd kv)) ps ->
  Forall wf_entry o ->
  Forall wf_entry (fold_left (fun (o : obj) kv => obj_set o (fst kv) (snd kv)) ps o).
Proof.
  induction ps as [|[k v] ps IH]; intros o Hps Ho; cbn [fold_left]; auto.
  inversion Hps as [|? ? [Hk Hv] Hps']; subst. apply IH; auto.
  apply Forall_obj_set; auto. intros k' ->. now split.
Qed.

(** The parameters [parseUpiUri] returns are made of code units. *)
Lemma parseUpiUri_wf (engine : Engine) (upiUri : jsstring) (r : Parsed.t) :
  parseUpiUri engine upiUri = Return r ->
  NoDup (keys (Parsed.params r)) /\ Forall wf_entry (Parsed.params r).
Proof.
  rewrite parseUpiUri_eq. destruct (new_URL engine upiUri) as [url|]; [|discriminate].
  destruct (negb (str_eqb (protocol url) (lit "upi:"))); [discriminate|].
  destruct (action_of (hostname url)); [|discriminate].
  destruct (negb (isValid (validateUpiParams (decoded_params url)))); [discriminate|].
  intros [= <-]. cbn [Parsed.params]. split; [apply normalizedParams_keys|].
  apply normalizedParams_wf. unfold decoded_params, searchParams.
  apply fold_obj_set_wf; [apply urlencoded_parse_wf | constructor].
Qed.

Lemma fold_append_entry_wf (l : list (jsstring * value)) : forall ps,
  Forall wf_entry l ->
  Forall (fun kv => wf_string (fst kv) /\ wf_string (snd kv)) ps ->
  Forall (fun kv => wf_string (fst kv) /\ wf_string (snd kv)) (fold_left append_entry l ps).
Proof.
  induction l as [|[k x] l IH]; intros ps Hl Hps; cbn [fold_left]; auto.
  inversion Hl as [|? ? [Hk Hx] Hl']; subst. apply IH; auto.
  unfold append_entry, append; cbn [fst snd] in *. destruct x as [v|]; auto.
  destruct (is_empty v); auto. apply Forall_app. split; auto.
Qed.

Lemma extractQueryFromUri_query (engine : Engine) (upiUri q : jsstring) :
  extractQueryFromUri engine upiUri = Return q -> forallb query_unit q = true.
Proof.
  unfold extractQueryFromUri.
  destruct (parseUpiUri engine upiUri) as [r|e] eqn:Hr; cbn [bind try_catch];
    [|discriminate].
  intros [= <-]. apply toString_units_wf, fold_append_entry_wf; [|constructor].
  apply Forall_entries. eapply parseUpiUri_wf; eauto.
Qed.

Lemma encodeURIComponent_units (s e : jsstring) :
  wf_string s -> encodeURIComponent s = Some e -> forallb component_unit e = true.
Proof.
  intros Hwf. unfold encodeURIComponent. destruct (well_formed s); [|discriminate].
  intros [= <-]. apply utf8_encode_small in Hwf.
  revert Hwf. generalize (utf8_encode s). intros l Hwf.
  induction Hwf as [|b bs Hb Hbs IH]; [reflexivity|].
  cbn [flat_map]. rewrite forallb_app. apply andb_true_iff. split; [|exact IH].
  destruct (uri_unreserved b) eqn:Hu.
  - cbn [forallb]. unfold component_unit. now rewrite Hu.
  - unfold percent_encode_byte. cbn [forallb].
    assert (Hhex : forall n, (n < 16)%N -> component_unit (hex_digit n) = true).
    { intros n Hn. apply hex_digit_plain in Hn. unfold component_unit, uri_unreserved.
      unfold urlencoded_plain in Hn.
      destruct (is_alnum (hex_digit n)); [reflexivity|]. cbn [orb] in *.
      destruct (N.eqb_spec (hex_digit n) 45); [reflexivity|].
      destruct (N.eqb_spec (hex_digit n) 95); [reflexivity|].
      destruct (N.eqb_spec (hex_digit n) 46); [reflexivity|].
      destruct (N.eqb_spec (hex_digit n) 42); [|discriminate].
      cbn [orb]. now rewrite !orb_true_r. }
    rewrite !Hhex by lia. reflexivity.
Qed.

Lemma query_unit_plain (c : code_unit) :
  query_unit c = true ->
  (32 < c < 127)%N /\ c <> 35%N /\ c <> 36%N /\ c <> 59%N /\ c <> 123%N.
Proof.
  unfold query_unit, urlencoded_unit, urlencoded_plain, is_alnum, is_digit,
    is_upper, is_lower.
  rewrite !orb_true_iff, !andb_true_iff, !N.leb_le, !N.eqb_eq. lia.
Qed.

Lemma component_unit_plain (c : code_unit) :
  component_unit c = true -> (32 < c < 127)%N /\ c <> 35%N /\ c <> 59%N.
Proof.
  unfold component_unit, uri_unreserved, is_alnum, is_digit, is_upper, is_lower.
  rewrite !orb_true_iff, !andb_true_iff, !N.leb_le, !N.eqb_eq. lia.
Qed.

(** X8: whatever the string [extractQueryFromUri] is given, the query it
    returns is made only of ASCII letters, digits and [* - . _ + % = &];
    in particular it holds no number sign, no semicolon, no dollar sign
    and no brace. *)
Theorem X8_query_characters (engine : Engine) (upiUri q : jsstring) :
  extractQueryFromUri engine upiUri = Return q ->
  forallb query_unit q = true /\
  Forall (fun c => (32 < c < 127)%N /\ c <> 35%N /\ c <> 36%N /\ c <> 59%N /\ c <> 123%N) q.
Proof.
  intros H. apply extractQueryFromUri_query in H. split; [exact H|].
  apply Forall_forall. intros c Hc. apply query_unit_plain.
  rewrite forallb_forall in H. auto.
Qed.

Lemma X8_witness :
  forallb query_unit (lit "pa=test%40upi&pn=Test") = true.
Proof.
  apply (X8_query_characters node_engine plain_at_uri (lit "pa=test%40upi&pn=Test")).
  vm_compute. reflexivity.
Defined.

Lemma upi_query_units (engine : Engine) (options : Options.t) (q : jsstring) :
  upi_query engine options = Return q -> forallb query_unit q = true.
Proof.
  unfold upi_query. destruct (base_uri options) as [b|]; cbn [bind]; [|discriminate].
  apply extractQueryFromUri_query.
Qed.

(** X9: in the Android intent URL of an app with a package, the query
    and the encoded fallback hold no number sign and no semicolon, so the
    fields of the intent ([scheme], [package], [S.browser_fallback_url],
    [end]) are delimited as written: the URL is
    [intent://<action>?<query>#Intent;scheme=upi;package=<package>],
    then [;S.browser_fallback_url=<encoded>] when the link has a fallback,
    then [;end]. *)
Theorem X9_intent_url_characters (engine : Engine) (appsData : list UpiApp.t)
    (options : Options.t) (link : Link.t) (app : UpiApp.t) (package : jsstring) :
  buildAppLink engine appsData options = Return link ->
  Options.platform options = android ->
  getApp appsData (Options.appId options) = Some app ->
  UpiApp.androidPackage app = Some package -> package <> [] ->
  wf_value (resolved_fallback appsData options) ->
  exists q encoded,
    Link.url link =
    lit "intent://" ++ action_name (default pay (Options.action options)) ++ lit "?" ++ q
    ++ lit "#Intent;scheme=upi;package=" ++ package
    ++ (if truthy (Link.fallbackUrl link)
        then lit ";S.browser_fallback_url=" ++ encoded else [])
    ++ lit ";end" /\
    Forall (fun c => (32 < c < 127)%N /\ c <> 35%N /\ c <> 59%N) (q ++ encoded).
Proof.
  intros Hlink Hplat Hget Hpkg Hne Hwf.
  rewrite buildAppLink_eq, Hget, Hplat in Hlink.
  destruct (negb (truthy (Options.upiUri options)) && _); [discriminate|].
  destruct (upi_query engine options) as [q|] eqn:Hq; cbn [bind] in Hlink; [|discriminate].
  rewrite (buildAndroidIntentUrl_package engine appsData _ app package q _ _ Hget Hpkg Hne)
    in Hlink.
  assert (Hqu : Forall (fun c => (32 < c < 127)%N /\ c <> 35%N /\ c <> 59%N) q).
  { apply upi_query_units in Hq. apply Forall_forall. intros c Hc.
    rewrite forallb_forall in Hq. specialize (Hq c Hc).
    apply query_unit_plain in Hq. tauto. }
  destruct (truthy (resolved_fallback appsData options)) eqn:Ht.
  - destruct (encodeURIComponent (default [] (resolved_fallback appsData options)))
      as [encoded|] eqn:He; cbn [bind] in Hlink; [|discriminate].
    injection Hlink as <-. cbn [Link.url Link.fallbackUrl]. rewrite Ht.
    exists q, encoded. split; [rewrite <- ?app_assoc; reflexivity|].
    apply Forall_app. split; [exact Hqu|].
    apply encodeURIComponent_units in He.
    + apply Forall_forall. intros c Hc. apply component_unit_plain.
      rewrite forallb_forall in He. auto.
    + destruct (resolved_fallback appsData options); [exact Hwf | constructor].
  - cbn [bind] in Hlink. injection Hlink as <-. cbn [Link.url Link.fallbackUrl]. rewrite Ht.
    exists q, []. split; [rewrite <- ?app_assoc; reflexivity|]. now rewrite app_nil_r.
Qed.

Lemma X9_witness :
  exists link q encoded,
    buildAppLink node_engine sample_apps (link_options (lit "gpay") testUpiUri android)
    = Return link /\
    Link.url link =
    lit "intent://" ++ action_name pay ++ lit "?" ++ q
    ++ lit "#Intent;scheme=upi;package=" ++ lit "com.google.android.apps.nbu.paisa.user"
    ++ (if truthy (Link.fallbackUrl link)
        then lit ";S.browser_fallback_url=" ++ encoded else [])
    ++ lit ";end" /\
    Forall (fun c => (32 < c < 127)%N /\ c <> 35%N /\ c <> 59%N) (q ++ encoded).
Proof.
  assert (H : exists link,
             buildAppLink node_engine sample_apps
               (link_options (lit "gpay") testUpiUri android) = Return link)
    by (eexists; vm_compute; reflexivity).
  destruct H as [link Hlink]. exists link.
  destruct (X9_intent_url_characters node_engine sample_apps
              (link_options (lit "gpay") testUpiUri android) link gpay_app
              (lit "com.google.android.apps.nbu.paisa.user") Hlink)
    as (q & encoded & H1 & H2).
  - reflexivity.
  - vm_compute. reflexivity.
  - reflexivity.
  - vm_compute. discriminate.
  - apply wf_stringb_spec. vm_compute. reflexivity.
  - exists q, encoded. split; [exact Hlink|]. split; [exact H1 | exact H2].
Defined.

(** ** Links for several apps *)

Lemma map_result_Forall2 {A B} (f : A -> result B) (l : list A) (ys : list B) :
  map_result f l = Return ys <-> Forall2 (fun x y => f x = Return y) l ys.
Proof.
  revert ys. induction l as [|x l IH]; intros ys; cbn [map_result].
  - split.
    + intros [= <-]. constructor.
    + intros H. inversion H. reflexivity.
  - split.
    + destruct (f x) as [y|] eqn:Hy; cbn [bind]; [|discriminate].
      destruct (map_result f l) as [ys'|] eqn:Hl; cbn [bind]; [|discriminate].
      intros [= <-]. constructor; [exact Hy|]. now apply IH.
    + intros H. inversion H as [|? y ? ys' Hy Hl]; subst.
      rewrite Hy. cbn [bind]. apply IH in Hl. rewrite Hl. reflexivity.
Qed.

Lemma map_result_throws {A B} (f : A -> result B) (l : list A) :
  (exists e, map_result f l = Throw e) <-> Exists (fun x => exists e, f x = Throw e) l.
Proof.
  induction l as [|x l IH]; cbn [map_result].
  - split.
    + intros [e H]. discriminate.
    + intros H. inversion H.
  - split.
    + destruct (f x) as [y|e] eqn:Hy; cbn [bind].
      * destruct (map_result f l) as [ys|e'] eqn:Hl; cbn [bind].
        -- intros [e H]. discriminate.
        -- intros _. right. apply IH. eauto.
      * intros _. left. eauto.
    + intros H. destruct (f x) as [y|e] eqn:Hy; cbn [bind]; [|eauto].
      inversion H as [? ? [e He]|? ? Hl]; subst; [congruence|].
      apply IH in Hl as [e He]. rewrite He. cbn [bind]. eauto.
Qed.

Lemma buildMultipleAppLinks_eq (engine : Engine) (appsData : list UpiApp.t)
    (navigator : option jsstring) (upiUri : jsstring) (appIds : list UpiAppId)
    (platform : option Platform) (action : option UpiAction) :
  buildMultipleAppLinks engine appsData navigator upiUri appIds platform action =
  map_result (fun appId =>
                buildAppLink engine appsData
                  (options_for upiUri (target_platform navigator platform)
                               (default pay action) appId))
             appIds.
Proof. reflexivity. Qed.

(** What a link says of the call that made it. *)
Lemma buildAppLink_fields (engine : Engine) (appsData : list UpiApp.t)
    (options : Options.t) (link : Link.t) :
  buildAppLink engine appsData options = Return link ->
  AppInfo.id (Link.app link) = Options.appId options /\
  Link.platform link = Options.platform options /\
  Link.action link = default pay (Options.action options) /\
  Link.fallbackUrl link = resolved_fallback appsData options /\
  exists app,
    getApp appsData (Options.appId options) = Some app /\
    Link.app link = app_info (Options.appId options) app.
Proof.
  rewrite buildAppLink_eq.
  destruct (negb (truthy (Options.upiUri options)) && _); [discriminate|].
  destruct (getApp appsData (Options.appId options)) as [app|]; [|discriminate].
  destruct (upi_query engine options) as [q|]; cbn [bind]; [|discriminate].
  destruct (Options.platform options).
  - destruct (buildAndroidIntentUrl _ _ _ _ _ _); cbn [bind]; [|discriminate].
    intros [= <-]. cbn. eauto 10.
  - intros [= <-]. cbn. eauto 10.
Qed.

(** X10: when [buildMultipleAppLinks] returns, it returns one link per
    requested id, in the order of the ids; each link is the one
    [buildAppLink] returns for that id with the given URI, and all carry
    the same platform (the one given, or else the detected one), the same
    action (by default [pay]) and the store URL of their app for that
    platform as fallback. *)
Theorem X10_multiple_links (engine : Engine) (appsData : list UpiApp.t)
    (navigator : option jsstring) (upiUri : jsstring) (appIds : list UpiAppId)
    (platform : option Platform) (action : option UpiAction) (links : list Link.t) :
  buildMultipleAppLinks engine appsData navigator upiUri appIds platform action
  = Return links ->
  map (fun link => AppInfo.id (Link.app link)) links = appIds /\
  Forall2 (fun appId link =>
             buildAppLink engine appsData
               (options_for upiUri (target_platform navigator platform)
                            (default pay action) appId) = Return link)
          appIds links /\
  Forall (fun link =>
            Link.platform link = target_platform navigator platform /\
            Link.action link = default pay action /\
            Link.fallbackUrl link
            = getStoreUrl appsData (AppInfo.id (Link.app link))
                          (target_platform navigator platform))
         links.
Proof.
  rewrite buildMultipleAppLinks_eq, map_result_Forall2. intros H.
  split; [|split; [exact H|]].
  - induction H as [|id link ids links Hlink _ IH]; [reflexivity|].
    cbn [map]. apply buildAppLink_fields in Hlink as (Hid & _). cbn in Hid.
    now rewrite Hid, IH.
  - induction H as [|id link ids links Hlink _ IH]; constructor; auto.
    apply buildAppLink_fields in Hlink as (Hid & Hp & Ha & Hf & _).
    cbn [options_for Options.platform Options.action Options.appId default] in *.
    rewrite Hid. repeat split; auto. rewrite Hf.
    unfold resolved_fallback.
    cbn [options_for Options.platform Options.includeFallback Options.fallbackUrl
         Options.appId default js_or truthy].
    destruct (target_platform navigator platform); reflexivity.
Qed.

Lemma X10_witness :
  exists links,
    buildMultipleAppLinks node_engine sample_apps None testUpiUri
      [lit "gpay"; lit "generic"] None None = Return links /\
    map (fun link => AppInfo.id (Link.app link)) links = [lit "gpay"; lit "generic"].
Proof.
  assert (H : exists links,
             buildMultipleAppLinks node_engine sample_apps None testUpiUri
               [lit "gpay"; lit "generic"] None None = Return links)
    by (eexists; vm_compute; reflexivity).
  destruct H as [links Hlinks]. exists links. split; [exact Hlinks|].
  exact (proj1 (X10_multiple_links node_engine sample_apps None testUpiUri
                  [lit "gpay"; lit "generic"] None None links Hlinks)).
Defined.

Lemma buildAppLink_for_returns (engine : Engine) (appsData : list UpiApp.t)
    (upiUri : jsstring) (platform : Platform) (action : UpiAction) (appId : UpiAppId) :
  (forall id, well_formed (default [] (getStoreUrl appsData id android)) = true) ->
  (exists link,
     buildAppLink engine appsData (options_for upiUri platform action appId) = Return link)
  <->
  (exists r, parseUpiUri engine upiUri = Return r) /\
  (exists app, getApp appsData appId = Some app).
Proof.
  intros Hstore. rewrite buildAppLink_eq.
  unfold upi_query, base_uri, resolved_fallback.
  cbn [options_for Options.appId Options.upiUri Options.upiParams Options.platform
       Options.action Options.fallbackUrl Options.includeFallback default js_or truthy].
  destruct upiUri as [|c u].
  { cbn [truthy negb andb]. split.
    - intros [link H]. discriminate.
    - intros [[r Hr] _]. discriminate. }
  cbn [truthy negb andb default bind].
  destruct (getApp appsData appId) as [app|] eqn:Hget.
  2:{ split; [intros [link H]; discriminate | intros [_ [app H]]; discriminate]. }
  unfold extractQueryFromUri.
  destruct (parseUpiUri engine (c :: u)) as [r|e]; cbn [bind try_catch].
  2:{ split; [intros [link H]; discriminate | intros [[r H] _]; discriminate]. }
  split; [eauto|]. intros _.
  destruct platform; [|eauto].
  unfold buildAndroidIntentUrl. cbv zeta. rewrite Hget.
  destruct (negb (truthy (UpiApp.androidPackage app))); cbn [bind]; [eauto|].
  specialize (Hstore appId).
  destruct (getStoreUrl appsData appId android) as [[|d f]|]; cbn [bind]; eauto.
  unfold encodeURIComponent. cbn [default] in Hstore. rewrite Hstore. cbn [bind]. eauto.
Qed.

(** X11: provided the Android store URLs of the registry hold no
    unpaired surrogate, [buildMultipleAppLinks] returns exactly when the
    list of ids is empty, or the URI parses and every id is registered.
    With no id it returns the empty list without looking at the URI. *)
Theorem X11_multiple_links_return (engine : Engine) (appsData : list UpiApp.t)
    (navigator : option jsstring) (upiUri : jsstring) (appIds : list UpiAppId)
    (platform : option Platform) (action : option UpiAction) :
  (forall id, well_formed (default [] (getStoreUrl appsData id android)) = true) ->
  ((exists links,
      buildMultipleAppLinks engine appsData navigator upiUri appIds platform action
      = Return links)
   <->
   appIds = [] \/
   (exists r, parseUpiUri engine upiUri = Return r) /\
   Forall (fun appId => exists app, getApp appsData appId = Some app) appIds) /\
  buildMultipleAppLinks engine appsData navigator upiUri [] platform action = Return [].
Proof.
  intros Hstore. split; [|reflexivity]. rewrite buildMultipleAppLinks_eq.
  set (f := fun appId => buildAppLink engine appsData
                           (options_for upiUri (target_platform navigator platform)
                                        (default pay action) appId)).
  assert (Hf : forall id, (exists link, f id = Return link) <->
                          (exists r, parseUpiUri engine upiUri = Return r) /\
                          (exists app, getApp appsData id = Some app)).
  { intros id. now apply buildAppLink_for_returns. }
  clearbody f. induction appIds as [|id ids IH]; cbn [map_result].
  - split; [now left | eauto].
  - split.
    + destruct (f id) as [link|] eqn:Hlink; cbn [bind]; [|intros [l H]; discriminate].
      destruct (map_result f ids) as [links|] eqn:Hlinks; cbn [bind];
        [|intros [l H]; discriminate].
      intros _. right.
      destruct (proj1 (Hf id) (ex_intro _ link Hlink)) as [Hparse Happ].
      split; [exact Hparse|]. constructor; [exact Happ|].
      destruct (proj1 IH (ex_intro _ links eq_refl)) as [-> | [_ H]]; [constructor | exact H].
    + intros [H | [Hparse Hall]]; [discriminate|].
      inversion Hall as [|? ? Happ Hall']; subst.
      destruct (proj2 (Hf id) (conj Hparse Happ)) as [link ->]. cbn [bind].
      destruct (proj2 IH (or_intror (conj Hparse Hall'))) as [links ->]. cbn [bind]. eauto.
Qed.

Lemma sample_store_urls (id : UpiAppId) :
  well_formed (default [] (getStoreUrl sample_apps id android)) = true.
Proof.
  unfold getStoreUrl, getApp, getAllApps, sample_apps. cbn [find].
  destruct (str_eqb (UpiApp.id gpay_app) id); [vm_compute; reflexivity|].
  destruct (str_eqb (UpiApp.id generic_app) id); reflexivity.
Qed.

Lemma X11_witness :
  exists links,
    buildMultipleAppLinks node_engine sample_apps None testUpiUri
      [lit "generic"; lit "gpay"] (Some ios) None = Return links.
Proof.
  apply (proj2 (proj1 (X11_multiple_links_return node_engine sample_apps None testUpiUri
                         [lit "generic"; lit "gpay"] (Some ios) None sample_store_urls))).
  right. split.
  - eexists. vm_compute. reflexivity.
  - repeat constructor; eexists; vm_compute; reflexivity.
Defined.

(** ** Parameters in place of a URI *)

Lemma buildUpiUri_truthy (p : obj) (a : UpiAction) (u : jsstring) :
  buildUpiUri p a = Return u -> truthy (Some u) = true.
Proof.
  unfold buildUpiUri. destruct (negb (isValid (validateUpiParams p))); [discriminate|].
  intros [= <-]. reflexivity.
Qed.

(** X12: with parameters and no URI (or an empty one), [buildAppLink]
    gives what it gives for the URI that [buildUpiUri] builds from the
    parameters and the requested action; when [buildUpiUri] throws, its
    error is thrown as it is for a registered app, and the unknown-app
    error is thrown otherwise. *)
Theorem X12_link_from_params (engine : Engine) (appsData : list UpiApp.t)
    (options : Options.t) (p : obj) :
  truthy (Options.upiUri options) = false ->
  Options.upiParams options = Some p ->
  match buildUpiUri p (default pay (Options.action options)) with
  | Return u =>
      buildAppLink engine appsData options
      = buildAppLink engine appsData (with_upiUri options (Some u))
  | Throw e =>
      buildAppLink engine appsData options =
      match getApp appsData (Options.appId options) with
      | Some _ => Throw e
      | None => Throw (Error (lit "Unknown app ID: " ++ Options.appId options))
      end
  end.
Proof.
  intros Hu Hp.
  destruct (buildUpiUri p (default pay (Options.action options))) as [u|e] eqn:Hb;
    rewrite !buildAppLink_eq; unfold upi_query, base_uri, resolved_fallback;
    cbn [with_upiUri Options.appId Options.upiUri Options.upiParams Options.platform
         Options.action Options.fallbackUrl Options.includeFallback];
    rewrite Hu, Hp, ?Hb; cbn [negb andb].
  - rewrite (buildUpiUri_truthy _ _ _ Hb). cbn [negb andb default]. reflexivity.
  - cbn [bind]. destruct (getApp appsData (Options.appId options)); reflexivity.
Qed.

Lemma X12_witness :
  buildAppLink node_engine sample_apps params_options
  = buildAppLink node_engine sample_apps
      (with_upiUri params_options (Some (lit "upi://pay?pa=test%40upi&pn=Test+User"))).
Proof.
  pose proof (X12_link_from_params node_engine sample_apps params_options params_basic
                eq_refl eq_refl) as H.
  assert (E : buildUpiUri params_basic (default pay (Options.action params_options))
              = Return (lit "upi://pay?pa=test%40upi&pn=Test+User"))
    by (vm_compute; reflexivity).
  rewrite E in H. exact H.
Defined.

(** X13: for the generic entry of the registry, when it has no Android
    package, the Android link built from parameters has as [url] exactly
    the URI that [buildGenericUpiLink] returns for these parameters and
    this action (parameters of text, none of whose keys is an array
    index). *)
Theorem X13_generic_link (engine : Engine) (appsData : list UpiApp.t)
    (generic : UpiApp.t) (p : obj) (u : jsstring) (action : option UpiAction)
    (fallbackUrl : option jsstring) (includeFallback : option bool) :
  getApp appsData (lit "generic") = Some generic ->
  truthy (UpiApp.androidPackage generic) = false ->
  text_obj p ->
  forallb is_named p = true ->
  buildGenericUpiLink p action = Return u ->
  exists link,
    buildAppLink engine appsData
      {| Options.appId := lit "generic";
         Options.upiUri := None;
         Options.upiParams := Some p;
         Options.platform := android;
         Options.action := action;
         Options.fallbackUrl := fallbackUrl;
         Options.includeFallback := includeFallback |} = Return link /\
    Link.url link = u /\
    Link.action link = default pay action.
Proof.
  intros Hget Hpkg Htext Hnamed Hbuild. unfold buildGenericUpiLink in Hbuild.
  assert (Hvalid : isValid (validateUpiParams p) = true).
  { unfold buildUpiUri in Hbuild. destruct (isValid (validateUpiParams p));
      [reflexivity | discriminate]. }
  destruct (buildUpiUri_valid p (default pay action) Htext Hvalid) as [Hcan Hbuild'].
  pose proof (build_query_named p Htext Hnamed) as Hq.
  set (ps := build_query (normalizedParams (validateUpiParams p))) in *.
  assert (Hu : u = lit "upi://" ++ action_name (default pay action) ++ lit "?" ++ toString ps)
    by congruence.
  rewrite buildAppLink_eq. cbn [Options.appId Options.upiUri Options.upiParams
    Options.platform Options.action].
  rewrite Hget. unfold upi_query, base_uri.
  cbn [Options.upiUri Options.upiParams Options.action truthy negb andb].
  rewrite Hbuild. cbn [bind].
  assert (Hx : extractQueryFromUri engine u = Return (toString ps)).
  { rewrite Hu. now apply extractQueryFromUri_canonical. }
  rewrite Hx. cbn [bind].
  unfold buildAndroidIntentUrl. cbv zeta. rewrite Hget, Hpkg. cbn [negb bind].
  eexists. split; [reflexivity|]. cbn [Link.url Link.action]. now rewrite Hu.
Qed.

Lemma X13_witness :
  exists link,
    buildAppLink node_engine sample_apps
      {| Options.appId := lit "generic";
         Options.upiUri := None;
         Options.upiParams := Some params_with_amount;
         Options.platform := android;
         Options.action := None;
         Options.fallbackUrl := None;
         Options.includeFallback := None |} = Return link /\
    Link.url link = testUpiUri /\
    Link.action link = pay.
Proof.
  refine (X13_generic_link node_engine sample_apps generic_app
            params_with_amount testUpiUri None None None _ _ _ _ _).
  - vm_compute. reflexivity.
  - vm_compute. reflexivity.
  - apply text_objb_spec. vm_compute. reflexivity.
  - vm_compute. reflexivity.
  - vm_compute. reflexivity.
Defined.

(** ** The errors of [buildAppLink], in the order they are looked for *)

(** X14: the errors of [buildAppLink], once a URI or parameters are
    given: an id that is not registered raises [Unknown app ID: <id>]
    before the URI is looked at; for a registered id, a URI that
    [parseUpiUri] rejects with an error of message [m] raises an [Error]
    of message [Invalid UPI URI: m], whatever the kind of the first
    error. *)
Theorem X14_link_errors (engine : Engine) (appsData : list UpiApp.t)
    (options : Options.t) :
  truthy (Options.upiUri options) = true \/ Options.upiParams options <> None ->
  match getApp appsData (Options.appId options) with
  | None =>
      buildAppLink engine appsData options
      = Throw (Error (lit "Unknown app ID: " ++ Options.appId options))
  | Some _ =>
      forall u e,
        Options.upiUri options = Some u -> truthy (Some u) = true ->
        parseUpiUri engine u = Throw e ->
        buildAppLink engine appsData options
        = Throw (Error (lit "Invalid UPI URI: " ++ message e))
  end.
Proof.
  intros Hgiven. rewrite buildAppLink_eq.
  assert (Harg : negb (truthy (Options.upiUri options))
                 && negb (match Options.upiParams options with
                          | Some _ => true | None => false end) = false).
  { destruct Hgiven as [-> | H]; [reflexivity|].
    destruct (Options.upiParams options); [|congruence]. apply andb_false_r. }
  rewrite Harg. destruct (getApp appsData (Options.appId options)); [|reflexivity].
  intros u e Hu Ht Hparse. unfold upi_query, base_uri. rewrite Hu, Ht.
  cbn [default bind]. unfold extractQueryFromUri. rewrite Hparse. reflexivity.
Qed.

Lemma X14_witness :
  buildAppLink node_engine sample_apps (link_options (lit "gpay") http_uri android)
  = Throw (Error (lit "Invalid UPI URI: Invalid UPI URI: must start with upi://")).
Proof.
  pose proof (X14_link_errors node_engine sample_apps
                (link_options (lit "gpay") http_uri android) (or_introl eq_refl)) as H.
  assert (E : getApp sample_apps
                (Options.appId (link_options (lit "gpay") http_uri android))
              = Some gpay_app) by (vm_compute; reflexivity).
  rewrite E in H.
  apply (H http_uri (Error (lit "Invalid UPI URI: must start with upi://")));
    vm_compute; reflexivity.
Defined.

(** ** The template of an iOS link *)

Lemma starts_with_app (p s : jsstring) : starts_with p (p ++ s) = true.
Proof. induction p as [|c p IH]; cbn; [reflexivity|]. now rewrite N.eqb_refl. Qed.

Lemma skipn_app_length {A} (p s : list A) : skipn (List.length p) (p ++ s) = s.
Proof. induction p; cbn; auto. Qed.

Lemma find_first_eq (pat s : jsstring) :
  find_first pat s =
  if starts_with pat s then Some ([], skipn (List.length pat) s)
  else
    match s with
    | [] => None
    | c :: r =>
        match find_first pat r with
        | Some (before, after) => Some (c :: before, after)
        | None => None
        end
    end.
Proof. destruct s; reflexivity. Qed.

(** A prefix that is long enough decides whether a string starts with
    the pattern. *)
Lemma starts_with_long (pat x y : jsstring) :
  List.length pat <= List.length x -> starts_with pat (x ++ y) = starts_with pat x.
Proof.
  revert x. induction pat as [|c pat IH]; intros [|d x] H; cbn in *;
    [reflexivity | reflexivity | lia |].
  rewrite IH by lia. reflexivity.
Qed.

Lemma includes_short (pat s : jsstring) :
  List.length s < List.length pat -> includes pat s = false.
Proof.
  intros H. destruct (includes pat s) eqn:E; [|reflexivity].
  apply includes_spec in E as (a & b & ->). rewrite !length_app in H. lia.
Qed.

(** The search of [replace] stops at the occurrence of the pattern that
    no other occurrence precedes. *)
Lemma find_first_at (p : jsstring) (z : code_unit) (before after : jsstring) :
  includes (p ++ [z]) (before ++ p) = false ->
  find_first (p ++ [z]) (before ++ (p ++ [z]) ++ after) = Some (before, after).
Proof.
  induction before as [|d before IH]; intros H.
  - cbn [app]. now rewrite find_first_eq, starts_with_app, skipn_app_length.
  - cbn [app includes] in H. apply orb_false_iff in H as [H1 H2].
    change ((d :: before) ++ (p ++ [z]) ++ after)
      with (d :: (before ++ (p ++ [z]) ++ after)).
    rewrite find_first_eq.
    assert (E : d :: before ++ (p ++ [z]) ++ after
                = (d :: before ++ p) ++ [z] ++ after).
    { cbn [app]. now rewrite <- !app_assoc. }
    rewrite E at 1. rewrite starts_with_long, H1.
    + now rewrite IH.
    + cbn [List.length]. rewrite !length_app. cbn [List.length]. lia.
Qed.

Lemma find_first_exists (p : jsstring) (z : code_unit) (s : jsstring) :
  includes (p ++ [z]) s = true ->
  exists before after,
    s = before ++ (p ++ [z]) ++ after /\ includes (p ++ [z]) (before ++ p) = false.
Proof.
  induction s as [|c s IH]; cbn [includes].
  - rewrite orb_false_r. intros H. apply starts_with_spec in H as (b & E).
    destruct p; discriminate.
  - destruct (starts_with (p ++ [z]) (c :: s)) eqn:Hs; cbn [orb].
    + intros _. apply starts_with_spec in Hs as (b & E).
      exists [], b. split; [exact E|]. apply includes_short.
      cbn [app]. rewrite length_app. cbn [List.length]. lia.
    + intros H. destruct (IH H) as (before & after & E & Hfirst).
      exists (c :: before), after. split; [cbn [app]; now rewrite E|].
      cbn [app includes]. rewrite Hfirst, orb_false_r.
      rewrite <- Hs, E.
      assert (E' : c :: before ++ (p ++ [z]) ++ after
                   = (c :: before ++ p) ++ [z] ++ after).
      { cbn [app]. now rewrite <- !app_assoc. }
      rewrite E'. symmetry. apply starts_with_long.
      cbn [List.length]. rewrite !length_app. cbn [List.length]. lia.
Qed.

Lemma find_first_none (pat s : jsstring) :
  includes pat s = false -> find_first pat s = None.
Proof.
  induction s as [|c s IH]; cbn [includes find_first]; intros H;
    apply orb_false_iff in H as [H1 H2]; rewrite H1; [reflexivity|].
  now rewrite IH.
Qed.

Lemma get_substitution_plain (matched before after q : jsstring) :
  forallb (fun c => negb (c =? 36)%N) q = true ->
  get_substitution matched before after q = q.
Proof.
  induction q as [|c q IH]; cbn [forallb get_substitution]; [reflexivity|].
  intros H. apply andb_true_iff in H as [Hc Hq]. apply negb_true_iff in Hc.
  rewrite Hc. now rewrite IH.
Qed.

(** X16: on iOS, for a registered app and a base URI that parses, the
    [url] of the link is the template of the app for the action with the
    first [{query}] replaced by the query as it is (no [$] pattern of
    [replace] can apply, the query holding no dollar sign).  The first
    [{query}] is the one at which the template reads
    [before ++ {query} ++ after] with no [{query}] in [before ++ {query]:
    every template that holds [{query}] reads so, and the [url]
    is then [before ++ query ++ after], later occurrences being left as
    they are.  A template without [{query}] is returned unchanged, the
    query being dropped; an empty template gives
    [upi://<action>?<query>]. *)
Theorem X16_ios_link_url (engine : Engine) (appsData : list UpiApp.t)
    (options : Options.t) (app : UpiApp.t) (q : jsstring) :
  getApp appsData (Options.appId options) = Some app ->
  Options.platform options = ios ->
  upi_query engine options = Return q ->
  let action := default pay (Options.action options) in
  let template := ios_template app action in
  exists link,
    buildAppLink engine appsData options = Return link /\
    (forall before after,
       template = before ++ lit "{query}" ++ after ->
       includes (lit "{query}") (before ++ lit "{query") = false ->
       Link.url link = before ++ q ++ after) /\
    (includes (lit "{query}") template = true ->
     exists before after,
       template = before ++ lit "{query}" ++ after /\
       includes (lit "{query}") (before ++ lit "{query") = false /\
       Link.url link = before ++ q ++ after) /\
    (includes (lit "{query}") template = false -> template <> [] ->
     Link.url link = template) /\
    (template = [] ->
     Link.url link = lit "upi://" ++ action_name action ++ lit "?" ++ q).
Proof.
  intros Hget Hplat Hq action template.
  assert (Harg : negb (truthy (Options.upiUri options))
                 && negb (match Options.upiParams options with
                          | Some _ => true | None => false end) = false).
  { unfold upi_query, base_uri in Hq.
    destruct (truthy (Options.upiUri options)); [reflexivity|].
    destruct (Options.upiParams options); [reflexivity | discriminate]. }
  rewrite buildAppLink_eq, Harg, Hget, Hq, Hplat. cbn [bind].
  eexists. split; [reflexivity|]. cbn [Link.url].
  unfold buildIosSchemeUrl, getAppLinkTemplate. rewrite Hget.
  fold action. change (match action with
                       | pay => Templates.pay (UpiApp.ios app)
                       | mandate => Templates.mandate (UpiApp.ios app)
                       end) with template.
  assert (Hplain : forallb (fun c => negb (c =? 36)%N) q = true).
  { apply upi_query_units in Hq. eapply forallb_impl; [|exact Hq].
    intros c Hc. apply query_unit_plain in Hc. apply negb_true_iff, N.eqb_neq. tauto. }
  assert (Hfirst : forall before after,
            template = before ++ lit "{query}" ++ after ->
            includes (lit "{query}") (before ++ lit "{query") = false ->
            match template with
            | [] => lit "upi://" ++ action_name action ++ lit "?" ++ q
            | c :: t => replace (c :: t) (lit "{query}") q
            end = before ++ q ++ after).
  { intros before after Ht Hb. destruct template as [|c t] eqn:E.
    { destruct before; discriminate. }
    rewrite Ht. unfold replace.
    change (lit "{query}") with (lit "{query" ++ [125%N]) in *.
    rewrite find_first_at by assumption.
    now rewrite get_substitution_plain. }
  split; [exact Hfirst|]. split; [|split].
  - intros Hinc.
    change (lit "{query}") with (lit "{query" ++ [125%N]) in Hinc.
    apply find_first_exists in Hinc as (before & after & Ht & Hb).
    exists before, after. split; [exact Ht|]. split; [exact Hb|].
    now apply Hfirst.
  - intros Hinc Hne. destruct template as [|c t] eqn:E; [congruence|].
    unfold replace. now rewrite find_first_none.
  - intros ->. reflexivity.
Qed.

Lemma X16_witness :
  exists link,
    buildAppLink node_engine sample_apps (link_options (lit "gpay") testUpiUri ios)
    = Return link /\
    Link.url link
    = lit "gpay://upi/pay?" ++ lit "pa=test%40upi&pn=Test+User&am=100&cu=INR" ++ [].
Proof.
  assert (H1 : getApp sample_apps (Options.appId (link_options (lit "gpay") testUpiUri ios))
               = Some gpay_app) by (vm_compute; reflexivity).
  assert (H2 : upi_query node_engine (link_options (lit "gpay") testUpiUri ios)
               = Return (lit "pa=test%40upi&pn=Test+User&am=100&cu=INR"))
    by (vm_compute; reflexivity).
  destruct (X16_ios_link_url node_engine sample_apps (link_options (lit "gpay") testUpiUri ios)
              gpay_app _ H1 eq_refl H2) as (link & Hlink & Hurl & _).
  exists link. split; [exact Hlink|].
  apply Hurl; vm_compute; reflexivity.
Defined.

(** ** The strategy *)

Lemma platform_eqb_eq (a b : Platform) : platform_eqb a b = true <-> a = b.
Proof. destruct a, b; cbn; split; congruence. Qed.

(** X17: [getBestLinkStrategy] recommends [scheme] exactly when the
    lower-case user agent names an iPhone, iPad or iPod, even if it also
    names Android and Chrome; otherwise [intent] when it names Android and
    one of Chrome, Chromium and CriOS, and [generic] in the other cases.
    With no [navigator] the answer is Android, no intent support,
    [generic]. *)
Theorem X17_strategy (ua : jsstring) :
  getBestLinkStrategy (Some ua) =
  {| Strategy.platform := if names_ios ua then ios else android;
     Strategy.supportsIntent := names_android_chrome ua;
     Strategy.recommendation :=
       if names_ios ua then Recommendation.scheme
       else if names_android_chrome ua then Recommendation.intent
       else Recommendation.generic |} /\
  getBestLinkStrategy None =
  {| Strategy.platform := android;
     Strategy.supportsIntent := false;
     Strategy.recommendation := Recommendation.generic |}.
Proof.
  split; [|reflexivity].
  unfold getBestLinkStrategy. rewrite supportsIntentUrls_tokens.
  fold (names_android_chrome ua).
  assert (Hp : detectPlatform (Some ua) = if names_ios ua then ios else android).
  { unfold names_ios. destruct (detectPlatform (Some ua)) eqn:E.
    - destruct (includes (lit "iphone") (toLowerCase ua)
                || includes (lit "ipad") (toLowerCase ua)
                || includes (lit "ipod") (toLowerCase ua)) eqn:E'; [|reflexivity].
      rewrite !orb_true_iff in E'.
      assert (H : detectPlatform (Some ua) = ios) by (apply detectPlatform_ios; tauto).
      congruence.
    - apply detectPlatform_ios in E. rewrite <- !orb_true_iff, orb_assoc in E.
      now rewrite E. }
  rewrite Hp. destruct (names_ios ua), (names_android_chrome ua); reflexivity.
Qed.

(** ** The registry *)

Lemma getApp_Some (appsData : list UpiApp.t) (appId : UpiAppId) (app : UpiApp.t) :
  getApp appsData appId = Some app -> In app appsData /\ UpiApp.id app = appId.
Proof.
  unfold getApp, getAllApps. intros H. apply find_some in H as [Hin Hid].
  apply str_eqb_eq in Hid. auto.
Qed.

Lemma getApp_None (appsData : list UpiApp.t) (appId : UpiAppId) :
  getApp appsData appId = None <-> ~ In appId (getAllAppIds appsData).
Proof.
  unfold getApp, getAllAppIds, getAllApps. split.
  - intros H Hin. apply in_map_iff in Hin as (app & Hid & Hin).
    pose proof (find_none _ _ H app Hin) as Hf. cbv beta in Hf.
    rewrite Hid, str_eqb_refl in Hf. discriminate.
  - intros H. destruct (find _ appsData) as [app|] eqn:E; [|reflexivity].
    apply find_some in E as [Hin Hid]. apply str_eqb_eq in Hid.
    exfalso. apply H. apply in_map_iff. eauto.
Qed.

(** X18: [getApp] returns the first entry of the registry with the
    requested id, and then [getAppLinkTemplate] is defined for every
    platform and action; when no entry has the id, [getApp],
    [getAppLinkTemplate] and [getStoreUrl] return [undefined] and
    [isAppVerified] returns false. *)
Theorem X18_getApp_lookup (appsData : list UpiApp.t) (appId : UpiAppId) :
  match getApp appsData appId with
  | Some app =>
      UpiApp.id app = appId /\
      exists before after,
        appsData = before ++ app :: after /\
        ~ In appId (map UpiApp.id before) /\
        forall platform action,
          getAppLinkTemplate appsData appId platform action <> None
  | None =>
      ~ In appId (getAllAppIds appsData) /\
      isAppVerified appsData appId = false /\
      forall platform,
        getStoreUrl appsData appId platform = None /\
        forall action, getAppLinkTemplate appsData appId platform action = None
  end.
Proof.
  destruct (getApp appsData appId) as [app|] eqn:E.
  - split; [now apply getApp_Some in E|].
    assert (Hsplit : exists before after,
               appsData = before ++ app :: after /\ ~ In appId (map UpiApp.id before)).
    { unfold getApp, getAllApps in E. clear -E.
      induction appsData as [|x l IH]; cbn [find] in E; [discriminate|].
      destruct (str_eqb_spec (UpiApp.id x) appId) as [Hx|Hx].
      - injection E as <-. exists [], l. split; [reflexivity | intros []].
      - destruct (IH E) as (before & after & -> & Hb).
        exists (x :: before), after. split; [reflexivity|].
        cbn [map]. intros [H|H]; auto. }
    destruct Hsplit as (before & after & H1 & H2). exists before, after.
    split; [exact H1|]. split; [exact H2|].
    intros platform action. unfold getAppLinkTemplate. rewrite E. discriminate.
  - split; [now apply getApp_None|]. unfold isAppVerified, getStoreUrl, getAppLinkTemplate.
    rewrite E. auto.
Qed.

Lemma isAppVerified_ids (appsData : list UpiApp.t) (appId : UpiAppId) :
  isAppVerified appsData appId = true -> In appId (getVerifiedAppIds appsData).
Proof.
  unfold isAppVerified. destruct (getApp appsData appId) as [app|] eqn:E; [|discriminate].
  intros Hv. apply getApp_Some in E as [Hin Hid].
  unfold getVerifiedAppIds, getVerifiedApps, getAllApps.
  apply in_map_iff. exists app. split; [exact Hid|]. apply filter_In. auto.
Qed.

Lemma status_eqb_eq (a b : VerificationStatus) : status_eqb a b = true <-> a = b.
Proof. destruct a, b; cbn; split; congruence. Qed.

(** X19: an id that [isAppVerified] accepts is in [getVerifiedAppIds],
    and conversely when no two entries of the registry share an id;
    [getVerifiedApps] holds exactly the entries whose status is
    [verified]; and the [verified] flag of a link that [buildAppLink]
    returns is [isAppVerified] of the requested id. *)
Theorem X19_verified (appsData : list UpiApp.t) (appId : UpiAppId) :
  (isAppVerified appsData appId = true -> In appId (getVerifiedAppIds appsData)) /\
  (NoDup (getAllAppIds appsData) ->
   In appId (getVerifiedAppIds appsData) -> isAppVerified appsData appId = true) /\
  (forall app, In app (getVerifiedApps appsData) <->
               In app (getAllApps appsData) /\
               Verification.status (UpiApp.verification app) = verified) /\
  (forall engine options link,
     buildAppLink engine appsData options = Return link ->
     AppInfo.verified (Link.app link) = isAppVerified appsData (Options.appId options)).
Proof.
  split; [apply isAppVerified_ids|]. split; [|split].
  - intros Hnd Hin. unfold getVerifiedAppIds, getVerifiedApps, getAllApps in Hin.
    apply in_map_iff in Hin as (app & Hid & Hin). apply filter_In in Hin as [Hin Hv].
    unfold isAppVerified.
    destruct (getApp appsData appId) as [app'|] eqn:E.
    + apply getApp_Some in E as [Hin' Hid'].
      assert (app' = app); [|now subst].
      unfold getAllAppIds, getAllApps in Hnd. clear -Hnd Hin Hin' Hid Hid'.
      induction appsData as [|x l IH]; [destruct Hin|].
      cbn [map] in Hnd. inversion Hnd as [|? ? Hx Hnd']; subst.
      destruct Hin as [->|Hin], Hin' as [->|Hin']; auto.
      * exfalso. apply Hx. apply in_map_iff. exists app'. split; [congruence | assumption].
      * exfalso. apply Hx. apply in_map_iff. exists app. split; [congruence | assumption].
    + apply getApp_None in E. exfalso. apply E.
      unfold getAllAppIds, getAllApps. apply in_map_iff. eauto.
  - intros app. unfold getVerifiedApps. rewrite filter_In, status_eqb_eq. reflexivity.
  - intros engine options link H. apply buildAppLink_fields in H as (_ & _ & _ & _ & H).
    destruct H as (app & Hget & ->). unfold isAppVerified. now rewrite Hget.
Qed.

(** [getAppsForPlatform] returns every app of the registry, for
    either platform: its filter tests [app.android] or [app.ios], which
    every entry has. *)
Theorem getAppsForPlatform_all (appsData : list UpiApp.t) (platform : Platform) :
  getAppsForPlatform appsData platform = getAllApps appsData.
Proof.
  unfold getAppsForPlatform. apply filter_all. apply forallb_forall. intros app _.
  destruct platform; [apply orb_true_r | reflexivity].
Qed.

(** *** The default ids *)

Lemma In_Set_add (s : list jsstring) (x y : jsstring) :
  In y (Set_add s x) <-> In y s \/ y = x.
Proof.
  unfold Set_add. destruct (existsb (str_eqb x) s) eqn:E.
  - apply existsb_str_eqb in E. split; [auto|]. intros [H | ->]; auto.
  - rewrite in_app_iff. cbn [In]. intuition congruence.
Qed.

Lemma NoDup_Set_add (s : list jsstring) (x : jsstring) :
  NoDup s -> NoDup (Set_add s x).
Proof.
  intros H. unfold Set_add. destruct (existsb (str_eqb x) s) eqn:E; [exact H|].
  apply existsb_str_eqb_false in E.
  apply NoDup_rev in H. rewrite <- (rev_involutive (s ++ [x])).
  apply NoDup_rev. rewrite rev_unit. constructor; auto. now rewrite <- in_rev.
Qed.

Lemma fold_Set_add (l : list jsstring) : forall s,
  NoDup s ->
  NoDup (fold_left Set_add l s) /\
  forall y, In y (fold_left Set_add l s) <-> In y s \/ In y l.
Proof.
  induction l as [|x l IH]; intros s Hs; cbn [fold_left].
  - split; [exact Hs|]. intros y. cbn [In]. tauto.
  - destruct (IH (Set_add s x) (NoDup_Set_add s x Hs)) as [H1 H2].
    split; [exact H1|]. intros y. rewrite H2, In_Set_add. cbn [In]. intuition congruence.
Qed.

Lemma new_Set_spec (l : list jsstring) :
  NoDup (new_Set l) /\ forall y, In y (new_Set l) <-> In y l.
Proof.
  destruct (fold_Set_add l [] (NoDup_nil _)) as [H1 H2]. split; [exact H1|].
  intros y. unfold new_Set. rewrite H2. cbn [In]. tauto.
Qed.

(** X20: [getDefaultAppIds] holds no id twice; its ids are the verified
    ids and the four popular ids [gpay], [phonepe], [paytm] and [bhim],
    whether these are registered or not; and [generic], when it is there,
    comes last. *)
Theorem X20_default_ids (appsData : list UpiApp.t) :
  let ids := getDefaultAppIds appsData in
  NoDup ids /\
  (forall id,
     In id ids <->
     In id (getVerifiedAppIds appsData) \/
     In id [lit "gpay"; lit "phonepe"; lit "paytm"; lit "bhim"]) /\
  (In (lit "generic") ids ->
   exists others, ids = others ++ [lit "generic"] /\ ~ In (lit "generic") others).
Proof.
  intros ids. unfold getDefaultAppIds in ids.
  set (popular := [lit "gpay"; lit "phonepe"; lit "paytm"; lit "bhim"]) in *.
  set (D := new_Set (getVerifiedAppIds appsData ++ popular)) in *.
  destruct (new_Set_spec (getVerifiedAppIds appsData ++ popular)) as [Hnd Hin].
  fold D in Hnd, Hin.
  set (others := filter (fun id => negb (str_eqb id (lit "generic"))) D) in *.
  assert (Hothers : forall id, In id others <-> In id D /\ id <> lit "generic").
  { intros id. unfold others. rewrite filter_In, negb_true_iff, str_eqb_neq. reflexivity. }
  assert (Hndo : NoDup others) by now apply NoDup_filter.
  assert (Hg : ~ In (lit "generic") others).
  { intros H. apply Hothers in H. tauto. }
  assert (HD : forall id, In id D <->
                          In id (getVerifiedAppIds appsData) \/ In id popular).
  { intros id. now rewrite Hin, in_app_iff. }
  destruct (existsb (str_eqb (lit "generic")) D) eqn:E; subst ids; cbv zeta.
  - apply existsb_str_eqb in E. split; [|split].
    + apply NoDup_rev in Hndo. rewrite <- (rev_involutive (others ++ _)).
      apply NoDup_rev. rewrite rev_unit. constructor; auto. now rewrite <- in_rev.
    + intros id. rewrite <- HD, in_app_iff, Hothers. cbn [In].
      destruct (list_eq_dec N.eq_dec id (lit "generic")) as [->|Hne]; [tauto|].
      intuition congruence.
    + intros _. exists others. auto.
  - apply existsb_str_eqb_false in E. split; [exact Hndo|]. split.
    + intros id. rewrite <- HD, Hothers.
      split; [tauto|]. intros H. split; [exact H|]. intros ->. tauto.
    + intros H. tauto.
Qed.

(** ** Writing again what was read *)

Lemma urlencoded_parse_text (q : list N) : text_pairs (urlencoded_parse q).
Proof.
  unfold urlencoded_parse, text_pairs. apply Forall_map, Forall_forall. intros piece _.
  destruct (name_value piece). cbn [fst snd]. unfold urlencoded_decode_string.
  split; apply utf8_decode_text.
Qed.

Lemma decoded_params_text (url : URL) : text_obj (decoded_params url).
Proof.
  unfold decoded_params. split; [apply fold_obj_set_NoDup; constructor|].
  generalize (urlencoded_parse_text (search url)). unfold searchParams.
  generalize (urlencoded_parse (search url)). intros ps Hps.
  assert (H : forall o, Forall (fun e => text (fst e) /\ text_value (snd e)) o ->
                        Forall (fun e => text (fst e) /\ text_value (snd e))
                               (fold_left (fun (o : obj) kv => obj_set o (fst kv) (snd kv))
                                          ps o)).
  { induction Hps as [|[k v] ps [Hk Hv] _ IH]; intros o Ho; cbn [fold_left]; auto.
    apply IH. apply Forall_obj_set; auto. intros k' ->. now split. }
  apply H. constructor.
Qed.

Lemma clean_entry_text (n : obj) :
  Forall clean_entry n -> Forall (fun e => text (fst e) /\ text_value (snd e)) n.
Proof.
  apply Forall_impl. intros [k x] (v & Ex & _ & Hk & Hv). cbn [fst snd] in *. subst x.
  now split.
Qed.

(** X21: what [parseUpiUri] returns can be written again: for every
    string that parses, [buildUpiUri] accepts the parameters and the
    action returned, and the URI it writes parses to the same action and
    the same parameters. *)
Theorem X21_parse_build_parse (engine : Engine) (upiUri : jsstring) (r : Parsed.t) :
  parseUpiUri engine upiUri = Return r ->
  exists u r',
    buildUpiUri (Parsed.params r) (Parsed.action r) = Return u /\
    parseUpiUri engine u = Return r' /\
    Parsed.action r' = Parsed.action r /\
    Permutation (Parsed.params r') (Parsed.params r) /\
    forall k, obj_get (Parsed.params r') k = obj_get (Parsed.params r) k.
Proof.
  rewrite parseUpiUri_eq. destruct (new_URL engine upiUri) as [url|]; [|discriminate].
  destruct (negb (str_eqb (protocol url) (lit "upi:"))); [discriminate|].
  destruct (action_of (hostname url)) as [a|]; [|discriminate].
  destruct (isValid (validateUpiParams (decoded_params url))) eqn:Hvalid;
    cbn [negb]; [|discriminate].
  intros [= <-]. cbn [Parsed.params Parsed.action].
  pose proof (decoded_params_text url) as Htext.
  set (d := decoded_params url) in *.
  pose proof (normalizedParams_clean d Htext) as Hclean.
  destruct (normalizedParams_keys d) as [Hnd Hproto].
  pose proof (revalidate_valid d (proj1 Htext) Hvalid) as Hre.
  set (n := normalizedParams (validateUpiParams d)) in *.
  assert (Htn : text_obj n) by (split; [exact Hnd | now apply clean_entry_text]).
  assert (Hvn : isValid (validateUpiParams n) = true) by now rewrite Hre.
  destruct (buildUpiUri_valid n a Htn Hvn) as [Hcan Hbuild].
  assert (Hn' : normalizedParams (validateUpiParams n) = Object_entries n) by now rewrite Hre.
  rewrite Hn' in Hcan, Hbuild.
  assert (Hnd' : NoDup (keys (Object_entries n))) by now apply NoDup_keys_entries.
  assert (Hclean' : Forall clean_entry (Object_entries n)) by now apply Forall_entries.
  assert (Hperm : Permutation (Object_entries (as_obj (build_query (Object_entries n)))) n).
  { eapply perm_trans; [apply Object_entries_perm|].
    eapply perm_trans; [now apply build_query_perm | apply Object_entries_perm]. }
  eexists. eexists. split; [exact Hbuild|].
  split; [now apply parseUpiUri_canonical|].
  cbn [Parsed.action Parsed.params]. split; [reflexivity|]. split; [exact Hperm|].
  intros k. symmetry. apply obj_get_perm; auto. now apply Permutation_sym.
Qed.

Lemma X21_witness :
  exists r u r',
    parseUpiUri node_engine plain_at_uri = Return r /\
    buildUpiUri (Parsed.params r) (Parsed.action r) = Return u /\
    parseUpiUri node_engine u = Return r' /\
    Parsed.action r' = Parsed.action r.
Proof.
  assert (H : exists r, parseUpiUri node_engine plain_at_uri = Return r)
    by (eexists; vm_compute; reflexivity).
  destruct H as [r Hr].
  destruct (X21_parse_build_parse node_engine plain_at_uri r Hr) as (u & r' & H1 & H2 & H3 & _).
  exists r, u, r'. auto.
Defined.

(** ** Reading what the constructors write *)

(** X22: the URI that [createPaymentUri] returns for arguments of text
    parses to the action [pay] and to the parameters [pa] and [pn]
    (trimmed), [cu = INR], [am] and [tn] when they were given and not
    blank, and nothing else. *)
Theorem X22_createPaymentUri_parsed (engine : Engine) (payeeAddress payeeName : jsstring)
    (amount note : option jsstring) (u : jsstring) :
  text payeeAddress -> text payeeName -> text_value amount -> text_value note ->
  createPaymentUri payeeAddress payeeName amount note = Return u ->
  exists r,
    parseUpiUri engine u = Return r /\
    Parsed.action r = pay /\
    obj_get (Parsed.params r) (lit "pa") = Some (trim payeeAddress) /\
    obj_get (Parsed.params r) (lit "pn") = Some (trim payeeName) /\
    obj_get (Parsed.params r) (lit "cu") = Some (lit "INR") /\
    obj_get (Parsed.params r) (lit "am") = kept amount /\
    obj_get (Parsed.params r) (lit "tn") = kept note /\
    forall k, ~ In k [lit "pa"; lit "pn"; lit "cu"; lit "am"; lit "tn"] ->
              obj_get (Parsed.params r) k = None.
Proof.
  intros Hpa Hpn Ham Htn. rewrite createPaymentUri_eq.
  match goal with |- context [buildUpiUri ?p pay] => set (Q := p) end.
  intros Hbuild.
  assert (Hvalid : isValid (validateUpiParams Q) = true).
  { unfold buildUpiUri in Hbuild. destruct (isValid (validateUpiParams Q));
      [reflexivity | discriminate]. }
  assert (Hnd : NoDup (keys Q)) by (apply distinct_NoDup; vm_compute; reflexivity).
  assert (Htext : text_obj Q).
  { split; [exact Hnd|]. subst Q.
    repeat (apply Forall_cons; [split; [apply textb_spec; vm_compute; reflexivity|]|]);
      cbn [snd text_value]; auto.
    apply textb_spec; vm_compute; reflexivity. }
  destruct (buildUpiUri_valid Q pay Htext Hvalid) as [Hcan Hbuild'].
  destruct (normalizedParams_keys Q) as [Hndn _].
  pose proof (normalizedParams_clean Q Htext) as Hclean.
  set (n := normalizedParams (validateUpiParams Q)) in *.
  assert (Hperm : Permutation (Object_entries (as_obj (build_query n))) n).
  { eapply perm_trans; [apply Object_entries_perm | now apply build_query_perm]. }
  assert (Hget : forall k, obj_get (Object_entries (as_obj (build_query n))) k
                           = obj_get n k).
  { intros k. symmetry. apply obj_get_perm; auto. now apply Permutation_sym. }
  assert (Hu : u = lit "upi://" ++ action_name pay ++ lit "?" ++ toString (build_query n))
    by congruence.
  eexists. split; [rewrite Hu; now apply parseUpiUri_canonical|].
  cbn [Parsed.action Parsed.params]. split; [reflexivity|].
  rewrite !Hget. unfold n. 
  assert (Hreq : is_empty (trim payeeAddress) = false /\ is_empty (trim payeeName) = false).
  { rewrite isValid_eq in Hvalid. rewrite !andb_true_iff, !negb_true_iff in Hvalid.
    destruct Hvalid as [[H1 H2] _]. unfold missing in H1, H2.
    change (obj_get Q (lit "pa")) with (Some payeeAddress) in H1.
    change (obj_get Q (lit "pn")) with (Some payeeName) in H2.
    apply orb_false_iff in H1 as [_ H1]. apply orb_false_iff in H2 as [_ H2]. auto. }
  destruct Hreq as [Hea Hen].
  rewrite !valid_get by assumption. subst Q. lookups. literals. cbn [andb].
  change (kept (Some (lit "INR"))) with (Some (lit "INR")). cbn [truthy negb].
  rewrite andb_false_r. unfold kept at 1 2. rewrite Hea, Hen.
  repeat split; try reflexivity.
  intros k Hk. rewrite Hget. unfold n. rewrite valid_get by assumption.
  match goal with |- context [kept (obj_get ?Q k)] =>
    replace (obj_get Q k) with (@None jsstring) end.
  2:{ symmetry. apply obj_get_absent. exact Hk. }
  cbn [kept]. destruct (str_eqb_spec k (lit "cu")) as [->|Hc].
  - exfalso. apply Hk. cbn. tauto.
  - cbn [andb]. destruct (str_eqb k proto); reflexivity.
Qed.

Lemma X22_witness :
  exists r,
    parseUpiUri node_engine testUpiUri = Return r /\
    obj_get (Parsed.params r) (lit "cu") = Some (lit "INR").
Proof.
  destruct (X22_createPaymentUri_parsed node_engine (lit "test@upi") (lit "Test User")
              (Some (lit "100")) None testUpiUri)
    as (r & Hr & _ & _ & _ & Hcu & _).
  - apply textb_spec. vm_compute. reflexivity.
  - apply textb_spec. vm_compute. reflexivity.
  - apply textb_spec. vm_compute. reflexivity.
  - exact I.
  - vm_compute. reflexivity.
  - exists r. split; assumption.
Defined.

(** ** Strings that are not UPI URIs *)

(** X23: a string with no scheme is rejected by [parseUpiUri] with the
    [TypeError] of the URL parser; a string with the scheme [upi] that
    does not go on with two slashes, such as [upi:pay?...], is rejected
    with the invalid-action error; a string with another scheme is
    rejected with the error of the URL parser or with
    [Invalid UPI URI: must start with upi://]. *)
Theorem X23_parse_rejects (engine : Engine) (upiUri : jsstring) :
  (parse_scheme (url_clean upiUri) = None ->
   parseUpiUri engine upiUri = Throw (TypeError (invalid_url_message engine))) /\
  (forall rest,
     parse_scheme (url_clean upiUri) = Some (lit "upi", rest) ->
     starts_with (lit "//") rest = false ->
     parseUpiUri engine upiUri =
     Throw (Error (lit "Invalid UPI action: must be " ++ quote ++ lit "pay"
                   ++ quote ++ lit " or " ++ quote ++ lit "mandate" ++ quote))) /\
  (forall scheme rest,
     parse_scheme (url_clean upiUri) = Some (scheme, rest) ->
     scheme <> lit "upi" ->
     parseUpiUri engine upiUri = Throw (TypeError (invalid_url_message engine)) \/
     parseUpiUri engine upiUri
     = Throw (Error (lit "Invalid UPI URI: must start with upi://"))).
Proof.
  split; [|split].
  - intros H. rewrite parseUpiUri_eq. unfold new_URL. now rewrite H.
  - intros rest H Hs. rewrite parseUpiUri_eq. unfold new_URL. rewrite H.
    change (is_special (lit "upi")) with false. cbv iota.
    change (lit "//") with [47%N; 47%N] in Hs. rewrite Hs. reflexivity.
  - intros scheme rest H Hne. rewrite parseUpiUri_eq.
    destruct (new_URL engine upiUri) as [url|e] eqn:Hurl.
    + right. apply new_URL_scheme in Hurl as (s & r & Hs & Hp & _).
      rewrite H in Hs. injection Hs as <- <-.
      destruct (str_eqb_spec (protocol url) (lit "upi:")) as [E|E]; [|reflexivity].
      exfalso. apply Hne. rewrite Hp in E.
      change (lit "upi:") with (lit "upi" ++ [58%N]) in E.
      now apply app_inj_tail in E as [E _].
    + left. unfold new_URL in Hurl. rewrite H in Hurl. cbv zeta in Hurl.
      destruct (host_split false _) as [host port].
      repeat match type of Hurl with
             | (if ?b then _ else _) = _ => destruct b
             end; try discriminate; now injection Hurl as <-.
Qed.

Lemma X23_witness :
  parseUpiUri node_engine no_slashes_uri =
  Throw (Error (lit "Invalid UPI action: must be " ++ quote ++ lit "pay"
                ++ quote ++ lit " or " ++ quote ++ lit "mandate" ++ quote)).
Proof.
  apply (proj1 (proj2 (X23_parse_rejects node_engine no_slashes_uri))
           (lit "pay?pa=test@upi&pn=Test")); vm_compute; reflexivity.
Defined.

(** ** White space around the values *)

Lemma insert_index_map (g : jsstring * value -> jsstring * value) (i : N)
    (e : jsstring * value) (l : list (N * (jsstring * value))) :
  insert_index i (g e) (map (fun ie => (fst ie, g (snd ie))) l)
  = map (fun ie => (fst ie, g (snd ie))) (insert_index i e l).
Proof.
  induction l as [|[j e'] l IH]; cbn [map insert_index fst snd]; [reflexivity|].
  destruct (i <? j)%N; cbn [map fst snd]; [reflexivity|]. now rewrite IH.
Qed.

Lemma Object_entries_trimmed (params : obj) :
  Object_entries (trimmed params) = trimmed (Object_entries params).
Proof.
  unfold Object_entries, trimmed. rewrite map_app. f_equal.
  - set (g := fun e : jsstring * value => (fst e, option_map trim (snd e))).
    assert (H : index_entries (map g params)
                = map (fun ie => (fst ie, g (snd ie))) (index_entries params)).
    { induction params as [|e o IH]; [reflexivity|].
      cbn [map index_entries]. change (fst (g e)) with (fst e).
      destruct (array_index (fst e)); [|exact IH].
      now rewrite IH, insert_index_map. }
    change (map snd (index_entries (map g params)) = map g (map snd (index_entries params))).
    rewrite H, !map_map. reflexivity.
  - induction params as [|e o IH]; [reflexivity|].
    cbn [map filter]. change (is_named (fst e, option_map trim (snd e))) with (is_named e).
    destruct (is_named e); cbn [map]; now rewrite IH.
Qed.

Lemma obj_get_trimmed (params : obj) (k : jsstring) :
  obj_get (trimmed params) k = option_map trim (obj_get params k).
Proof.
  induction params as [|[k' v] o IH]; [reflexivity|].
  cbn [trimmed map obj_get fst snd]. destruct (str_eqb k' k); [reflexivity | exact IH].
Qed.

Lemma is_empty_trim_nil (v : jsstring) : is_empty v = true -> is_empty (trim v) = true.
Proof. destruct v; [reflexivity | discriminate]. Qed.

Lemma entry_value_trimmed (k : jsstring) (x : value) :
  entry_value k (option_map trim x) = entry_value k x.
Proof.
  destruct x as [v|]; [|reflexivity]. cbn [option_map]. unfold entry_value.
  rewrite trim_idempotent. destruct (is_empty (trim v)) eqn:E.
  - destruct (is_empty v); reflexivity.
  - now rewrite (trim_nonempty v E).
Qed.

Lemma entry_errors_trimmed (k : jsstring) (x : value) :
  entry_errors (k, option_map trim x) = entry_errors (k, x).
Proof.
  destruct x as [v|]; [|reflexivity]. unfold entry_errors; cbn [option_map fst snd].
  rewrite trim_idempotent. destruct (is_empty (trim v)) eqn:E.
  - destruct (is_empty v); reflexivity.
  - now rewrite (trim_nonempty v E).
Qed.

Lemma missing_trimmed (params : obj) (k : jsstring) :
  missing (trimmed params) k = missing params k.
Proof.
  unfold missing. rewrite obj_get_trimmed. destruct (obj_get params k) as [v|]; [|reflexivity].
  cbn [option_map]. rewrite trim_idempotent, (is_empty_trim v). apply orb_diag.
Qed.

Lemma entry_errors_of_trimmed (l : obj) :
  flat_map entry_errors (trimmed l) = flat_map entry_errors l.
Proof.
  induction l as [|[k x] l IH]; [reflexivity|].
  cbn [trimmed map flat_map fst snd]. fold (trimmed l).
  now rewrite entry_errors_trimmed, IH.
Qed.

Lemma fold_store_trimmed (l : obj) : forall n,
  fold_left store_entry (trimmed l) n = fold_left store_entry l n.
Proof.
  induction l as [|[k x] l IH]; intros n; [reflexivity|].
  cbn [trimmed map fold_left fst snd]. fold (trimmed l). rewrite IH. f_equal.
  unfold store_entry; cbn [fst snd]. now rewrite entry_value_trimmed.
Qed.

(** X24: white space around the values is ignored: a parameter set and
    the same set with every value trimmed have the same validation result
    (validity, errors, normalized parameters), and [buildUpiUri] gives the
    same for both. *)
Theorem X24_trimmed_same (params : obj) (action : UpiAction) :
  validateUpiParams (trimmed params) = validateUpiParams params /\
  buildUpiUri (trimmed params) action = buildUpiUri params action.
Proof.
  assert (H : validateUpiParams (trimmed params) = validateUpiParams params).
  { rewrite !validateUpiParams_eq. unfold required_errors, normalized_core.
    now rewrite !missing_trimmed, Object_entries_trimmed, entry_errors_of_trimmed,
      fold_store_trimmed. }
  split; [exact H|]. unfold buildUpiUri. now rewrite H.
Qed.

(** ** What the patterns of the rules accept *)

Lemma matches_seq_iff (r s : regex) (w : jsstring) :
  matches (Seq r s) w <-> exists u v, w = u ++ v /\ matches r u /\ matches s v.
Proof.
  split; [apply matches_seq_inv|]. intros (u & v & -> & Hu & Hv). now constructor.
Qed.

Lemma matches_opt_iff (r : regex) (w : jsstring) :
  matches (Opt r) w <-> w = [] \/ matches r w.
Proof.
  unfold Opt. split.
  - intros H. apply matches_alt_inv in H as [H | H]; [now right|].
    left. now apply matches_eps_inv.
  - intros [-> | H]; [apply m_alt_r; constructor | now apply m_alt_l].
Qed.

Lemma matches_class_iff (p : code_unit -> bool) (w : jsstring) :
  matches (Class p) w <-> exists c, w = [c] /\ p c = true.
Proof.
  split; [apply matches_class_inv|]. intros (c & -> & H). now constructor.
Qed.

Lemma matches_star_class (p : code_unit -> bool) (w : jsstring) :
  matches (Star (Class p)) w <-> forallb p w = true.
Proof.
  split.
  - intros H. remember (Star (Class p)) as r eqn:E.
    induction H; try discriminate.
    + reflexivity.
    + injection E as ->. apply matches_class_inv in H as (c & -> & Hc).
      cbn [app forallb]. rewrite Hc. cbn [andb]. now apply IHmatches2.
  - induction w as [|c w IH]; cbn [forallb]; [constructor|].
    rewrite andb_true_iff. intros [Hc Hw].
    change (c :: w) with ([c] ++ w). constructor; [now constructor | auto].
Qed.

Lemma matches_plus_class (p : code_unit -> bool) (w : jsstring) :
  matches (Plus (Class p)) w <-> w <> [] /\ forallb p w = true.
Proof.
  unfold Plus. rewrite matches_seq_iff. split.
  - intros (u & v & -> & Hu & Hv). apply matches_class_inv in Hu as (c & -> & Hc).
    apply matches_star_class in Hv. cbn [app forallb]. rewrite Hc, Hv.
    split; [discriminate | reflexivity].
  - intros [Hne H]. destruct w as [|c w]; [congruence|]. cbn [forallb] in H.
    apply andb_true_iff in H as [Hc Hw]. exists [c], w. split; [reflexivity|].
    split; [now constructor | now apply matches_star_class].
Qed.

Lemma matches_chr (c : code_unit) (w : jsstring) : matches (Chr c) w <-> w = [c].
Proof.
  unfold Chr. rewrite matches_class_iff. split.
  - intros (d & -> & H). apply N.eqb_eq in H. now subst.
  - intros ->. exists c. split; [reflexivity | apply N.eqb_refl].
Qed.

Lemma pa_pattern_spec (s : jsstring) :
  test pa_pattern s = true <->
  exists user psp,
    s = user ++ [64%N] ++ psp /\ user <> [] /\ psp <> [] /\
    forallb user_char user = true /\ forallb psp_char psp = true.
Proof.
  change pa_pattern
    with (Anchored (Seq (Plus (Class user_char)) (Seq (Chr 64) (Plus (Class psp_char))))).
  cbn [test]. rewrite full_match_spec, matches_seq_iff. split.
  - intros (u & v & -> & Hu & Hv). apply matches_seq_iff in Hv as (a & b & -> & Ha & Hb).
    apply matches_chr in Ha. subst a.
    apply matches_plus_class in Hu as [Hu1 Hu2]. apply matches_plus_class in Hb as [Hb1 Hb2].
    exists u, b. auto.
  - intros (u & b & -> & Hu1 & Hb1 & Hu2 & Hb2). exists u, ([64%N] ++ b).
    split; [reflexivity|]. split; [now apply matches_plus_class|].
    apply matches_seq_iff. exists [64%N], b. split; [reflexivity|].
    split; [now apply matches_chr | now apply matches_plus_class].
Qed.

Lemma am_pattern_spec (s : jsstring) :
  test am_pattern s = true <->
  exists whole fraction,
    s = whole ++ fraction /\ whole <> [] /\ forallb is_digit whole = true /\
    (fraction = [] \/
     exists d, fraction = 46%N :: d /\ forallb is_digit d = true /\
               (List.length d = 1 \/ List.length d = 2)%nat).
Proof.
  unfold am_pattern, Digit. cbn [test]. rewrite full_match_spec, matches_seq_iff. split.
  - intros (u & v & -> & Hu & Hv). apply matches_plus_class in Hu as [Hu1 Hu2].
    exists u, v. repeat split; auto.
    apply matches_opt_iff in Hv as [-> | Hv]; [now left|]. right.
    apply matches_seq_iff in Hv as (a & b & -> & Ha & Hb). apply matches_chr in Ha. subst a.
    apply matches_seq_iff in Hb as (c & d & -> & Hc & Hd).
    apply matches_class_iff in Hc as (x & -> & Hx).
    apply matches_opt_iff in Hd as [-> | Hd].
    + exists [x]. cbn [app forallb List.length]. rewrite Hx. auto.
    + apply matches_class_iff in Hd as (y & -> & Hy).
      exists [x; y]. cbn [app forallb List.length]. rewrite Hx, Hy. auto.
  - intros (u & v & -> & Hu1 & Hu2 & Hv). exists u, v. split; [reflexivity|].
    split; [now apply matches_plus_class|]. apply matches_opt_iff.
    destruct Hv as [-> | (d & -> & Hd & Hlen)]; [now left|]. right.
    apply matches_seq_iff. exists [46%N], d. split; [reflexivity|].
    split; [now apply matches_chr|].
    destruct d as [|x [|y [|z d]]]; cbn [List.length] in Hlen; try lia;
      cbn [forallb] in Hd; rewrite ?andb_true_iff in Hd.
    + apply matches_seq_iff. exists [x], []. split; [reflexivity|].
      split; [apply matches_class_iff; exists x; tauto | apply matches_opt_iff; now left].
    + apply matches_seq_iff. exists [x], [y]. split; [reflexivity|].
      split; [apply matches_class_iff; exists x; tauto|].
      apply matches_opt_iff. right. apply matches_class_iff. exists y. tauto.
Qed.

Lemma tr_pattern_spec (s : jsstring) :
  test tr_pattern s = true <-> s <> [] /\ forallb reference_char s = true.
Proof.
  change tr_pattern with (Anchored (Plus (Class reference_char))).
  cbn [test]. now rewrite full_match_spec, matches_plus_class.
Qed.

Lemma mc_pattern_spec (s : jsstring) :
  test mc_pattern s = true <-> List.length s = 4%nat /\ forallb is_digit s = true.
Proof.
  unfold mc_pattern, Digit. cbn [test]. rewrite full_match_spec. split.
  - intros H. apply matches_seq_iff in H as (a & r1 & -> & Ha & H).
    apply matches_seq_iff in H as (b & r2 & -> & Hb & H).
    apply matches_seq_iff in H as (c & d & -> & Hc & Hd).
    apply matches_class_iff in Ha as (x1 & -> & H1), Hb as (x2 & -> & H2),
      Hc as (x3 & -> & H3), Hd as (x4 & -> & H4).
    cbn [app List.length forallb]. now rewrite H1, H2, H3, H4.
  - intros [Hlen Hd]. destruct s as [|x1 [|x2 [|x3 [|x4 [|x5 s]]]]]; try discriminate.
    cbn [forallb] in Hd. rewrite !andb_true_iff in Hd.
    destruct Hd as (H1 & H2 & H3 & H4 & _).
    change [x1; x2; x3; x4] with ([x1] ++ [x2] ++ [x3] ++ [x4]).
    repeat (constructor; [now constructor|]). now constructor.
Qed.

Lemma url_pattern_spec (s : jsstring) :
  test url_pattern s = true <->
  exists c rest,
    (s = lit "http://" ++ c :: rest \/ s = lit "https://" ++ c :: rest) /\
    line_terminator c = false.
Proof.
  change url_pattern
    with (Prefix (Seq (Word (lit "http"))
                      (Seq (Opt (Chr 115))
                           (Seq (Word (lit "://"))
                                (Plus (Class (fun c => negb (line_terminator c)))))))).
  cbn [test]. rewrite full_match_spec. split.
  - intros H. apply matches_seq_iff in H as (m & any & -> & H & _).
    apply matches_seq_iff in H as (h & r1 & -> & Hh & H). apply matches_word in Hh. subst h.
    apply matches_seq_iff in H as (o & r2 & -> & Ho & H).
    apply matches_seq_iff in H as (sl & dots & -> & Hsl & Hdots).
    apply matches_word in Hsl. subst sl.
    apply matches_plus_class in Hdots as [Hne Hd].
    destruct dots as [|c dots]; [congruence|]. cbn [forallb] in Hd.
    apply andb_true_iff in Hd as [Hc _]. apply negb_true_iff in Hc.
    exists c, (dots ++ any). split; [|exact Hc].
    apply matches_opt_iff in Ho as [-> | Ho].
    + left. cbn [app]. rewrite <- !app_assoc. reflexivity.
    + apply matches_chr in Ho. subst o. right. cbn [app]. rewrite <- !app_assoc. reflexivity.
  - intros (c & rest & Hs & Hc).
    assert (Hdots : matches (Plus (Class (fun c => negb (line_terminator c)))) [c]).
    { apply matches_plus_class. split; [discriminate|]. cbn [forallb]. now rewrite Hc. }
    assert (Htail : forall o, matches (Opt (Chr 115)) o ->
                matches (Seq (Seq (Word (lit "http"))
                                  (Seq (Opt (Chr 115))
                                       (Seq (Word (lit "://"))
                                            (Plus (Class (fun c => negb (line_terminator c)))))))
                             (Star AnyUnit))
                        ((lit "http" ++ o ++ lit "://" ++ [c]) ++ rest)).
    { intros o Ho. constructor; [|apply matches_any].
      constructor; [now apply matches_word|]. constructor; [exact Ho|].
      constructor; [now apply matches_word | exact Hdots]. }
    destruct Hs as [-> | ->].
    + apply (Htail []). apply matches_opt_iff. now left.
    + apply (Htail [115%N]). apply matches_opt_iff. right. now apply matches_chr.
Qed.

Lemma check_rule_passes (rule : ValidationRule) (v : jsstring) :
  check_rule rule v = Passes <->
  exceeds_maxLength rule v = None /\ fails_pattern rule v = false /\
  outside_allowedValues rule v = None.
Proof.
  unfold check_rule. destruct (exceeds_maxLength rule v).
  - split; [discriminate | intros [H _]; discriminate].
  - destruct (fails_pattern rule v).
    + split; [discriminate | intros (_ & H & _); discriminate].
    + destruct (outside_allowedValues rule v).
      * split; [discriminate | intros (_ & _ & H); discriminate].
      * tauto.
Qed.

Lemma within_maxLength (rule : ValidationRule) (m : N) (v : jsstring) :
  maxLength rule = Some m -> m <> 0%N ->
  (exceeds_maxLength rule v = None <-> (str_length v <= m)%N).
Proof.
  intros Hm Hne. unfold exceeds_maxLength. rewrite Hm.
  apply N.eqb_neq in Hne. rewrite Hne. cbn [negb andb].
  destruct (N.ltb_spec m (str_length v)); split; try discriminate; try reflexivity; lia.
Qed.

Lemma passes_length_only (rule : ValidationRule) (m : N) (v : jsstring) :
  maxLength rule = Some m -> m <> 0%N -> pattern rule = None -> allowedValues rule = None ->
  (check_rule rule v = Passes <-> (str_length v <= m)%N).
Proof.
  intros Hm Hne Hp Ha. rewrite check_rule_passes, (within_maxLength rule m v Hm Hne).
  unfold fails_pattern, outside_allowedValues. rewrite Hp, Ha. tauto.
Qed.

Lemma passes_length_pattern (rule : ValidationRule) (m : N) (p : RegExp) (v : jsstring) :
  maxLength rule = Some m -> m <> 0%N -> pattern rule = Some p -> allowedValues rule = None ->
  (check_rule rule v = Passes <-> (str_length v <= m)%N /\ test p v = true).
Proof.
  intros Hm Hne Hp Ha. rewrite check_rule_passes, (within_maxLength rule m v Hm Hne).
  unfold fails_pattern, outside_allowedValues. rewrite Hp, Ha, negb_false_iff. tauto.
Qed.

(** X25: what each rule of [VALIDATION_RULES] lets pass.  [pa]: at most
    255 code units, of the form [user@psp] with both parts not empty, the
    user made of letters, digits, [.], [_] and [-], the provider of
    letters, digits, [.] and [-] (so exactly one [@]).  [am]: at most 18
    code units, digits, then possibly a point and one or two digits.
    [cu]: [INR] only.  [tr]: 1 to 35 letters, digits and hyphens.  [url]:
    at most 200 code units, starting with [http://] or [https://] and at
    least one more character that is not a line terminator.  [mc]: four
    digits.  [pn], [tn], [mode], [orgid], [sign] and [tid]: at most 99,
    100, 20, 20, 500 and 35 code units. *)
Theorem X25_rules (v : jsstring) :
  (check_rule pa_rule v = Passes <->
   (str_length v <= 255)%N /\
   exists user psp,
     v = user ++ [64%N] ++ psp /\ user <> [] /\ psp <> [] /\
     forallb user_char user = true /\ forallb psp_char psp = true) /\
  (check_rule am_rule v = Passes <->
   (str_length v <= 18)%N /\
   exists whole fraction,
     v = whole ++ fraction /\ whole <> [] /\ forallb is_digit whole = true /\
     (fraction = [] \/
      exists d, fraction = 46%N :: d /\ forallb is_digit d = true /\
                (List.length d = 1 \/ List.length d = 2)%nat)) /\
  (check_rule cu_rule v = Passes <-> v = lit "INR") /\
  (check_rule tr_rule v = Passes <->
   (str_length v <= 35)%N /\ v <> [] /\ forallb reference_char v = true) /\
  (check_rule url_rule v = Passes <->
   (str_length v <= 200)%N /\
   exists c rest,
     (v = lit "http://" ++ c :: rest \/ v = lit "https://" ++ c :: rest) /\
     line_terminator c = false) /\
  (check_rule mc_rule v = Passes <-> List.length v = 4%nat /\ forallb is_digit v = true) /\
  (check_rule pn_rule v = Passes <-> (str_length v <= 99)%N) /\
  (check_rule tn_rule v = Passes <-> (str_length v <= 100)%N) /\
  (check_rule mode_rule v = Passes <-> (str_length v <= 20)%N) /\
  (check_rule orgid_rule v = Passes <-> (str_length v <= 20)%N) /\
  (check_rule sign_rule v = Passes <-> (str_length v <= 500)%N) /\
  (check_rule tid_rule v = Passes <-> (str_length v <= 35)%N).
Proof.
  repeat match goal with |- _ /\ _ => split end.
  - rewrite (passes_length_pattern pa_rule 255 pa_pattern) by (reflexivity || discriminate).
    now rewrite pa_pattern_spec.
  - rewrite (passes_length_pattern am_rule 18 am_pattern) by (reflexivity || discriminate).
    now rewrite am_pattern_spec.
  - rewrite check_rule_passes. unfold exceeds_maxLength, fails_pattern, outside_allowedValues.
    cbn [maxLength pattern allowedValues cu_rule existsb]. rewrite orb_false_r.
    destruct (str_eqb_spec v (lit "INR")); cbn [negb]; split; intuition congruence.
  - rewrite (passes_length_pattern tr_rule 35 tr_pattern) by (reflexivity || discriminate).
    now rewrite tr_pattern_spec.
  - rewrite (passes_length_pattern url_rule 200 url_pattern) by (reflexivity || discriminate).
    now rewrite url_pattern_spec.
  - rewrite (passes_length_pattern mc_rule 4 mc_pattern) by (reflexivity || discriminate).
    rewrite mc_pattern_spec. unfold str_length. split; [tauto|].
    intros [H1 H2]. rewrite H1. split; [lia | tauto].
  - apply (passes_length_only pn_rule 99); reflexivity || discriminate.
  - apply (passes_length_only tn_rule 100); reflexivity || discriminate.
  - apply (passes_length_only mode_rule 20); reflexivity || discriminate.
  - apply (passes_length_only orgid_rule 20); reflexivity || discriminate.
  - apply (passes_length_only sign_rule 500); reflexivity || discriminate.
  - apply (passes_length_only tid_rule 35); reflexivity || discriminate.
Qed.

(** ** What the URL parser forgives *)

Lemma special_not_upi (scheme : jsstring) :
  is_special scheme = true -> str_eqb (scheme ++ [58%N]) (lit "upi:") = false.
Proof.
  unfold is_special, special_schemes. cbn [existsb]. rewrite !orb_true_iff.
  intros H.
  repeat match type of H with
         | _ \/ _ => destruct H as [H | H]
         end;
    try discriminate; apply str_eqb_eq in H; subst scheme; reflexivity.
Qed.

Lemma bracket_no_action (host : jsstring) :
  starts_with [91%N] host = true -> action_of host = None.
Proof.
  destruct host as [|c host]; [discriminate|]. cbn [starts_with].
  rewrite andb_true_r. intros H. apply N.eqb_eq in H. subst c. reflexivity.
Qed.

(** What [parseUpiUri] returns depends only on the scheme of the cleaned
    input and on what follows it. *)
Lemma parseUpiUri_clean (engine : Engine) (input input' : jsstring) (r : Parsed.t) :
  parse_scheme (url_clean input) = parse_scheme (url_clean input') ->
  parseUpiUri engine input = Return r -> parseUpiUri engine input' = Return r.
Proof.
  intros Hclean. rewrite !parseUpiUri_eq. unfold new_URL. rewrite Hclean.
  destruct (parse_scheme (url_clean input')) as [[scheme rest]|]; [|discriminate].
  destruct (is_special scheme) eqn:Hsp.
  { destruct (url_accepted engine input); [|discriminate].
    cbn [protocol]. rewrite (special_not_upi scheme Hsp). discriminate. }
  destruct (starts_with [47%N; 47%N] rest); [|auto]. cbv zeta.
  destruct (host_split false _) as [host port].
  destruct (match after_last_at _ with Some [] => true | _ => false end); [discriminate|].
  destruct (match port with Some _ => is_empty host | None => false end); [discriminate|].
  destruct (negb (port_ok port)); [discriminate|].
  destruct (starts_with [91%N] host) eqn:Hb; [|auto].
  destruct (url_accepted engine input); [|discriminate].
  cbn [protocol hostname]. rewrite (bracket_no_action host Hb).
  destruct (negb (str_eqb (scheme ++ [58%N]) (lit "upi:"))); discriminate.
Qed.

Lemma drop_while_all_app (p : code_unit -> bool) (a b : jsstring) :
  forallb p a = true -> drop_while p (a ++ b) = drop_while p b.
Proof.
  induction a as [|c a IH]; cbn [forallb app drop_while]; [reflexivity|].
  rewrite andb_true_iff. intros [-> H]. auto.
Qed.

Lemma drop_while_app_stop (p : code_unit -> bool) (a b : jsstring) (x : code_unit) :
  p x = false -> drop_while p (a ++ x :: b) = drop_while p a ++ x :: b.
Proof.
  intros Hx. induction a as [|c a IH]; cbn [app drop_while].
  - now rewrite Hx.
  - destruct (p c); [exact IH | reflexivity].
Qed.

Lemma drop_while_head (p : code_unit -> bool) (s : jsstring) (x : code_unit) (t : jsstring) :
  drop_while p s = x :: t -> p x = false.
Proof.
  induction s as [|c s IH]; cbn [drop_while]; [discriminate|].
  destruct (p c) eqn:E; [exact IH|]. now intros [= <- _].
Qed.

Lemma drop_while_nil (p : code_unit -> bool) (s : jsstring) :
  drop_while p s = [] -> forallb p s = true.
Proof.
  induction s as [|c s IH]; cbn [drop_while forallb]; [reflexivity|].
  destruct (p c); [exact IH | discriminate].
Qed.

Lemma drop_while_all (p : code_unit -> bool) (s : jsstring) :
  forallb p s = true -> drop_while p s = [].
Proof.
  induction s as [|c s IH]; cbn [forallb drop_while]; [reflexivity|].
  rewrite andb_true_iff. intros [-> H]. auto.
Qed.

Lemma drop_while_app_kept (p : code_unit -> bool) (a b : jsstring) (x : code_unit)
    (t : jsstring) :
  drop_while p a = x :: t -> drop_while p (a ++ b) = (x :: t) ++ b.
Proof.
  induction a as [|c a IH]; cbn [app drop_while]; [discriminate|].
  destruct (p c); [exact IH|]. now intros [= <- <-].
Qed.

Lemma url_clean_surrounded (ws1 u ws2 : jsstring) :
  forallb is_c0_or_space ws1 = true -> forallb is_c0_or_space ws2 = true ->
  url_clean (ws1 ++ u ++ ws2) = url_clean u.
Proof.
  intros H1 H2. unfold url_clean. f_equal. f_equal.
  rewrite drop_while_all_app by assumption.
  destruct (drop_while is_c0_or_space u) as [|x t] eqn:E.
  - apply drop_while_nil in E.
    rewrite drop_while_all_app by assumption.
    now rewrite (drop_while_all _ ws2 H2).
  - rewrite (drop_while_app_kept _ u ws2 x t E).
    rewrite rev_app_distr. apply drop_while_all_app. now rewrite forallb_rev.
Qed.

Lemma url_clean_prefix (p rest : jsstring) :
  p <> [] -> forallb (fun c => negb (is_c0_or_space c)) p = true ->
  url_clean (p ++ rest) =
  p ++ filter (fun c => negb (is_tab_or_newline c))
              (rev (drop_while is_c0_or_space (rev rest))).
Proof.
  intros Hne Hp. unfold url_clean.
  assert (E1 : drop_while is_c0_or_space (p ++ rest) = p ++ rest).
  { destruct p as [|c p]; [congruence|]. cbn [forallb] in Hp.
    apply andb_true_iff in Hp as [Hc _]. apply negb_true_iff in Hc.
    cbn [app drop_while]. now rewrite Hc. }
  rewrite E1, rev_app_distr.
  destruct (rev p) as [|y t] eqn:E.
  { apply (f_equal (@rev _)) in E. rewrite rev_involutive in E. cbn in E. congruence. }
  assert (Hy : is_c0_or_space y = false).
  { rewrite <- forallb_rev, E in Hp. cbn [forallb] in Hp.
    apply andb_true_iff in Hp as [Hy _]. now apply negb_true_iff in Hy. }
  rewrite (drop_while_app_stop _ _ _ _ Hy), rev_app_distr, <- E, rev_involutive.
  rewrite filter_app. f_equal. apply filter_all.
  eapply forallb_impl; [|exact Hp]. intros c. unfold is_c0_or_space, is_tab_or_newline.
  rewrite !negb_true_iff, !orb_false_iff, N.leb_gt, !N.eqb_neq. lia.
Qed.

Lemma ascii_lower_letter (c l : code_unit) :
  is_lower l = true -> ascii_lower c = l -> c = l \/ c = (l - 32)%N.
Proof.
  unfold ascii_lower, is_upper, is_lower. rewrite andb_true_iff, !N.leb_le. intros [H1 H2].
  destruct (N.leb_spec 65 c), (N.leb_spec c 90); cbn [andb]; lia.
Qed.

Lemma parse_scheme_upi (s rest : jsstring) :
  map ascii_lower s = lit "upi" ->
  s <> [] /\
  forallb (fun c => negb (is_c0_or_space c)) (s ++ [58%N]) = true /\
  forall t, parse_scheme ((s ++ [58%N]) ++ t) = Some (lit "upi", t).
Proof.
  intros H. destruct s as [|a [|b [|c [|d s]]]]; try discriminate.
  cbn [map] in H. injection H as Ha Hb Hc.
  apply ascii_lower_letter in Ha, Hb, Hc; try reflexivity.
  destruct Ha as [-> | ->], Hb as [-> | ->], Hc as [-> | ->];
    (split; [discriminate|]); (split; [reflexivity|]); intros t; reflexivity.
Qed.

(** X26: [parseUpiUri] returns the same whether or not the string is
    surrounded by spaces and C0 control characters, and whatever the case
    of the letters of the scheme: [UPI://pay?...] is read as
    [upi://pay?...]. *)
Theorem X26_parse_forgives (engine : Engine) (r : Parsed.t) :
  (forall ws1 u ws2,
     forallb is_c0_or_space ws1 = true -> forallb is_c0_or_space ws2 = true ->
     (parseUpiUri engine (ws1 ++ u ++ ws2) = Return r <-> parseUpiUri engine u = Return r)) /\
  (forall scheme rest,
     map ascii_lower scheme = lit "upi" ->
     (parseUpiUri engine (scheme ++ lit ":" ++ rest) = Return r <->
      parseUpiUri engine (lit "upi:" ++ rest) = Return r)).
Proof.
  split.
  - intros ws1 u ws2 H1 H2.
    pose proof (url_clean_surrounded ws1 u ws2 H1 H2) as E.
    split; apply parseUpiUri_clean; now rewrite E.
  - intros scheme rest Hs.
    assert (E : parse_scheme (url_clean (scheme ++ lit ":" ++ rest))
                = parse_scheme (url_clean (lit "upi:" ++ rest))).
    { assert (Hpre : forall s, map ascii_lower s = lit "upi" ->
                parse_scheme (url_clean ((s ++ [58%N]) ++ rest))
                = Some (lit "upi",
                        filter (fun c => negb (is_tab_or_newline c))
                               (rev (drop_while is_c0_or_space (rev rest))))).
      { intros s H. destruct (parse_scheme_upi s rest H) as (Hne & Hp & Hparse).
        rewrite url_clean_prefix; [apply Hparse | | exact Hp].
        destruct s; discriminate. }
      change (scheme ++ lit ":" ++ rest) with (scheme ++ [58%N] ++ rest).
      change (lit "upi:" ++ rest) with ((lit "upi" ++ [58%N]) ++ rest).
      rewrite app_assoc.
      etransitivity; [exact (Hpre scheme Hs) | symmetry; exact (Hpre (lit "upi") eq_refl)]. }
    split; apply parseUpiUri_clean; now rewrite E.
Qed.

Lemma X26_witness :
  parseUpiUri node_engine ([32%N; 32%N] ++ testUpiUri ++ [10%N])
  = Return {| Parsed.action := pay;
              Parsed.params := params_with_amount ++ [(lit "cu", Some (lit "INR"))] |}.
Proof.
  apply (proj1 (X26_parse_forgives node_engine _)); vm_compute; reflexivity.
Defined.

(** ** The action of the URI, and the action of the link *)

(** What [new URL] reads in [upi://<action>?<q>], whatever [q] is: the
    query is what is left of [q] once the trailing spaces and controls,
    the tabs and the newlines are gone, up to its first number sign. *)
Lemma new_URL_action (engine : Engine) (a : UpiAction) (q : jsstring) :
  new_URL engine (lit "upi://" ++ action_name a ++ lit "?" ++ q) =
  Return {| protocol := lit "upi:";
            hostname := action_name a;
            search :=
              query_of (63%N :: filter (fun c => negb (is_tab_or_newline c))
                                       (rev (drop_while is_c0_or_space (rev q)))) |}.
Proof.
  unfold new_URL. destruct a.
  - change (lit "upi://" ++ action_name pay ++ lit "?" ++ q)
      with (lit "upi://pay?" ++ q).
    rewrite url_clean_prefix by (discriminate || reflexivity).
    cbn -[query_of filter rev drop_while]. reflexivity.
  - change (lit "upi://" ++ action_name mandate ++ lit "?" ++ q)
      with (lit "upi://mandate?" ++ q).
    rewrite url_clean_prefix by (discriminate || reflexivity).
    cbn -[query_of filter rev drop_while]. reflexivity.
Qed.

Lemma extractQueryFromUri_action (engine : Engine) (a a' : UpiAction) (q : jsstring) :
  extractQueryFromUri engine (lit "upi://" ++ action_name a ++ lit "?" ++ q)
  = extractQueryFromUri engine (lit "upi://" ++ action_name a' ++ lit "?" ++ q).
Proof.
  unfold extractQueryFromUri. rewrite !parseUpiUri_eq, !new_URL_action.
  cbn [protocol hostname]. rewrite str_eqb_refl, !action_of_name. cbn [negb].
  unfold decoded_params, searchParams. cbn [search].
  destruct (negb (isValid _)); reflexivity.
Qed.

(** X15: [buildAppLink] does not read the action of the URI it is given:
    [upi://pay?<q>] and [upi://mandate?<q>] give the same result, whatever
    the string [q] is, and the action of a link is the one of the
    options, by default [pay]. *)
Theorem X15_uri_action_ignored (engine : Engine) (appsData : list UpiApp.t)
    (options : Options.t) (a a' : UpiAction) (q : jsstring) :
  buildAppLink engine appsData
    (with_upiUri options (Some (lit "upi://" ++ action_name a ++ lit "?" ++ q)))
  = buildAppLink engine appsData
      (with_upiUri options (Some (lit "upi://" ++ action_name a' ++ lit "?" ++ q))) /\
  forall link,
    buildAppLink engine appsData
      (with_upiUri options (Some (lit "upi://" ++ action_name a ++ lit "?" ++ q)))
    = Return link ->
    Link.action link = default pay (Options.action options).
Proof.
  split.
  - rewrite !buildAppLink_eq. unfold upi_query, base_uri, resolved_fallback.
    cbn [with_upiUri Options.appId Options.upiUri Options.upiParams Options.platform
         Options.action Options.fallbackUrl Options.includeFallback].
    change (truthy (Some (lit "upi://" ++ action_name a ++ lit "?" ++ q))) with true.
    change (truthy (Some (lit "upi://" ++ action_name a' ++ lit "?" ++ q))) with true.
    cbn [negb andb default bind].
    now rewrite (extractQueryFromUri_action engine a a' q).
  - intros link H. apply buildAppLink_fields in H as (_ & _ & H & _). exact H.
Qed.

Lemma X15_witness :
  buildAppLink node_engine sample_apps
    (with_upiUri (link_options (lit "gpay") [] ios)
       (Some (lit "upi://" ++ action_name mandate ++ lit "?"
              ++ lit "pa=test@upi&pn=Test User#part")))
  = buildAppLink node_engine sample_apps
      (with_upiUri (link_options (lit "gpay") [] ios)
         (Some (lit "upi://" ++ action_name pay ++ lit "?"
                ++ lit "pa=test@upi&pn=Test User#part"))).
Proof.
  apply (X15_uri_action_ignored node_engine sample_apps (link_options (lit "gpay") [] ios)
           mandate pay (lit "pa=test@upi&pn=Test User#part")).
Defined.

(** ** The embedding on the cases of the test suite *)

Ltac run := vm_compute; reflexivity.
Ltac runs := repeat match goal with |- _ /\ _ => split end; run.

Lemma test_validation :
  validateUpiParams params_basic
  = {| isValid := true; errors := []; normalizedParams := params_basic |} /\
  validateUpiParams []
  = {| isValid := false;
       errors := [lit "Payee Address (pa) is required";
                  lit "Payee Name (pn) is required"];
       normalizedParams := [] |} /\
  errors (validateUpiParams params_invalid_vpa)
  = [lit "pa: invalid format. Valid VPA format (user@psp)"] /\
  errors (validateUpiParams params_bad_amount)
  = [lit "am: invalid format. Amount in INR (up to 2 decimal places)"] /\
  normalizedParams (validateUpiParams params_with_amount)
  = params_with_amount ++ [(lit "cu", Some (lit "INR"))] /\
  validateUpiParams params_blank_fields
  = {| isValid := true; errors := []; normalizedParams := params_basic |} /\
  validateUpiParams params_custom_field
  = {| isValid := true; errors := []; normalizedParams := params_custom_field |} /\
  validateUpiParams params_untrimmed
  = {| isValid := true; errors := []; normalizedParams := params_basic |}.
Proof. runs. Qed.

Lemma test_amount_formats :
  map (fun am => test am_pattern (lit am))
      ["100"; "100.00"; "999.99"; "1"; "1."; ".5"; "1.234"; "1e3"; ""]%string
  = [true; true; true; true; false; false; false; false; false].
Proof. vm_compute. reflexivity. Qed.

Lemma test_building :
  buildUpiUri params_basic pay = Return (lit "upi://pay?pa=test%40upi&pn=Test+User") /\
  buildUpiUri params_with_amount mandate
  = Return (lit "upi://mandate?pa=test%40upi&pn=Test+User&am=100&cu=INR") /\
  buildUpiUri params_special_characters pay
  = Return (lit "upi://pay?pa=test%40upi&pn=Test+%26+Co.&tn=Payment+for+goods+%26+services") /\
  buildUpiUri params_invalid_vpa pay
  = Throw (Error (lit "Invalid UPI parameters: pa: invalid format. Valid VPA format (user@psp)")).
Proof. runs. Qed.

Lemma test_parsing :
  parseUpiUri node_engine testUpiUri
  = Return {| Parsed.action := pay;
              Parsed.params := params_with_amount ++ [(lit "cu", Some (lit "INR"))] |} /\
  parseUpiUri node_engine (lit "http://example.com/pay?pa=test@upi")
  = Throw (Error (lit "Invalid UPI URI: must start with upi://")) /\
  (exists e, parseUpiUri node_engine (lit "upi://invalid?pa=test@upi&pn=Test") = Throw e /\
             includes (lit "Invalid UPI action: must be ") (message e) = true).
Proof.
  split; [run|]. split; [run|]. eexists. split; run.
Qed.

Lemma test_detection :
  detectPlatform (Some iphone_user_agent) = ios /\
  detectPlatform (Some android_chrome_user_agent) = android /\
  detectPlatform (Some windows_user_agent) = android /\
  detectPlatform None = android /\
  supportsIntentUrls (Some android_chrome_user_agent) = true /\
  supportsIntentUrls (Some android_firefox_user_agent) = false /\
  supportsIntentUrls (Some ios_chrome_user_agent) = false /\
  supportsIntentUrls None = false.
Proof. runs. Qed.

Lemma test_links :
  (exists link,
     buildAppLink node_engine sample_apps (link_options (lit "gpay") testUpiUri ios)
     = Return link /\
     Link.url link = lit "gpay://upi/pay?pa=test%40upi&pn=Test+User&am=100&cu=INR" /\
     AppInfo.verified (Link.app link) = true) /\
  (exists link,
     buildAppLink node_engine sample_apps
       (with_includeFallback (link_options (lit "gpay") testUpiUri android) (Some false))
     = Return link /\
     Link.fallbackUrl link = None /\
     includes (lit "S.browser_fallback_url") (Link.url link) = false) /\
  buildAppLink node_engine sample_apps
    (with_upiParams (link_options (lit "gpay") [] android) None)
  = Throw argument_error /\
  buildAppLink node_engine sample_apps (link_options (lit "unknown") testUpiUri android)
  = Throw (Error (lit "Unknown app ID: unknown")).
Proof.
  split; [eexists; runs|]. split; [eexists; runs|]. runs.
Qed.

(** Why C2 asks for keys that are not array indices: such a key is
    enumerated first when the URI is read back, and the query changes. *)
Lemma array_index_key_moves :
  buildUpiUri params_index_key pay
  = Return (lit "upi://pay?pa=test%40upi&pn=Test+User&1=y&note=x") /\
  exists link,
    buildAppLink node_engine sample_apps
      (link_options (lit "generic")
         (lit "upi://pay?pa=test%40upi&pn=Test+User&1=y&note=x") android)
    = Return link /\
    Link.url link = lit "upi://pay?1=y&pa=test%40upi&pn=Test+User&note=x".
Proof.
  split; [run|]. eexists. runs.
Qed.
